(** * network-opt: the local-search driver ([network_opt_local.cpp])

    A shallow embedding of [LocalSolver] and of [main], and the properties
    of the random construction, of the improvement loop and of the restart
    driver.

    The header [network_opt.h] (the types [Node], [Tabulator], [Ratio], the
    evaluator, the coder) is not part of the translated file.  What the
    driver uses of it is gathered in the class [Header] and taken as a
    parameter; the driver itself is translated statement by statement.

    Left out: the bounder, which the driver stores and never uses, and the
    release of memory ([delete], the destructor of [Node]): the free store
    of the model only grows. *)

From Stdlib Require Import QArith Qabs Lqa.
From stdpp Require Import base option list gmap strings.

Set Default Proof Using "Type".

(** ** Data *)

(** [Value] is an unsigned slot index, [Mask] the key of the coder. *)
Abbreviation Value := nat.
Abbreviation Mask := N.

(** [Ratio]: exact rationals; [<=] and [>] are [Qle_bool] and its negation. *)
Abbreviation Ratio := Q.

(** A [Node*] is an index into the free store. *)
Abbreviation loc := nat.

Record Node := mkNode {
  values : list Value;
  hidden : list Value;
  children : list loc
}.

(** The free store: [new] appends, so a fresh pointer is the old length. *)
Abbreviation Heap := (list Node).

(** [Problem] is built from the slot count; [problem.size()] gives it back. *)
Record Problem := mkProblem { problem_size : nat }.

Record Tabulator := mkTabulator {
  m : nat;
  lookup_table : gmap Mask (list (Ratio * loc))
}.

(** The state of [rand()]: the seed given to [srand] and the number of
    draws made since. *)
Record Rng := mkRng { seed : nat; drawn : nat }.

(** One block written to [cout] for a new best: the seconds elapsed, and the
    summary of the cloned tree.  [found_cost] is the cost the block belongs
    to (the summary prints the tree and what it evaluates to). *)
Record Report := mkReport {
  seconds : Z;
  found_cost : Ratio;
  summary : string
}.

(** The members of [LocalSolver] together with the process state the driver
    touches. *)
Record State := mkState {
  heap : Heap;
  tabulator : option Tabulator;     (* [None] is [NULL] *)
  best_network : option loc;        (* [None] is [NULL] *)
  expandables : list loc;
  rng : Rng;
  ticks : nat;                      (* readings of the steady clock so far *)
  cout : list Report
}.

(** ** Outcomes *)

(** The constructs of the source whose behaviour C++ leaves undefined. *)
Inductive Undef := NullDeref | ModByZero | Dangling | OutOfRange.

(** The error kinds the specification names.  No statement of the source
    raises one; they are here so that a result can be compared with them. *)
Inductive ErrorKind := ArgParse | TabulatorMiss | InvalidProblem.

Inductive Res (A : Type) :=
| Done (a : A)
| Undefined (u : Undef)
| Fatal (e : ErrorKind)
| OutOfFuel.
Arguments Done {A} a.
Arguments Undefined {A} u.
Arguments Fatal {A} e.
Arguments OutOfFuel {A}.

(** ** The state and error monad of the driver *)

Definition M (A : Type) : Type := State → Res (A * State).

Definition ret {A} (a : A) : M A := λ σ, Done (a, σ).

Definition bind {A B} (c : M A) (k : A → M B) : M B :=
  λ σ, match c σ with
       | Done (a, σ') => k a σ'
       | Undefined u => Undefined u
       | Fatal e => Fatal e
       | OutOfFuel => OutOfFuel
       end.

#[global] Instance M_ret : MRet M := @ret.
#[global] Instance M_bind : MBind M := λ A B k c, bind c k.

Definition undefined {A} (u : Undef) : M A := λ _, Undefined u.
Definition out_of_fuel {A} : M A := λ _, OutOfFuel.
Definition gets {A} (f : State → A) : M A := λ σ, Done (f σ, σ).

Fixpoint for_each {A} (l : list A) (body : A → M unit) : M unit :=
  match l with
  | [] => ret ()
  | x :: l' => body x ;; for_each l' body
  end.

(** Field updates. *)
Definition with_heap (f : Heap → Heap) (σ : State) : State :=
  mkState (f (heap σ)) (tabulator σ) (best_network σ) (expandables σ)
          (rng σ) (ticks σ) (cout σ).
Definition with_tabulator (t : option Tabulator) (σ : State) : State :=
  mkState (heap σ) t (best_network σ) (expandables σ)
          (rng σ) (ticks σ) (cout σ).
Definition with_best_network (b : option loc) (σ : State) : State :=
  mkState (heap σ) (tabulator σ) b (expandables σ)
          (rng σ) (ticks σ) (cout σ).
Definition with_expandables (f : list loc → list loc) (σ : State) : State :=
  mkState (heap σ) (tabulator σ) (best_network σ) (f (expandables σ))
          (rng σ) (ticks σ) (cout σ).
Definition with_rng (r : Rng) (σ : State) : State :=
  mkState (heap σ) (tabulator σ) (best_network σ) (expandables σ)
          r (ticks σ) (cout σ).
Definition with_ticks (n : nat) (σ : State) : State :=
  mkState (heap σ) (tabulator σ) (best_network σ) (expandables σ)
          (rng σ) n (cout σ).
Definition with_cout (f : list Report → list Report) (σ : State) : State :=
  mkState (heap σ) (tabulator σ) (best_network σ) (expandables σ)
          (rng σ) (ticks σ) (f (cout σ)).

Definition update (f : State → State) : M unit := λ σ, Done ((), f σ).

(** ** What the driver uses of [network_opt.h] *)

Class Header := {
  (** the C library's generator: the value of the [k]-th call to [rand()]
      after [srand(s)] *)
  libc_rand : nat → nat → nat;
  (** [std::random_shuffle], drawing from the same generator *)
  random_shuffle : list Value → Rng → list Value * Rng;
  (** [coder.encode] *)
  encode : list Value → Mask;
  (** [network_evaluator.evaluate_cost] *)
  evaluate_cost : Problem → Heap → loc → Ratio;
  (** [Tabulator::tabulate]: fills the table, allocating its subnetworks *)
  tabulate : Problem → Tabulator → Heap → Tabulator * Heap;
  (** [Tabulator::binary_search] and [Tabulator::linear_search] *)
  binary_search : Tabulator → Problem → Heap → loc → loc → list Value → loc;
  linear_search : Tabulator → Problem → Heap → loc → loc → loc →
                  list Value → list Value → loc * loc;
  (** [Node::clone] *)
  clone : Heap → loc → Heap * loc;
  (** [print_summary] *)
  print_summary : Problem → Heap → loc → string;
  (** the [k]-th reading of [chrono::steady_clock::now()], in seconds *)
  steady_clock : nat → Z
}.

Section Driver.
Context `{Header}.

(** *** Primitive statements *)

(** [rand()] *)
Definition rand : M nat := λ σ,
  Done (libc_rand (seed (rng σ)) (drawn (rng σ)),
        with_rng (mkRng (seed (rng σ)) (S (drawn (rng σ)))) σ).

(** [srand(s)] *)
Definition srand (s : nat) : M unit := update (with_rng (mkRng s 0)).

(** [&N()]: a fresh node with nothing in it. *)
Definition N_ : M loc := λ σ,
  Done (length (heap σ), with_heap (λ h, h ++ [mkNode [] [] []]) σ).

(** [*p] for a [Node* p] *)
Definition deref (p : loc) : M Node := λ σ,
  match heap σ !! p with
  | Some n => Done (n, σ)
  | None => Undefined Dangling
  end.

(** An in-place change of the node [p] points to. *)
Definition modify (p : loc) (f : Node → Node) : M unit :=
  n ← deref p; update (with_heap (λ h, <[p := f n]> h)).

(** [values.push_back(v)], [children.push_back(c)], [values.clear()],
    [children.clear()] and [hidden = values] on a node. *)
Definition push_value (v : Value) (n : Node) : Node :=
  mkNode (values n ++ [v]) (hidden n) (children n).
Definition push_child (c : loc) (n : Node) : Node :=
  mkNode (values n) (hidden n) (children n ++ [c]).
Definition clear_values (n : Node) : Node :=
  mkNode [] (hidden n) (children n).
Definition clear_children (n : Node) : Node :=
  mkNode (values n) (hidden n) [].
Definition hide_values (n : Node) : Node :=
  mkNode (values n) (values n) (children n).

(** [tabulator->]: dereferencing [NULL] is undefined. *)
Definition the_tabulator : M Tabulator := λ σ,
  match tabulator σ with
  | Some t => Done (t, σ)
  | None => Undefined NullDeref
  end.

(** [x % n] on unsigned operands; a zero divisor is undefined. *)
Definition modulo (x n : nat) : M nat :=
  if decide (n = 0) then undefined ModByZero else ret (x mod n).

(** [lookup_table[mask]]: a key without candidates gives the empty vector. *)
Definition entry_of (t : Tabulator) (mask : Mask) : list (Ratio * loc) :=
  default [] (lookup_table t !! mask).

(** The subnetworks the table offers for the slots [hd]. *)
Definition candidates (t : Tabulator) (hd : list Value) : list loc :=
  (entry_of t (encode hd)).*2.

(** [v[i]] *)
Definition at_index {A} (v : list A) (i : nat) : M A :=
  match v !! i with
  | Some x => ret x
  | None => undefined OutOfRange
  end.

(** [LocalSolver::clear] *)
Definition clear : M unit := update (with_best_network None).

(** [network_evaluator.evaluate_cost(problem, network)] *)
Definition evaluate (problem : Problem) (network : loc) : M Ratio :=
  h ← gets heap; ret (evaluate_cost problem h network).

(** [chrono::steady_clock::now()] *)
Definition now : M Z :=
  k ← gets ticks; update (with_ticks (S k)) ;; ret (steady_clock k).

(** *** [LocalSolver::randomly_expand] *)

(** The body of the loop over [node->values] (lines 78-84). *)
Definition place (node : loc) (v : Value) : M unit :=
  r ← rand;
  n ← deref node;
  idx ← modulo r (length (children n) + 1);
  (if decide (idx = length (children n))
   then c ← N_; modify node (push_child c)
   else ret ()) ;;
  n' ← deref node;
  child ← at_index (children n') idx;
  modify child (push_value v).

(** [fuel] bounds the depth of the recursion. *)
Fixpoint randomly_expand (fuel : nat) (node : loc) : M unit :=
  match fuel with
  | 0 => out_of_fuel
  | S fuel' =>
    t ← the_tabulator;
    n ← deref node;
    if decide (length (values n) ≤ m t) then
      update (with_expandables (λ es, es ++ [node])) ;;
      modify node hide_values ;;
      modify node clear_values ;;
      n1 ← deref node;
      let mask := encode (hidden n1) in
      let entry := entry_of t mask in
      r ← rand;
      idx ← modulo r (length entry);
      e ← at_index entry idx;
      modify node (push_child e.2)
    else
      for_each (values n) (place node) ;;
      modify node clear_values ;;
      n1 ← deref node;
      for_each (children n1) (randomly_expand fuel')
  end.

(** *** [LocalSolver::iteratively_improve] *)

(** The substitution of one pass of the loop (lines 92-110). *)
Definition substitute (problem : Problem) (network : loc) : M unit :=
  es ← gets expandables;
  r0 ← rand;
  idx_0 ← modulo r0 (length es);
  r1 ← rand;
  idx_1 ← modulo r1 (length es);
  (if decide (idx_0 = idx_1) then
     expandable ← at_index es idx_0;
     modify expandable clear_children ;;
     t ← the_tabulator;
     e ← deref expandable;
     h ← gets heap;
     let node := binary_search t problem h network expandable (hidden e) in
     modify expandable (push_child node)
   else
     expandable_0 ← at_index es idx_0;
     expandable_1 ← at_index es idx_1;
     modify expandable_0 clear_children ;;
     modify expandable_1 clear_children ;;
     t ← the_tabulator;
     e0 ← deref expandable_0;
     e1 ← deref expandable_1;
     h ← gets heap;
     let nodes :=
       linear_search t problem h network expandable_0 expandable_1
                     (hidden e0) (hidden e1) in
     modify expandable_0 (push_child nodes.1) ;;
     modify expandable_1 (push_child nodes.2)).

(** One pass up to the re-evaluation (line 111); the result is [cost]. *)
Definition improve_step (problem : Problem) (network : loc) : M Ratio :=
  substitute problem network ;; evaluate problem network.

(** The loop; [fuel] bounds the number of passes.  The source keeps the
    evaluated costs only in [best_cost] and [cost]; here they are returned in
    the order they were computed. *)
Fixpoint improve_loop (fuel : nat) (problem : Problem) (network : loc)
    (best_cost : Ratio) : M (list Ratio) :=
  match fuel with
  | 0 => out_of_fuel
  | S fuel' =>
    cost ← improve_step problem network;
    if Qle_bool best_cost cost then ret [cost]
    else rest ← improve_loop fuel' problem network cost; ret (cost :: rest)
  end.

Definition iteratively_improve (fuel : nat) (problem : Problem)
    (network : loc) : M (list Ratio) :=
  best_cost ← evaluate problem network;
  rest ← improve_loop fuel problem network best_cost;
  ret (best_cost :: rest).

(** *** [LocalSolver::solve] *)

(** Lines 32-38: the random tree of one restart. *)
Definition construct (fuel : nat) (problem : Problem) : M loc :=
  update (with_expandables (λ _, [])) ;;
  let values := seq 0 (problem_size problem) in
  g ← gets rng;
  let shuffled := random_shuffle values g in
  update (with_rng shuffled.2) ;;
  network ← N_;
  for_each shuffled.1 (λ value, modify network (push_value value)) ;;
  randomly_expand fuel network ;;
  ret network.

(** [best_cost > cost] *)
Definition Qgt_bool (a b : Ratio) : bool := negb (Qle_bool a b).

(** Lines 32-40 of one pass of the outer loop: the tree and its cost. *)
Definition attempt (fuel : nat) (problem : Problem) : M (loc * Ratio) :=
  network ← construct fuel problem;
  iteratively_improve fuel problem network ;;
  cost ← evaluate problem network;
  mret (network, cost).

(** Lines 41-50: the best record; the result is [best_cost]. *)
Definition record_best (problem : Problem) (start : Z) (best_cost : Ratio)
    (network : loc) (cost : Ratio) : M Ratio :=
  best ← gets best_network;
  if bool_decide (best = None) || Qgt_bool best_cost cost then
    clear ;;
    h ← gets heap;
    let cl := clone h network in
    update (with_heap (λ _, cl.1)) ;;
    update (with_best_network (Some cl.2)) ;;
    end_ ← now;
    update (with_cout (λ o,
      o ++ [mkReport (end_ - start) cost (print_summary problem cl.1 cl.2)])) ;;
    mret cost
  else mret best_cost.

(** One pass of the outer loop (lines 32-51); the result is [best_cost].
    Releasing the working tree has no counterpart: the store only grows. *)
Definition restart (fuel : nat) (problem : Problem) (start : Z)
    (best_cost : Ratio) : M Ratio :=
  nc ← attempt fuel problem;
  record_best problem start best_cost nc.1 nc.2.

(** The first [rounds] passes of [while (true)]. *)
Fixpoint solve_loop (rounds fuel : nat) (problem : Problem) (start : Z)
    (best_cost : Ratio) : M Ratio :=
  match rounds with
  | 0 => ret best_cost
  | S rounds' =>
    best_cost' ← restart fuel problem start best_cost;
    solve_loop rounds' fuel problem start best_cost'
  end.

(** [solve] never leaves its loop; the model stops after [rounds] passes and
    gives [best_cost]. *)
Definition solve (rounds fuel : nat) (problem : Problem) : M Ratio :=
  start ← now;
  clear ;;
  tab ← gets tabulator;
  match tab with
  | Some t =>
      h ← gets heap;
      let tb := tabulate problem t h in
      update (with_tabulator (Some tb.1)) ;; update (with_heap (λ _, tb.2))
  | None => ret ()
  end ;;
  solve_loop rounds fuel problem start 0%Q.

(** *** [main] *)

(** The process before [main] runs. *)
Definition boot : State :=
  mkState [] None None [] (mkRng 1 0) 0 [].

(** [main] with [argv[1]] and [argv[2]] already read as [n] and [t]; the
    bounder and the series tag do not reach the driver. *)
Definition main (rounds fuel n t : nat) : Res (Ratio * State) :=
  (srand 2022 ;;
   update (with_tabulator
             (if decide (t = 0) then None else Some (mkTabulator t ∅))) ;;
   solve rounds fuel (mkProblem n)) boot.

End Driver.

(** The store after [c] was pushed to the children of [e]. *)
Definition attach (h : Heap) (e c : loc) : Heap := alter (push_child c) e h.

(** ** A small instance of the header

    Stand-ins for the collaborators, simple enough to run the driver on
    concrete inputs: the generator of the C standard's example, a shuffle by
    random insertion, the coder as a bit mask, a series/parallel evaluator
    over the integer series with target 1, a table with two arrangements per
    key, and searches by enumeration.  They are not the header of the
    repository; every statement below is about an arbitrary [Header], and
    this one only serves to run them. *)

Module Bench.

(** The example generator of the C standard. *)
Definition lcg (x : N) : N := ((x * 1103515245 + 12345) mod 4294967296)%N.

Definition rand_value (s k : nat) : nat :=
  N.to_nat ((Nat.iter (S k) lcg (N.of_nat s) / 65536) mod 32768)%N.

(** Each element goes to a drawn position among those already placed. *)
Fixpoint shuffle_into (acc l : list Value) (g : Rng) : list Value * Rng :=
  match l with
  | [] => (acc, g)
  | x :: l' =>
    let j := rand_value (seed g) (drawn g) mod (length acc + 1) in
    shuffle_into (take j acc ++ x :: drop j acc) l'
                 (mkRng (seed g) (S (drawn g)))
  end.

Definition shuffle (l : list Value) (g : Rng) : list Value * Rng :=
  shuffle_into [] l g.

(** One bit per slot. *)
Definition mask_of (vs : list Value) : Mask :=
  foldr (λ v acc, N.lor (N.shiftl 1 (N.of_nat v)) acc) 0%N vs.

(** Slot [v] carries the resistor [v + 1]. *)
Definition series_value (v : Value) : Ratio := inject_Z (Z.of_nat (S v)).

Definition Qsum (l : list Ratio) : Ratio := foldr Qplus 0%Q l.

(** Series at even depth, parallel at odd depth. *)
Fixpoint resistance (fuel : nat) (h : Heap) (parallel : bool) (p : loc) :
    Ratio :=
  match fuel with
  | 0 => 0%Q
  | S fuel' =>
    match h !! p with
    | None => 0%Q
    | Some n =>
      let parts := (series_value <$> values n)
                   ++ (resistance fuel' h (negb parallel) <$> children n) in
      if parallel then Qred (/ Qsum (Qinv <$> parts)) else Qred (Qsum parts)
    end
  end.

(** The distance to the target 1. *)
Definition cost_of (_ : Problem) (h : Heap) (network : loc) : Ratio :=
  Qred (Qabs (resistance (length h) h false network - 1)).

Fixpoint sublists (l : list Value) : list (list Value) :=
  match l with
  | [] => [[]]
  | x :: l' => sublists l' ++ (cons x <$> sublists l')
  end.

(** The two arrangements of the slots [vs]: all on one level, or all one
    level further down. *)
Definition add_entry (problem : Problem) (tb : Tabulator * Heap)
    (vs : list Value) : Tabulator * Heap :=
  let h := tb.2 in
  let flat := length h in
  let inner := S (length h) in
  let outer := S (S (length h)) in
  let h' := h ++ [mkNode vs [] []; mkNode vs [] []; mkNode [] [] [inner]] in
  (mkTabulator (m tb.1)
     (<[mask_of vs := [(cost_of problem h' flat, flat);
                       (cost_of problem h' outer, outer)]]>
        (lookup_table tb.1)),
   h').

Definition build_table (problem : Problem) (t : Tabulator) (h : Heap) :
    Tabulator * Heap :=
  foldl (add_entry problem) (t, h)
        (filter (λ vs, 1 ≤ length vs ≤ m t)
                (sublists (seq 0 (problem_size problem)))).

(** The first element of [l] with the least [f]; [d] when there is none. *)
Fixpoint min_by {A} (f : A → Ratio) (l : list A) (d : A) : A :=
  match l with
  | [] => d
  | x :: l' =>
    match l' with
    | [] => x
    | _ => let y := min_by f l' d in if Qle_bool (f x) (f y) then x else y
    end
  end.

Definition search_one (t : Tabulator) (problem : Problem) (h : Heap)
    (network expandable : loc) (hd : list Value) : loc :=
  min_by (λ c, cost_of problem (attach h expandable c) network)
         ((default [] (lookup_table t !! mask_of hd)).*2) 0.

Definition search_two (t : Tabulator) (problem : Problem) (h : Heap)
    (network e0 e1 : loc) (hd0 hd1 : list Value) : loc * loc :=
  min_by (λ c, cost_of problem (attach (attach h e0 c.1) e1 c.2) network)
         (c0 ← (default [] (lookup_table t !! mask_of hd0)).*2;
          c1 ← (default [] (lookup_table t !! mask_of hd1)).*2;
          [(c0, c1)])
         (0, 0).

(** A deep copy, appended to the store. *)
Fixpoint copy (fuel : nat) (h : Heap) (p : loc) : Heap * loc :=
  match fuel with
  | 0 => (h, p)
  | S fuel' =>
    match h !! p with
    | None => (h, p)
    | Some n =>
      let r := foldl (λ acc c, let r := copy fuel' acc.1 c in
                               (r.1, acc.2 ++ [r.2]))
                     (h, []) (children n) in
      (r.1 ++ [mkNode (values n) (hidden n) r.2], length r.1)
    end
  end.

Definition deep_copy (h : Heap) (p : loc) : Heap * loc := copy (length h) h p.

Definition digit (v : nat) : string :=
  String (Ascii.ascii_of_nat (48 + v mod 10)) EmptyString.

(** The tree in brackets, slots as digits. *)
Fixpoint show (fuel : nat) (h : Heap) (p : loc) : string :=
  match fuel with
  | 0 => "?"
  | S fuel' =>
    match h !! p with
    | None => "?"
    | Some n =>
      "(" +:+ foldr (λ v s, digit v +:+ s) ""
                    (if decide (values n = []) then hidden n else values n)
          +:+ foldr (λ c s, show fuel' h c +:+ s) "" (children n) +:+ ")"
    end
  end.

Definition show_summary (_ : Problem) (h : Heap) (p : loc) : string :=
  show (length h) h p.

(** A clock that advances three seconds per reading. *)
Definition clock (k : nat) : Z := 3 * Z.of_nat k.

#[export] Instance header : Header := {
  libc_rand := rand_value;
  random_shuffle := shuffle;
  encode := mask_of;
  evaluate_cost := cost_of;
  tabulate := build_table;
  binary_search := search_one;
  linear_search := search_two;
  clone := deep_copy;
  print_summary := show_summary;
  steady_clock := clock
}.

End Bench.

(** * The vocabulary of the statements *)

(** A child as [N()] made it and line 83 filled it. *)
Definition leaf (g : list Value) : Node := mkNode g [] [].

(** The groups after one more value: the draw picks a group or opens one. *)
Definition place_groups (r : nat) (v : Value) (groups : list (list Value)) :
    list (list Value) :=
  let idx := r mod (length groups + 1) in
  alter (λ g, g ++ [v]) idx
        (if decide (idx = length groups) then groups ++ [[]] else groups).

(** The store while the values of [node] are handed out: [node] holds the
    children made so far, which sit at the end of the store. *)
Definition dealt (h0 : Heap) (node : loc) (vs : list Value)
    (groups : list (list Value)) : Heap :=
  <[node := mkNode vs [] (seq (length h0) (length groups))]> h0
    ++ (leaf <$> groups).

(** The members of the solver that the construction leaves alone. *)
Definition same_solver (σ σ' : State) : Prop :=
  tabulator σ' = tabulator σ ∧ best_network σ' = best_network σ ∧
  seed (rng σ') = seed (rng σ) ∧ ticks σ' = ticks σ ∧ cout σ' = cout σ.

(** The slots found in the tree at [node]: the [hidden] of an expandable,
    the [values] of any other node together with the slots of its
    children.  [fuel] bounds the depth. *)
Fixpoint slots_of (fuel : nat) (h : Heap) (exps : list loc) (node : loc) :
    list Value :=
  match fuel with
  | 0 => []
  | S fuel' =>
    match h !! node with
    | None => []
    | Some n =>
      if decide (node ∈ exps) then hidden n
      else values n ++ concat (slots_of fuel' h exps <$> children n)
    end
  end.

(** The costs the loop evaluates after the tracked cost [b]: each is
    strictly lower than the one before, except the last, which is not. *)
Inductive descent : Ratio → list Ratio → Prop :=
| descent_stop b c : (b <= c)%Q → descent b [c]
| descent_step b c rest : (c < b)%Q → descent c rest → descent b (c :: rest).

(** Each cost is at most the one before. *)
Inductive sinks : Ratio → list Ratio → Prop :=
| sinks_nil b : sinks b []
| sinks_cons b c rest : (c <= b)%Q → sinks c rest → sinks b (c :: rest).

(** The node with [c] as its only child. *)
Definition set_child (c : loc) (n : Node) : Node :=
  mkNode (values n) (hidden n) [c].

(** [e->hidden] *)
Definition hidden_at (h : Heap) (e : loc) : list Value :=
  from_option hidden [] (h !! e).

(** [std::random_shuffle] permutes its range and draws from the generator
    without seeding it again. *)
Class ShuffleLaws `{Header} : Prop := {
  shuffle_perm : ∀ l g, (random_shuffle l g).1 ≡ₚ l;
  shuffle_seed : ∀ l g, seed (random_shuffle l g).2 = seed g
}.

(** [binary_search] and [linear_search] as the specification describes
    them: called on the tree with the children of the named expandables
    cleared, they return candidates of the table for the hidden slots, and
    no other choice of candidates gives the whole tree a lower cost. *)
Class SearchContract `{Header} : Prop := {
  binary_search_best : ∀ t problem h network e n,
    h !! e = Some n → children n = [] → candidates t (hidden n) ≠ [] →
    binary_search t problem h network e (hidden n) ∈ candidates t (hidden n) ∧
    ∀ c, c ∈ candidates t (hidden n) →
      (evaluate_cost problem
         (attach h e (binary_search t problem h network e (hidden n))) network
       <= evaluate_cost problem (attach h e c) network)%Q;
  linear_search_best : ∀ t problem h network e0 e1 n0 n1,
    e0 ≠ e1 → h !! e0 = Some n0 → h !! e1 = Some n1 →
    children n0 = [] → children n1 = [] →
    candidates t (hidden n0) ≠ [] → candidates t (hidden n1) ≠ [] →
    let r := linear_search t problem h network e0 e1 (hidden n0) (hidden n1) in
    r.1 ∈ candidates t (hidden n0) ∧ r.2 ∈ candidates t (hidden n1) ∧
    ∀ c0 c1, c0 ∈ candidates t (hidden n0) → c1 ∈ candidates t (hidden n1) →
      (evaluate_cost problem (attach (attach h e0 r.1) e1 r.2) network
       <= evaluate_cost problem (attach (attach h e0 c0) e1 c1) network)%Q
}.

(** [k] substitutions in a row. *)
Fixpoint substitutions `{Header} (k : nat) (problem : Problem)
    (network : loc) : M unit :=
  match k with
  | 0 => mret ()
  | S k' => substitute problem network ;; substitutions k' problem network
  end.

(** Lines 95-99 on the store. *)
Definition substituted_one `{Header} (t : Tabulator) (problem : Problem)
    (network : loc) (h : Heap) (e : loc) : Heap :=
  let h1 := alter clear_children e h in
  attach h1 e (binary_search t problem h1 network e (hidden_at h1 e)).

(** Lines 101-109 on the store, for two different expandables. *)
Definition substituted_two `{Header} (t : Tabulator) (problem : Problem)
    (network : loc) (h : Heap) (e0 e1 : loc) : Heap :=
  let h2 := alter clear_children e1 (alter clear_children e0 h) in
  let r := linear_search t problem h2 network e0 e1
                         (hidden_at h2 e0) (hidden_at h2 e1) in
  attach (attach h2 e0 r.1) e1 r.2.

(** [triple P c Q E]: from a state in [P], the computation [c] ends in a
    state in [Q], or in an undefined construct among [E], or runs out of
    fuel; it never raises an error kind. *)
Definition triple {A} (P : State → Prop) (c : M A)
    (Q : A → State → Prop) (E : Undef → Prop) : Prop :=
  ∀ σ, P σ →
    match c σ with
    | Done (a, σ') => Q a σ'
    | Undefined u => E u
    | Fatal _ => False
    | OutOfFuel => True
    end.

(** A computation that respects an invariant of the state. *)
Definition keeps {A} (I : State → Prop) (E : Undef → Prop) (c : M A) : Prop :=
  triple I c (λ _, I) E.

(** The same collaborators with other clock readings. *)
Definition with_clock (H : Header) (clk : nat → Z) : Header := {|
  libc_rand := @libc_rand H;
  random_shuffle := @random_shuffle H;
  encode := @encode H;
  evaluate_cost := @evaluate_cost H;
  tabulate := @tabulate H;
  binary_search := @binary_search H;
  linear_search := @linear_search H;
  clone := @clone H;
  print_summary := @print_summary H;
  steady_clock := clk
|}.




(** A change of the final state of a run. *)
Definition res_map {A} (f : State → State) (r : Res (A * State)) :
    Res (A * State) :=
  match r with
  | Done (a, σ) => Done (a, f σ)
  | Undefined u => Undefined u
  | Fatal e => Fatal e
  | OutOfFuel => OutOfFuel
  end.

(** A computation that neither reads nor writes [cout]. *)
Definition blind {A} (c : M A) : Prop :=
  ∀ o σ, c (with_cout (λ _, o) σ) = res_map (with_cout (λ _, o)) (c σ).

Section Vocabulary.
Context `{Header}.

(** [built t h node slots es ins]: in the store [h], [node] is the root of a
    fully expanded tree; [es] are its expandables in the order they were
    registered, [slots] the concatenation of their [hidden], [ins] the
    nodes above them.  The subnetworks of the table below the expandables
    are not entered. *)
Inductive built (t : Tabulator) (h : Heap) :
    loc → list Value → list loc → list loc → Prop :=
| built_expandable node hd c :
    h !! node = Some (mkNode [] hd [c]) →
    hd ≠ [] → length hd ≤ m t → c ∈ candidates t hd →
    built t h node hd [node] []
| built_internal node cs slots es ins :
    h !! node = Some (mkNode [] [] cs) →
    cs ≠ [] →
    built_forest t h cs slots es ins →
    built t h node slots es (node :: ins)
with built_forest (t : Tabulator) (h : Heap) :
    list loc → list Value → list loc → list loc → Prop :=
| forest_nil : built_forest t h [] [] [] []
| forest_cons c cs s1 e1 i1 s2 e2 i2 :
    built t h c s1 e1 i1 →
    built_forest t h cs s2 e2 i2 →
    built_forest t h (c :: cs) (s1 ++ s2) (e1 ++ e2) (i1 ++ i2).

Scheme built_mut := Minimality for built Sort Prop
  with built_forest_mut := Minimality for built_forest Sort Prop.
Combined Scheme built_mutind from built_mut, built_forest_mut.

(** What a call that returns has done, for a node that held [vs]. *)
Record expanded (t : Tabulator) (node : loc) (vs : list Value)
    (σ σ' : State) (slots : list Value) (es ins : list loc) : Prop := {
  expanded_built : built t (heap σ') node slots es ins;
  expanded_slots : slots ≡ₚ vs;
  expanded_expandables : expandables σ' = expandables σ ++ es;
  expanded_where :
    Forall (λ l, l = node ∨ length (heap σ) ≤ l < length (heap σ')) (es ++ ins);
  expanded_NoDup : NoDup (es ++ ins);
  expanded_grows : length (heap σ) ≤ length (heap σ');
  expanded_frame :
    ∀ l, l < length (heap σ) → l ≠ node → heap σ' !! l = heap σ !! l;
  expanded_solver : same_solver σ σ'
}.

(** The statement proved by induction on the depth of the recursion. *)
Definition expand_spec (fuel : nat) : Prop :=
  ∀ node σ σ' t vs,
    tabulator σ = Some t →
    heap σ !! node = Some (leaf vs) → vs ≠ [] →
    randomly_expand fuel node σ = Done ((), σ') →
    ∃ slots es ins, expanded t node vs σ σ' slots es ins.

(** An expandable as the base case leaves it. *)
Definition expandable_ok (t : Tabulator) (h : Heap) (e : loc) : Prop :=
  ∃ hd c, h !! e = Some (mkNode [] hd [c]) ∧ hd ≠ [] ∧ length hd ≤ m t ∧
          c ∈ candidates t hd.

(** An expandable that holds one candidate of the table for its slots. *)
Definition selected (t : Tabulator) (h : Heap) (e : loc) : Prop :=
  ∃ n c, h !! e = Some n ∧ children n = [c] ∧ c ∈ candidates t (hidden n).

(** The stores that differ from [h] in which candidate each of [es] holds. *)
Definition variants (t : Tabulator) (es : list loc) (h : Heap) : list Heap :=
  foldr (λ e acc,
           h' ← acc; c ← candidates t (hidden_at h e);
           [alter (set_child c) e h'])
        [h] es.

(** What holds of the state throughout [iteratively_improve]. *)
Definition loop_inv (t : Tabulator) (es : list loc) (h0 : Heap)
    (σ : State) : Prop :=
  tabulator σ = Some t ∧ expandables σ = es ∧
  heap σ ∈ variants t es h0 ∧ Forall (selected t (heap σ)) es.

#[export] Instance Qlt_decision (x y : Q) : Decision (x < y)%Q.
Proof.
  destruct (Qlt_le_dec x y) as [Hlt|Hle]; [by left|right].
  by apply Qle_not_lt.
Defined.

(** The variants that are strictly better than the current tree. *)
Definition better (t : Tabulator) (es : list loc) (h0 : Heap)
    (problem : Problem) (network : loc) (c : Ratio) : list Heap :=
  filter (λ h, (evaluate_cost problem h network < c)%Q) (variants t es h0).

(** The block written for the tree at [network] with cost [cost], read at
    the state [σ]. *)
Definition report_of (problem : Problem) (start : Z) (network : loc)
    (cost : Ratio) (σ : State) : Report :=
  mkReport (steady_clock (ticks σ) - start) cost
           (print_summary problem (clone (heap σ) network).1
                          (clone (heap σ) network).2).

(** The state at which the loop of [solve] is entered. *)
Definition loop_entry (n t : nat) : State :=
  if decide (t = 0) then mkState [] None None [] (mkRng 2022 0) 1 []
  else
    let tb := tabulate (mkProblem n) (mkTabulator t ∅) [] in
    mkState tb.2 (Some tb.1) None [] (mkRng 2022 0) 1 [].

End Vocabulary.

(** ** States of the small instance *)

(** The state in which [solve] enters its loop, for [n] slots and arity [t]. *)
Definition started (n t : nat) : State :=
  match main (H := Bench.header) 0 0 n t with
  | Done (_, σ) => σ
  | _ => boot
  end.

(** The table a state holds. *)
Definition table_of (σ : State) : Tabulator :=
  default (mkTabulator 0 ∅) (tabulator σ).

(** Entries of the loop, trees built from them and passes run on them. *)
Definition started_3_1 : State := Eval vm_compute in started 3 1.
Definition started_2_2 : State := Eval vm_compute in started 2 2.

Definition built_3_1 : loc * State :=
  Eval vm_compute in
    match construct (H := Bench.header) 10 (mkProblem 3) started_3_1 with
    | Done r => r
    | _ => (0, boot)
    end.

Definition built_3_2 : loc * State :=
  Eval vm_compute in
    match construct (H := Bench.header) 10 (mkProblem 3)
            (started 3 2) with
    | Done r => r
    | _ => (0, boot)
    end.

Definition improved_3_2 : list Ratio * State :=
  Eval vm_compute in
    match iteratively_improve (H := Bench.header) 10 (mkProblem 3)
            built_3_2.1 built_3_2.2 with
    | Done r => r
    | _ => ([], boot)
    end.

Definition first_3_1 : Ratio * State :=
  Eval vm_compute in
    match restart (H := Bench.header) 10 (mkProblem 3) 0 0%Q started_3_1 with
    | Done r => r
    | _ => (0%Q, boot)
    end.

Definition later_3_1 : Ratio * State :=
  Eval vm_compute in
    match solve_loop (H := Bench.header) 2 10 (mkProblem 3) 0
            first_3_1.1 first_3_1.2 with
    | Done r => r
    | _ => (0%Q, boot)
    end.

(** A node holding both slots, not yet expanded. *)
Definition pending_2_2 : State :=
  with_heap (λ h, h ++ [leaf [1; 0]]) started_2_2.

(** A table of arity 1 with nothing in it, and a node holding slot 0. *)
Definition unfilled : State :=
  mkState [leaf [0]] (Some (mkTabulator 1 ∅)) None [] (mkRng 2022 0) 0 [].

Definition started_1_1 : State := Eval vm_compute in started 1 1.

(** ** Vocabulary of the further properties *)

(** The store [h'] differs from [h] at most in the children of the nodes
    [es]: same length, same nodes elsewhere, same [values] and [hidden]
    everywhere. *)
Definition touched_only (es : list loc) (h h' : Heap) : Prop :=
  length h' = length h ∧
  ∀ l, (l ∉ es → h' !! l = h !! l) ∧
       values <$> h' !! l = values <$> h !! l ∧
       hidden <$> h' !! l = hidden <$> h !! l.

(** Each cost is strictly below the one before. *)
Definition falling (l : list Ratio) : Prop :=
  ∀ i a b, l !! i = Some a → l !! S i = Some b → (b < a)%Q.

(** A run that performed no undefined operation and raised nothing. *)
Definition harmless {A} (r : Res A) : Prop :=
  match r with
  | Done _ | OutOfFuel => True
  | Undefined _ | Fatal _ => False
  end.

(** The small instance with a generator that always draws 0. *)
Definition stuck_header : Header := {|
  libc_rand := λ _ _, 0;
  random_shuffle := Bench.shuffle;
  encode := Bench.mask_of;
  evaluate_cost := Bench.cost_of;
  tabulate := Bench.build_table;
  binary_search := Bench.search_one;
  linear_search := Bench.search_two;
  clone := Bench.deep_copy;
  print_summary := Bench.show_summary;
  steady_clock := Bench.clock
|}.

(** Runs of the small instance used below. *)
Definition attempted_3_1 : (loc * Ratio) * State :=
  Eval vm_compute in
    match attempt (H := Bench.header) 10 (mkProblem 3) started_3_1 with
    | Done r => r
    | _ => ((0, 0%Q), boot)
    end.

Definition ran_3_1 : Ratio * State :=
  Eval vm_compute in
    match main (H := Bench.header) 3 10 3 1 with
    | Done r => r
    | _ => (0%Q, boot)
    end.

(** What the improvement loop keeps of the state it started from. *)
Definition touched_inv (es : list loc) (h0 : Heap) (σ : State) : Prop :=
  expandables σ = es ∧ touched_only es h0 (heap σ).

(** What holds of the output throughout the loop of [solve], with [b] the
    tracked best cost. *)
Definition reported (b : Ratio) (σ : State) : Prop :=
  ticks σ = S (length (cout σ)) ∧
  falling (found_cost <$> cout σ) ∧
  (best_network σ = None → cout σ = []) ∧
  (best_network σ ≠ None → last (found_cost <$> cout σ) = Some b).

(** A node holding both slots under a table of arity 1. *)
Definition pending_2_1 : State :=
  Eval vm_compute in with_heap (λ h, h ++ [leaf [1; 0]]) (started 2 1).

(** A computation that, on the generator, only draws: it leaves the seed
    and moves the position in the stream forward. *)
Definition draws_on {A} (c : M A) : Prop :=
  ∀ σ a σ', c σ = Done (a, σ') →
    ∃ j, rng σ' = mkRng (seed (rng σ)) (drawn (rng σ) + j).

(** One pass of the loop of [iteratively_improve] on the state (lines
    92-110): the two numbers drawn pick the expandables [e0] and [e1]; with
    equal indices the children of [e0] are cleared and what [binary_search]
    returns is pushed, otherwise the children of both are cleared and what
    [linear_search] returns is pushed; nothing else changes but the
    position of the generator. *)
Definition passed `{Header} (problem : Problem) (network : loc)
    (σ σ' : State) : Prop :=
  let es := expandables σ in
  let i0 := libc_rand (seed (rng σ)) (drawn (rng σ)) mod length es in
  let i1 := libc_rand (seed (rng σ)) (S (drawn (rng σ))) mod length es in
  ∃ t e0 e1,
    tabulator σ = Some t ∧ es !! i0 = Some e0 ∧ es !! i1 = Some e1 ∧
    σ' = with_heap (λ h,
           if decide (i0 = i1) then substituted_one t problem network h e0
           else substituted_two t problem network h e0 e1)
           (with_rng (mkRng (seed (rng σ)) (S (S (drawn (rng σ))))) σ).

(** * Properties *)

(** ** Reading a run of the monad *)

Section Runs.
Context `{Header}.

Lemma bind_done {A B} (c : M A) (k : A → M B) σ r :
  (c ≫= k) σ = Done r → ∃ a σ', c σ = Done (a, σ') ∧ k a σ' = Done r.
Proof.
  unfold mbind, M_bind, bind. destruct (c σ) as [[a σ']| | |]; try done.
  intros Hk. by exists a, σ'.
Qed.

Lemma bind_run {A B} (c : M A) (k : A → M B) σ a σ' :
  c σ = Done (a, σ') → (c ≫= k) σ = k a σ'.
Proof. unfold mbind, M_bind, bind. by intros ->. Qed.

Lemma ret_done {A} (a : A) σ r : (mret a : M A) σ = Done r → r = (a, σ).
Proof. unfold mret, M_ret, ret. congruence. Qed.

Lemma update_done f σ r : update f σ = Done r → r = ((), f σ).
Proof. unfold update. congruence. Qed.

Lemma gets_done {A} (f : State → A) σ r : gets f σ = Done r → r = (f σ, σ).
Proof. unfold gets. congruence. Qed.

Lemma rand_done σ r :
  rand σ = Done r →
  r = (libc_rand (seed (rng σ)) (drawn (rng σ)),
       with_rng (mkRng (seed (rng σ)) (S (drawn (rng σ)))) σ).
Proof. unfold rand. congruence. Qed.

Lemma N_done σ r :
  N_ σ = Done r →
  r = (length (heap σ), with_heap (λ h, h ++ [mkNode [] [] []]) σ).
Proof. unfold N_. congruence. Qed.

Lemma deref_done p σ r :
  deref p σ = Done r → ∃ n, heap σ !! p = Some n ∧ r = (n, σ).
Proof. unfold deref. destruct (heap σ !! p); [|done]. intros [= <-]. eauto. Qed.

Lemma deref_run p σ n : heap σ !! p = Some n → deref p σ = Done (n, σ).
Proof. unfold deref. by intros ->. Qed.

Lemma modify_done p f σ r :
  modify p f σ = Done r →
  ∃ n, heap σ !! p = Some n ∧ r = ((), with_heap (λ h, <[p := f n]> h) σ).
Proof.
  unfold modify. intros (n & σ' & Hd & Hu)%bind_done.
  apply deref_done in Hd as (n' & Hn & [= <- <-]).
  apply update_done in Hu. eauto.
Qed.

Lemma modify_run p f σ n :
  heap σ !! p = Some n →
  modify p f σ = Done ((), with_heap (λ h, <[p := f n]> h) σ).
Proof. intros Hn. unfold modify. by rewrite (bind_run _ _ _ _ _ (deref_run _ _ _ Hn)). Qed.

Lemma the_tabulator_done σ r :
  the_tabulator σ = Done r → ∃ t, tabulator σ = Some t ∧ r = (t, σ).
Proof. unfold the_tabulator. destruct (tabulator σ); [|done]. intros [= <-]. eauto. Qed.

Lemma modulo_done x n σ r :
  modulo x n σ = Done r → n ≠ 0 ∧ r = (x mod n, σ).
Proof. unfold modulo. case_decide; [done|]. intros ->%ret_done. done. Qed.

Lemma at_index_done {A} (v : list A) i σ r :
  at_index v i σ = Done r → ∃ x, v !! i = Some x ∧ r = (x, σ).
Proof. unfold at_index. destruct (v !! i); [|done]. intros ->%ret_done. eauto. Qed.

Lemma the_tabulator_run σ t :
  tabulator σ = Some t → the_tabulator σ = Done (t, σ).
Proof. unfold the_tabulator. by intros ->. Qed.

Lemma modulo_run x n σ : n ≠ 0 → modulo x n σ = Done (x mod n, σ).
Proof. intros Hn. unfold modulo. by rewrite decide_False. Qed.

Lemma at_index_run {A} (v : list A) i x σ :
  v !! i = Some x → at_index v i σ = Done (x, σ).
Proof. unfold at_index. by intros ->. Qed.

End Runs.

(** Takes a successful run apart, statement by statement. *)
Ltac run_step H :=
  lazymatch type of H with
  | @mbind _ _ _ _ _ _ _ = Done _ =>
      let a := fresh "a" in let σ := fresh "σ" in
      let H1 := fresh "Hrun" in
      apply bind_done in H as (a & σ & H1 & H); run_step H1
  | @mret _ _ _ _ _ = Done _ => apply ret_done in H; simplify_eq/=
  | ret _ _ = Done _ => apply ret_done in H; simplify_eq/=
  | update _ _ = Done _ => apply update_done in H; simplify_eq/=
  | gets _ _ = Done _ => apply gets_done in H; simplify_eq/=
  | rand _ = Done _ => apply rand_done in H; simplify_eq/=
  | N_ _ = Done _ => apply N_done in H; simplify_eq/=
  | deref _ _ = Done _ =>
      let n := fresh "n" in let Hn := fresh "Hn" in
      apply deref_done in H as (n & Hn & H); simplify_eq/=
  | modify _ _ _ = Done _ =>
      let n := fresh "n" in let Hn := fresh "Hn" in
      apply modify_done in H as (n & Hn & H); simplify_eq/=
  | the_tabulator _ = Done _ =>
      let t := fresh "t" in let Ht := fresh "Ht" in
      apply the_tabulator_done in H as (t & Ht & H); simplify_eq/=
  | modulo _ _ _ = Done _ =>
      let Hz := fresh "Hz" in
      apply modulo_done in H as (Hz & H); simplify_eq/=
  | at_index _ _ _ = Done _ =>
      let x := fresh "x" in let Hx := fresh "Hx" in
      apply at_index_done in H as (x & Hx & H); simplify_eq/=
  | _ => idtac
  end.

Ltac run_all H :=
  repeat (lazymatch type of H with
          | @mbind _ _ _ _ _ _ _ = Done _ => run_step H
          end);
  run_step H.

(** ** The base case of [randomly_expand] *)

Section BaseCase.
Context `{Header}.

Lemma mod_index_lt {A} (l : list A) (r : nat) :
  l ≠ [] → ∃ x, l !! (r mod length l) = Some x.
Proof.
  intros Hl. apply lookup_lt_is_Some_2, Nat.mod_upper_bound.
  by destruct l.
Qed.

(** What the base case does to a node whose values fit the table, when the
    table has candidates for them. *)
Lemma base_case_run fuel node σ t n :
  tabulator σ = Some t →
  heap σ !! node = Some n →
  length (values n) ≤ m t →
  entry_of t (encode (values n)) ≠ [] →
  ∃ e,
    entry_of t (encode (values n))
      !! (libc_rand (seed (rng σ)) (drawn (rng σ))
            mod length (entry_of t (encode (values n)))) = Some e ∧
    randomly_expand (S fuel) node σ =
      Done ((),
            with_heap (λ h,
              <[node := mkNode [] (values n) (children n ++ [e.2])]> h)
              (with_rng (mkRng (seed (rng σ)) (S (drawn (rng σ))))
                 (with_expandables (λ es, es ++ [node]) σ))).
Proof.
  intros Ht Hn Hle Hent.
  destruct (mod_index_lt _ (libc_rand (seed (rng σ)) (drawn (rng σ))) Hent)
    as [e He].
  exists e. split; [done|].
  assert (node < length (heap σ)) as Hlt by by eapply lookup_lt_Some.
  assert (length (entry_of t (encode (values n))) ≠ 0) as Hlen
    by by destruct (entry_of t (encode (values n))).
  cbn [randomly_expand].
  rewrite (bind_run _ _ _ _ _ (the_tabulator_run _ _ Ht)).
  rewrite (bind_run _ _ _ _ _ (deref_run _ _ _ Hn)).
  rewrite decide_True by done.
  erewrite bind_run by reflexivity.
  erewrite bind_run by (by apply modify_run).
  erewrite bind_run
    by (apply modify_run; cbn; by apply list_lookup_insert_eq).
  erewrite bind_run
    by (apply deref_run; cbn; rewrite list_insert_insert_eq;
        by apply list_lookup_insert_eq).
  erewrite bind_run by reflexivity.
  cbn [hidden clear_values hide_values].
  erewrite bind_run by (by apply modulo_run).
  erewrite bind_run by (by apply at_index_run).
  erewrite modify_run
    by (cbn; rewrite list_insert_insert_eq; by apply list_lookup_insert_eq).
  unfold with_heap, with_rng, with_expandables; cbn.
  by rewrite !list_insert_insert_eq.
Qed.

End BaseCase.

(** ** The distribution loop of [randomly_expand] *)

Section Distribution.
Context `{Header}.

Lemma same_solver_trans σ1 σ2 σ3 :
  same_solver σ1 σ2 → same_solver σ2 σ3 → same_solver σ1 σ3.
Proof.
  intros (?&?&?&?&?) (?&?&?&?&?). repeat split; congruence.
Qed.

Lemma place_groups_nonempty r v groups :
  Forall (λ g, g ≠ []) groups → Forall (λ g, g ≠ []) (place_groups r v groups).
Proof.
  intros Hg. unfold place_groups. apply Forall_lookup_2. intros i g Hi.
  destruct (decide (i = r mod (length groups + 1))) as [->|Hne].
  - rewrite list_lookup_alter_eq in Hi.
    destruct (_ !! _) as [g0|] eqn:E; simplify_eq/=. by destruct g0.
  - rewrite list_lookup_alter_ne in Hi by done.
    case_decide as Hd.
    + apply lookup_app_Some in Hi as [Hi|[Hlen Hi]].
      * by eapply (Forall_lookup_1 _ _ _ _ Hg).
      * apply list_lookup_singleton_Some in Hi as [Hi _]. lia.
    + by eapply (Forall_lookup_1 _ _ _ _ Hg).
Qed.

Lemma concat_alter_snoc (v : Value) (gs : list (list Value)) i :
  i < length gs → concat (alter (λ g, g ++ [v]) i gs) ≡ₚ v :: concat gs.
Proof.
  revert i. induction gs as [|g gs IH]; intros [|i] Hi; simpl in *; try lia.
  - rewrite <-app_assoc. simpl. by rewrite <-Permutation_middle.
  - trans (g ++ v :: concat gs); [|by rewrite Permutation_middle].
    apply Permutation_app_head, IH. lia.
Qed.

Lemma place_groups_concat r v groups :
  concat (place_groups r v groups) ≡ₚ v :: concat groups.
Proof.
  unfold place_groups.
  assert (r mod (length groups + 1) < length groups + 1)
    by (apply Nat.mod_upper_bound; lia).
  case_decide as Hd.
  - rewrite concat_alter_snoc by (rewrite length_app; simpl; lia).
    by rewrite concat_app, app_nil_r.
  - apply concat_alter_snoc. lia.
Qed.

Lemma dealt_length h0 node vs groups :
  length (dealt h0 node vs groups) = length h0 + length groups.
Proof. unfold dealt. by rewrite length_app, length_insert, length_fmap. Qed.

Lemma dealt_node h0 node vs groups :
  node < length h0 →
  dealt h0 node vs groups !! node =
    Some (mkNode vs [] (seq (length h0) (length groups))).
Proof.
  intros Hlt. unfold dealt.
  rewrite lookup_app_l by (by rewrite length_insert).
  by apply list_lookup_insert_eq.
Qed.

Lemma dealt_group h0 node vs groups i g :
  groups !! i = Some g → dealt h0 node vs groups !! (length h0 + i) = Some (leaf g).
Proof.
  intros Hg. unfold dealt.
  rewrite lookup_app_r by (rewrite length_insert; lia).
  rewrite length_insert. replace (length h0 + i - length h0) with i by lia.
  by rewrite list_lookup_fmap, Hg.
Qed.

Lemma dealt_old h0 node vs groups l :
  l < length h0 → l ≠ node → dealt h0 node vs groups !! l = h0 !! l.
Proof.
  intros Hlt Hne. unfold dealt.
  rewrite lookup_app_l by (by rewrite length_insert).
  by apply list_lookup_insert_ne.
Qed.

(** One pass of the loop body on such a store. *)
Lemma place_run h0 node vs groups v σ :
  node < length h0 →
  heap σ = dealt h0 node vs groups →
  place node v σ =
    Done ((),
          with_heap (λ _, dealt h0 node vs
                       (place_groups (libc_rand (seed (rng σ)) (drawn (rng σ)))
                                     v groups))
            (with_rng (mkRng (seed (rng σ)) (S (drawn (rng σ)))) σ)).
Proof.
  intros Hlt Hh. unfold place.
  set (r := libc_rand (seed (rng σ)) (drawn (rng σ))).
  set (k := length groups).
  assert (r mod (k + 1) < k + 1) as Hidx by (apply Nat.mod_upper_bound; lia).
  erewrite bind_run by reflexivity.
  erewrite bind_run
    by (apply deref_run; cbn; rewrite Hh; by apply dealt_node).
  cbn [children].
  rewrite length_seq. fold k.
  erewrite bind_run by (apply modulo_run; lia).
  fold r. unfold place_groups. fold k. fold r.
  destruct (decide (r mod (k + 1) = k)) as [Hk|Hk].
  - rewrite Hk.
    set (h1 := dealt h0 node vs (groups ++ [[]])).
    assert (∀ σ0, heap σ0 = dealt h0 node vs groups →
       (c ← N_; modify node (push_child c)) σ0
       = Done ((), with_heap (λ _, h1) σ0)) as Hnew.
    { intros σ0 Hσ0.
      erewrite bind_run by reflexivity.
      erewrite modify_run.
      2:{ cbn. rewrite Hσ0. apply lookup_app_l_Some. by apply dealt_node. }
      f_equal. f_equal. unfold with_heap; cbn. f_equal.
      rewrite Hσ0, dealt_length. fold k. unfold h1, dealt, push_child. cbn.
      rewrite length_app. cbn. fold k.
      replace (k + 1) with (S k) by lia. rewrite seq_S.
      rewrite fmap_app. cbn. rewrite <-!app_assoc.
      rewrite insert_app_l by (by rewrite length_insert).
      by rewrite list_insert_insert_eq. }
    erewrite bind_run by (apply Hnew; cbn; done).
    erewrite bind_run
      by (apply deref_run; cbn; by apply dealt_node).
    cbn [children]. rewrite length_app; cbn. fold k.
    erewrite bind_run
      by (apply at_index_run; apply lookup_seq_lt; lia).
    erewrite modify_run.
    2:{ cbn. unfold h1. apply dealt_group.
        fold k. rewrite lookup_app_r by done.
        by replace (k - length groups) with 0 by (unfold k; lia). }
    f_equal. f_equal. unfold with_heap, with_rng; cbn. f_equal.
    unfold h1, dealt. rewrite length_alter, length_app. cbn. fold k.
    rewrite insert_app_r_alt by (rewrite length_insert; lia).
    f_equal. rewrite length_insert.
    replace (length h0 + k - length h0) with k by lia.
    apply list_eq. intros i.
    destruct (decide (i = k)) as [->|Hne].
    + rewrite list_lookup_insert_eq
        by (rewrite length_fmap, length_app; cbn; unfold k; lia).
      rewrite list_lookup_fmap, list_lookup_alter_eq.
      rewrite lookup_app_r by done.
      by replace (k - length groups) with 0 by (unfold k; lia).
    + rewrite list_lookup_insert_ne by done.
      by rewrite !list_lookup_fmap, list_lookup_alter_ne by done.
  - erewrite bind_run by reflexivity.
    erewrite bind_run
      by (apply deref_run; cbn; rewrite Hh; by apply dealt_node).
    cbn [children]. fold k.
    erewrite bind_run
      by (apply at_index_run; apply lookup_seq_lt; lia).
    destruct (lookup_lt_is_Some_2 groups (r mod (k + 1))) as [g Hg];
      [unfold k in *; lia|].
    erewrite modify_run.
    2:{ cbn. rewrite Hh. by apply dealt_group. }
    f_equal. f_equal. unfold with_heap, with_rng; cbn. f_equal.
    rewrite Hh. unfold dealt. rewrite length_alter. fold k.
    rewrite insert_app_r_alt by (rewrite length_insert; lia).
    f_equal. rewrite length_insert.
    replace (length h0 + r mod (k + 1) - length h0) with (r mod (k + 1))
      by lia.
    apply list_eq. intros i.
    destruct (decide (i = r mod (k + 1))) as [->|Hne].
    + rewrite list_lookup_insert_eq by (rewrite length_fmap; unfold k in *; lia).
      by rewrite list_lookup_fmap, list_lookup_alter_eq, Hg.
    + rewrite list_lookup_insert_ne by done.
      by rewrite !list_lookup_fmap, list_lookup_alter_ne by done.
Qed.

End Distribution.

(** ** The tree [randomly_expand] builds *)

Section Construction.
Context `{Header}.

(** The loop over the values (lines 78-84) on a fresh node. *)
Lemma deal_run h0 node vs0 vs : ∀ groups σ,
  node < length h0 →
  heap σ = dealt h0 node vs0 groups →
  Forall (λ g, g ≠ []) groups →
  ∃ groups' σ',
    for_each vs (place node) σ = Done ((), σ') ∧
    heap σ' = dealt h0 node vs0 groups' ∧
    Forall (λ g, g ≠ []) groups' ∧
    concat groups' ≡ₚ concat groups ++ vs ∧
    same_solver σ σ' ∧ expandables σ' = expandables σ ∧
    (vs ≠ [] → groups' ≠ []).
Proof.
  induction vs as [|v vs IH]; intros groups σ Hlt Hh Hne.
  - exists groups, σ. rewrite app_nil_r.
    split_and!; done.
  - cbn [for_each].
    rewrite (bind_run _ _ _ _ _ (place_run _ _ _ _ v _ Hlt Hh)).
    set (groups1 := place_groups _ v groups).
    set (σ1 := with_heap _ _).
    destruct (IH groups1 σ1) as (groups' & σ' & Hrun & Hh' & Hne' & Hp & Hs & He & _);
      [done|done|by apply place_groups_nonempty|].
    exists groups', σ'. split_and!; try done.
    + rewrite Hp. unfold groups1. rewrite place_groups_concat.
      by rewrite <-Permutation_middle.
    + intros _ ->. apply Permutation_nil_l in Hp.
      apply (f_equal length) in Hp. rewrite length_app in Hp.
      assert (length (concat groups1) = 0) as Hc by (simpl in Hp; lia).
      apply length_zero_iff_nil in Hc.
      pose proof (place_groups_concat
        (libc_rand (seed (rng σ)) (drawn (rng σ))) v groups) as Hp'.
      fold groups1 in Hp'. rewrite Hc in Hp'.
      by apply Permutation_nil_cons in Hp'.
Qed.

(** A key without candidates: the modulus by [entry.size()] is by zero. *)
Lemma base_case_miss fuel node σ t n :
  tabulator σ = Some t →
  heap σ !! node = Some n →
  length (values n) ≤ m t →
  entry_of t (encode (values n)) = [] →
  randomly_expand (S fuel) node σ = Undefined ModByZero.
Proof.
  intros Ht Hn Hle Hent.
  assert (node < length (heap σ)) as Hlt by by eapply lookup_lt_Some.
  cbn [randomly_expand].
  rewrite (bind_run _ _ _ _ _ (the_tabulator_run _ _ Ht)).
  rewrite (bind_run _ _ _ _ _ (deref_run _ _ _ Hn)).
  rewrite decide_True by done.
  erewrite bind_run by reflexivity.
  erewrite bind_run by (by apply modify_run).
  erewrite bind_run
    by (apply modify_run; cbn; by apply list_lookup_insert_eq).
  erewrite bind_run
    by (apply deref_run; cbn; rewrite list_insert_insert_eq;
        by apply list_lookup_insert_eq).
  erewrite bind_run by reflexivity.
  cbn [hidden clear_values hide_values]. rewrite Hent. done.
Qed.

Lemma built_frame t h h' :
  (∀ node slots es ins, built t h node slots es ins →
     (∀ l, l ∈ es ++ ins → h' !! l = h !! l) → built t h' node slots es ins) ∧
  (∀ cs slots es ins, built_forest t h cs slots es ins →
     (∀ l, l ∈ es ++ ins → h' !! l = h !! l) →
     built_forest t h' cs slots es ins).
Proof.
  apply built_mutind.
  - intros node hd c Hn Hhd Hm Hc Hsame.
    eapply built_expandable; try done. rewrite Hsame; [done|]. simpl. left.
  - intros node cs slots es ins Hn Hcs _ IH Hsame.
    eapply built_internal; try done.
    + rewrite Hsame; [done|]. apply elem_of_app. right. left.
    + apply IH. intros l Hl. apply Hsame.
      rewrite elem_of_app, elem_of_cons. rewrite elem_of_app in Hl. tauto.
  - intros _. constructor.
  - intros c cs s1 e1 i1 s2 e2 i2 _ IH1 _ IH2 Hsame.
    constructor.
    + apply IH1. intros l Hl. apply Hsame.
      rewrite !elem_of_app. rewrite elem_of_app in Hl. tauto.
    + apply IH2. intros l Hl. apply Hsame.
      rewrite !elem_of_app. rewrite elem_of_app in Hl. tauto.
Qed.

Lemma built_expandables_nonempty t h :
  (∀ node slots es ins, built t h node slots es ins → es ≠ []) ∧
  (∀ cs slots es ins, built_forest t h cs slots es ins → cs ≠ [] → es ≠ []).
Proof.
  apply built_mutind; try done.
  - intros node cs slots es ins _ Hcs _ IH. by apply IH.
  - intros c cs s1 e1 i1 s2 e2 i2 _ IH1 _ _ _. by destruct e1.
Qed.

Lemma interleave_perm {A} (e1 e2 i1 i2 : list A) :
  (e1 ++ e2) ++ (i1 ++ i2) ≡ₚ (e1 ++ i1) ++ (e2 ++ i2).
Proof.
  rewrite <-!app_assoc. apply Permutation_app_head.
  rewrite !app_assoc. apply Permutation_app_tail, Permutation_app_comm.
Qed.

(** The loop over the children (line 86), given the statement one level
    down. *)
Lemma forest_run fuel t :
  expand_spec fuel →
  ∀ cs groups σ σ',
    tabulator σ = Some t →
    Forall2 (λ c g, heap σ !! c = Some (leaf g) ∧ g ≠ []) cs groups →
    NoDup cs →
    for_each cs (randomly_expand fuel) σ = Done ((), σ') →
    ∃ slots es ins,
      built_forest t (heap σ') cs slots es ins ∧
      slots ≡ₚ concat groups ∧
      expandables σ' = expandables σ ++ es ∧
      Forall (λ l, l ∈ cs ∨ length (heap σ) ≤ l < length (heap σ'))
             (es ++ ins) ∧
      NoDup (es ++ ins) ∧
      length (heap σ) ≤ length (heap σ') ∧
      (∀ l, l < length (heap σ) → l ∉ cs → heap σ' !! l = heap σ !! l) ∧
      same_solver σ σ'.
Proof.
  intros IHf. induction cs as [|c cs IH]; intros groups σ σ' Ht Hcs Hnd Hrun.
  - apply Forall2_nil_inv_l in Hcs as ->. apply ret_done in Hrun as [= <-].
    exists [], [], [].
    split_and!; first [done | by rewrite app_nil_r | by constructor].
  - apply Forall2_cons_inv_l in Hcs as (g & groups' & [Hc Hg] & Hcs & ->).
    cbn [for_each] in Hrun.
    apply bind_done in Hrun as ([] & σ1 & Hrun1 & Hrun).
    destruct (IHf c σ σ1 t g Ht Hc Hg Hrun1)
      as (s1 & e1 & i1 & [Hb1 Hs1 He1 Hw1 Hn1 Hgr1 Hf1 Hso1]).
    apply NoDup_cons in Hnd as [Hcn Hnd].
    assert (c < length (heap σ)) as Hclt by by eapply lookup_lt_Some.
    assert (∀ c', c' ∈ cs → c' < length (heap σ)) as Hcslt.
    { intros c' (i & Hi)%list_elem_of_lookup.
      destruct (Forall2_lookup_l _ _ _ _ _ Hcs Hi) as (g' & _ & Hg' & _).
      by eapply lookup_lt_Some. }
    destruct (IH groups' σ1 σ') as
      (s2 & e2 & i2 & Hb2 & Hs2 & He2 & Hw2 & Hn2 & Hgr2 & Hf2 & Hso2);
      [by rewrite (proj1 Hso1)| |done|done|].
    { apply Forall2_same_length_lookup_2; [by eapply Forall2_length|].
      intros i c' g' Hi Hgi.
      destruct (Forall2_lookup_l _ _ _ _ _ Hcs Hi) as (g'' & Hgi' & Hg' & Hne').
      simplify_eq. split; [|done]. rewrite Hf1; [done|by eapply lookup_lt_Some|].
      intros ->. apply Hcn. by eapply list_elem_of_lookup_2. }
    assert (∀ l, l ∈ e1 ++ i1 → l < length (heap σ1) ∧ l ∉ cs) as Hfp1.
    { intros l Hl. rewrite Forall_forall in Hw1.
      destruct (Hw1 l Hl) as [->|Hr].
      - split; [lia|done].
      - split; [lia|]. intros Hin%Hcslt. lia. }
    exists (s1 ++ s2), (e1 ++ e2), (i1 ++ i2). split_and!.
    + constructor; [|done].
      eapply (proj1 (built_frame t (heap σ1) (heap σ'))); [done|].
      intros l Hl. destruct (Hfp1 l Hl). by apply Hf2.
    + simpl. by rewrite Hs1, Hs2.
    + by rewrite He2, He1, app_assoc.
    + rewrite interleave_perm. apply Forall_app. split.
      * eapply Forall_impl; [exact Hw1|]. intros l [->|Hr]; [left; left|].
        right. lia.
      * eapply Forall_impl; [exact Hw2|]. intros l [Hin|Hr].
        -- left. by right.
        -- right. lia.
    + rewrite interleave_perm. apply NoDup_app. split_and!; [done| |done].
      intros l Hl1 Hl2. destruct (Hfp1 l Hl1) as [Hlt Hncs].
      rewrite Forall_forall in Hw2. destruct (Hw2 l Hl2) as [?|?]; [done|lia].
    + lia.
    + intros l Hlt Hnin. apply not_elem_of_cons in Hnin as [Hne Hnin].
      rewrite Hf2 by (done || lia). by apply Hf1.
    + by eapply same_solver_trans.
Qed.

Lemma dealt_nil h0 node vs :
  h0 !! node = Some (leaf vs) → dealt h0 node vs [] = h0.
Proof.
  intros Hn. unfold dealt. simpl. rewrite app_nil_r.
  by apply list_insert_id.
Qed.

(** What [randomly_expand] does on a node that [N()] made and that was
    given the values [vs]: every call that returns leaves a tree over [vs]
    behind and touches nothing else that was in the store. *)
Lemma randomly_expand_expanded fuel : expand_spec fuel.
Proof.
  induction fuel as [|fuel IHfuel]; intros node σ σ' t vs Ht Hn Hvs Hrun;
    [done|].
  assert (node < length (heap σ)) as Hlt by by eapply lookup_lt_Some.
  destruct (decide (length vs ≤ m t)) as [Hle|Hgt].
  - destruct (decide (entry_of t (encode vs) = [])) as [Hent|Hent].
    { by rewrite (base_case_miss fuel node σ t _ Ht Hn Hle Hent) in Hrun. }
    destruct (base_case_run fuel node σ t _ Ht Hn Hle Hent) as (e & He & Hrun').
    rewrite Hrun' in Hrun. injection Hrun as <-. cbn.
    exists vs, [node], []. split; cbn.
    + eapply built_expandable; try done.
      * by apply list_lookup_insert_eq.
      * apply list_elem_of_fmap. exists e. split; [done|].
        by eapply list_elem_of_lookup_2.
    + done.
    + done.
    + repeat constructor.
    + apply NoDup_singleton.
    + by rewrite length_insert.
    + intros l _ Hne. by apply list_lookup_insert_ne.
    + done.
  - cbn [randomly_expand] in Hrun.
    rewrite (bind_run _ _ _ _ _ (the_tabulator_run _ _ Ht)) in Hrun.
    rewrite (bind_run _ _ _ _ _ (deref_run _ _ _ Hn)) in Hrun.
    cbn [values leaf] in Hrun. rewrite decide_False in Hrun by done.
    destruct (deal_run (heap σ) node vs vs [] σ) as
      (groups & σ1 & Hdeal & Hh1 & Hne & Hperm & Hso1 & Hex1 & Hgne);
      [done|by rewrite dealt_nil|done|].
    rewrite (bind_run _ _ _ _ _ Hdeal) in Hrun.
    erewrite bind_run in Hrun
      by (apply modify_run; rewrite Hh1; by apply dealt_node).
    set (b := length (heap σ)) in *.
    set (k := length groups) in *.
    set (h2 := dealt (heap σ) node [] groups).
    set (σ2 := with_heap _ σ1) in Hrun.
    assert (heap σ2 = h2) as Hh2.
    { unfold σ2, h2; cbn. rewrite Hh1. unfold dealt, clear_values; cbn.
      rewrite insert_app_l by (by rewrite length_insert).
      by rewrite list_insert_insert_eq. }
    erewrite bind_run in Hrun
      by (apply deref_run; rewrite Hh2; by apply dealt_node).
    cbn [children] in Hrun. fold b k in Hrun.
    destruct (forest_run fuel t IHfuel (seq b k) groups σ2 σ') as
      (slots & es & ins & Hb & Hs & He & Hw & Hnd & Hgr & Hf & Hso2).
    + cbn. by rewrite (proj1 Hso1).
    + apply Forall2_same_length_lookup_2; [by rewrite length_seq|].
      intros i c g Hi Hg. apply lookup_seq in Hi as [-> Hi].
      split; [|by eapply (Forall_lookup_1 _ _ _ _ Hne)].
      rewrite Hh2. by apply dealt_group.
    + apply NoDup_seq.
    + done.
    + rewrite Hh2 in *. unfold h2 in Hgr, Hw, Hf.
      rewrite dealt_length in Hgr, Hw, Hf. fold b k in Hgr, Hw, Hf.
      assert (heap σ' !! node = Some (mkNode [] [] (seq b k))) as Hn'.
      { rewrite Hf; [by apply dealt_node|lia|].
        intros Hin%elem_of_seq. lia. }
      exists slots, es, (node :: ins). split.
      * eapply built_internal; try done.
        intros Hseq. apply (f_equal length) in Hseq.
        rewrite length_seq in Hseq. cbn in Hseq.
        apply Hgne; [done|]. by apply length_zero_iff_nil.
      * by rewrite Hs, Hperm.
      * by rewrite He, <-Hex1.
      * rewrite <-Permutation_middle. constructor; [by left|].
        eapply Forall_impl; [exact Hw|]. intros l [Hin%elem_of_seq|Hr].
        -- right. lia.
        -- right. lia.
      * rewrite <-Permutation_middle. apply NoDup_cons. split; [|done].
        intros Hin. rewrite Forall_forall in Hw.
        destruct (Hw _ Hin) as [Hin'%elem_of_seq|Hr]; lia.
      * lia.
      * intros l Hl Hne'. rewrite Hf.
        -- by apply dealt_old.
        -- lia.
        -- intros Hin%elem_of_seq. lia.
      * eapply same_solver_trans; [exact Hso1|].
        eapply same_solver_trans; [|exact Hso2]. done.
Qed.

End Construction.

(** ** The construction of [solve] (lines 32-38) *)

Section Solve.
Context `{Header}.

(** The loop of line 37 on the node line 36 made. *)
Lemma fill_run network vs : ∀ σ vs0,
  heap σ !! network = Some (leaf vs0) →
  ∃ σ', for_each vs (λ value, modify network (push_value value)) σ
          = Done ((), σ') ∧
        σ' = with_heap (λ h, <[network := leaf (vs0 ++ vs)]> h) σ.
Proof.
  induction vs as [|v vs IH]; intros σ vs0 Hn.
  - exists σ. split; [done|]. rewrite app_nil_r.
    destruct σ; unfold with_heap; cbn in *. f_equal.
    symmetry. by apply list_insert_id.
  - cbn [for_each]. erewrite bind_run by (by apply modify_run).
    edestruct (IH (with_heap (λ h, <[network := push_value v (leaf vs0)]> h) σ)
                 (vs0 ++ [v])) as (σ' & Hrun & ->).
    { cbn. apply list_lookup_insert_eq. by eapply lookup_lt_Some. }
    eexists. split; [exact Hrun|].
    unfold with_heap; cbn. rewrite list_insert_insert_eq.
    by rewrite <-app_assoc.
Qed.

(** The state in which [randomly_expand] is entered by [construct]. *)
Lemma construct_run fuel problem σ r :
  construct fuel problem σ = Done r →
  let g := random_shuffle (seq 0 (problem_size problem)) (rng σ) in
  let root := length (heap σ) in
  let σ0 := mkState (heap σ ++ [leaf g.1]) (tabulator σ) (best_network σ) []
                    g.2 (ticks σ) (cout σ) in
  ∃ σ', r = (root, σ') ∧ randomly_expand fuel root σ0 = Done ((), σ').
Proof.
  intros Hrun g root σ0. unfold construct in Hrun.
  do 4 (erewrite bind_run in Hrun by reflexivity).
  cbn in Hrun.
  match type of Hrun with
  | (for_each _ _ ≫= _) ?s = _ =>
      destruct (fill_run (length (heap σ)) g.1 s []) as (σ1 & Hfill & Hσ1)
  end.
  { cbn. by rewrite lookup_app_r, Nat.sub_diag by done. }
  fold g in Hrun. rewrite (bind_run _ _ _ _ _ Hfill) in Hrun.
  assert (σ1 = σ0) as ->.
  { rewrite Hσ1. unfold with_heap, σ0; cbn. f_equal.
    rewrite insert_app_r_alt, Nat.sub_diag by done. done. }
  apply bind_done in Hrun as ([] & σ' & Hexp & Hret).
  apply ret_done in Hret as ->. eauto.
Qed.

Lemma slots_of_built t h exps :
  (∀ node slots es ins, built t h node slots es ins →
     (∀ x, x ∈ es → x ∈ exps) → (∀ x, x ∈ ins → x ∉ exps) →
     ∃ d, ∀ fuel, d ≤ fuel → slots_of fuel h exps node = slots) ∧
  (∀ cs slots es ins, built_forest t h cs slots es ins →
     (∀ x, x ∈ es → x ∈ exps) → (∀ x, x ∈ ins → x ∉ exps) →
     ∃ d, ∀ fuel, d ≤ fuel → concat (slots_of fuel h exps <$> cs) = slots).
Proof.
  apply built_mutind.
  - intros node hd c Hn _ _ _ Hes _. exists 1. intros [|fuel] Hle; [lia|].
    cbn. rewrite Hn. rewrite decide_True; [done|]. apply Hes. left.
  - intros node cs slots es ins Hn _ _ IH Hes Hins.
    destruct IH as [d Hd]; [done|intros x Hx; apply Hins; by right|].
    exists (S d). intros [|fuel] Hle; [lia|].
    cbn. rewrite Hn. rewrite decide_False by (apply Hins; left).
    cbn. apply Hd. lia.
  - intros _ _. by exists 0.
  - intros c cs s1 e1 i1 s2 e2 i2 _ IH1 _ IH2 Hes Hins.
    destruct IH1 as [d1 Hd1].
    { intros x Hx. apply Hes, elem_of_app. by left. }
    { intros x Hx. apply Hins, elem_of_app. by left. }
    destruct IH2 as [d2 Hd2].
    { intros x Hx. apply Hes, elem_of_app. by right. }
    { intros x Hx. apply Hins, elem_of_app. by right. }
    exists (d1 `max` d2). intros fuel Hle. cbn.
    rewrite Hd1, Hd2 by lia. done.
Qed.

End Solve.

Section Built.
Context `{Header}.

Lemma randomly_expand_tabulator fuel node σ r :
  randomly_expand fuel node σ = Done r → ∃ t, tabulator σ = Some t.
Proof.
  destruct fuel as [|fuel]; [done|]. cbn [randomly_expand].
  intros (t & σ1 & Ht & _)%bind_done.
  apply the_tabulator_done in Ht as (t' & Ht & _). eauto.
Qed.

(** The tree [construct] returns, for at least one slot. *)
Lemma construct_built `{!ShuffleLaws} fuel problem σ root σ' :
  1 ≤ problem_size problem →
  construct fuel problem σ = Done (root, σ') →
  ∃ t slots ins,
    tabulator σ = Some t ∧
    root = length (heap σ) ∧
    built t (heap σ') root slots (expandables σ') ins ∧
    slots ≡ₚ seq 0 (problem_size problem) ∧
    NoDup (expandables σ' ++ ins) ∧
    same_solver σ σ'.
Proof.
  intros HN Hrun.
  apply construct_run in Hrun as (σ1 & [= -> <-] & Hrun).
  set (g := random_shuffle _ _) in Hrun.
  set (σ0 := mkState _ _ _ _ _ _ _) in Hrun.
  destruct (randomly_expand_tabulator _ _ _ _ Hrun) as [t Ht].
  destruct (randomly_expand_expanded fuel (length (heap σ)) σ0 σ' t g.1)
    as (slots & es & ins & [Hb Hs He Hw Hn Hgr Hf Hso]); try done.
  - cbn. by rewrite lookup_app_r, Nat.sub_diag by done.
  - intros Hnil. pose proof (shuffle_perm (seq 0 (problem_size problem)) (rng σ))
      as Hp. fold g in Hp. rewrite Hnil in Hp.
    apply Permutation_nil_l in Hp. apply (f_equal length) in Hp.
    rewrite length_seq in Hp. simpl in Hp. lia.
  - cbn in He. subst es. exists t, slots, ins. split_and!; try done.
    + rewrite Hs. apply shuffle_perm.
    + destruct Hso as (? & ? & Hseed & ? & ?). cbn in *.
      repeat split; try done. rewrite Hseed. apply shuffle_seed.
Qed.

End Built.

(** ** The shuffle of the small instance *)

Section BenchLaws.
Import Bench.

Lemma shuffle_into_perm l : ∀ acc g, (shuffle_into acc l g).1 ≡ₚ acc ++ l.
Proof.
  induction l as [|x l IH]; intros acc g; cbn.
  - by rewrite app_nil_r.
  - rewrite IH. rewrite <-app_assoc. cbn.
    rewrite <-!Permutation_middle. by rewrite app_assoc, take_drop.
Qed.

Lemma shuffle_into_seed l : ∀ acc g, seed (shuffle_into acc l g).2 = seed g.
Proof.
  induction l as [|x l IH]; intros acc g; cbn; [done|]. by rewrite IH.
Qed.

#[export] Instance bench_shuffle : ShuffleLaws.
Proof.
  split.
  - intros l g. apply shuffle_into_perm.
  - intros l g. apply shuffle_into_seed.
Qed.

End BenchLaws.

(** ** Outcomes of the driver, by rules *)

Section Triples.
Context `{Header}.

Lemma triple_bind {A B} P (c : M A) (k : A → M B) Q R E :
  triple P c Q E → (∀ a, triple (Q a) (k a) R E) → triple P (c ≫= k) R E.
Proof.
  intros Hc Hk σ HP. specialize (Hc σ HP).
  unfold mbind, M_bind, bind. destruct (c σ) as [[a σ']| | |]; try done.
  by apply Hk.
Qed.

Lemma triple_weaken {A} (P P' : State → Prop) (c : M A)
    (Q Q' : A → State → Prop) (E : Undef → Prop) :
  triple P' c Q' E → (∀ σ, P σ → P' σ) → (∀ a σ, Q' a σ → Q a σ) →
  triple P c Q E.
Proof.
  intros Hc HP HQ σ Hσ. specialize (Hc σ (HP σ Hσ)).
  destruct (c σ) as [[a σ']| | |]; try done. by apply HQ.
Qed.

Lemma triple_for_each {A} (I : State → Prop) (l : list A) body E :
  (∀ x, x ∈ l → triple I (body x) (λ _, I) E) →
  triple I (for_each l body) (λ _, I) E.
Proof.
  induction l as [|x l IH]; intros Hbody.
  - by intros σ HI.
  - cbn [for_each]. eapply triple_bind.
    + apply Hbody. left.
    + intros []. apply IH. intros y Hy. apply Hbody. by right.
Qed.

End Triples.

Section Keeping.
Context `{Header}.

Lemma triple_pure {A} (P : State → Prop) (φ : Prop) (c : M A) Q E :
  (∀ σ, P σ → φ) → (φ → triple P c Q E) → triple P c Q E.
Proof. intros Hφ Hc σ HP. by apply Hc; [eapply Hφ|]. Qed.

Lemma triple_if {A} (P : State → Prop) (b : bool) (c1 c2 : M A) Q E :
  triple P c1 Q E → triple P c2 Q E → triple P (if b then c1 else c2) Q E.
Proof. by destruct b. Qed.

Lemma triple_decide {A} (P : State → Prop) φ `{!Decision φ}
    (c1 c2 : M A) Q E :
  triple P c1 Q E → triple P c2 Q E →
  triple P (if decide φ then c1 else c2) Q E.
Proof. by case_decide. Qed.

Section Rules.
Variable I : State → Prop.
Variable E : Undef → Prop.

Lemma keeps_ret {A} (a : A) : keeps I E (mret a : M A).
Proof. by intros σ HI. Qed.

Lemma keeps_gets {A} (f : State → A) :
  triple I (gets f) (λ a σ, I σ ∧ a = f σ) E.
Proof. by intros σ HI. Qed.

Lemma keeps_update f : (∀ σ, I σ → I (f σ)) → keeps I E (update f).
Proof. intros Hf σ HI. by apply Hf. Qed.

Lemma keeps_bind {A B} (c : M A) (k : A → M B) :
  keeps I E c → (∀ a, keeps I E (k a)) → keeps I E (c ≫= k).
Proof. intros Hc Hk. eapply triple_bind; [exact Hc|exact Hk]. Qed.

Lemma keeps_for_each {A} (l : list A) body :
  (∀ x, keeps I E (body x)) → keeps I E (for_each l body).
Proof. intros Hb. apply triple_for_each. intros x _. apply Hb. Qed.

Hypothesis stable_heap : ∀ σ f, I σ → I (with_heap f σ).
Hypothesis stable_draw :
  ∀ σ k, I σ → I (with_rng (mkRng (seed (rng σ)) k) σ).

Lemma keeps_rand : keeps I E rand.
Proof using stable_draw. intros σ HI. by apply stable_draw. Qed.

Lemma keeps_N : keeps I E N_.
Proof using stable_heap. intros σ HI. by apply stable_heap. Qed.

Lemma keeps_deref p : E Dangling → keeps I E (deref p).
Proof. intros HE σ HI. unfold deref. by destruct (heap σ !! p). Qed.

Lemma keeps_modify p f : E Dangling → keeps I E (modify p f).
Proof using stable_heap.
  intros HE σ HI. unfold modify, mbind, M_bind, bind, deref.
  destruct (heap σ !! p); [|done]. by apply stable_heap.
Qed.

Lemma keeps_the_tabulator : E NullDeref → keeps I E the_tabulator.
Proof. intros HE σ HI. unfold the_tabulator. by destruct (tabulator σ). Qed.

Lemma keeps_modulo x n : (n = 0 → E ModByZero) → keeps I E (modulo x n).
Proof. intros HE σ HI. unfold modulo. case_decide; cbn; auto. Qed.

Lemma keeps_at_index {A} (v : list A) i :
  E OutOfRange → keeps I E (at_index v i).
Proof. intros HE σ HI. unfold at_index. by destruct (v !! i). Qed.

Lemma keeps_evaluate problem network : keeps I E (evaluate problem network).
Proof. by intros σ HI. Qed.

Hypothesis E_Dangling : E Dangling.
Hypothesis E_NullDeref : E NullDeref.
Hypothesis E_OutOfRange : E OutOfRange.

(** The improvement loop draws modulo the number of expandables. *)
Hypothesis modulus_ok : E ModByZero ∨ ∀ σ, I σ → expandables σ ≠ [].

Lemma keeps_substitute problem network :
  keeps I E (substitute problem network).
Proof using All.
  unfold substitute. eapply triple_bind; [apply keeps_gets|].
  intros es. cbn beta.
  apply (triple_pure _ (length es = 0 → E ModByZero)).
  { intros σ [HI ->] Hlen. destruct modulus_ok as [|Hne]; [done|].
    destruct (Hne σ HI). by apply length_zero_iff_nil. }
  intros Hmod.
  eapply triple_weaken with (P' := I) (Q' := λ _, I); [|by intros σ []|done].
  apply keeps_bind; [apply keeps_rand|intros r0].
  apply keeps_bind; [by apply keeps_modulo|intros idx_0].
  apply keeps_bind; [apply keeps_rand|intros r1].
  apply keeps_bind; [by apply keeps_modulo|intros idx_1].
  apply triple_decide.
  - apply keeps_bind; [by apply keeps_at_index|intros e].
    apply keeps_bind; [by apply keeps_modify|intros _].
    apply keeps_bind; [by apply keeps_the_tabulator|intros t].
    apply keeps_bind; [by apply keeps_deref|intros n].
    eapply triple_bind; [apply keeps_gets|intros h].
    eapply triple_weaken with (P' := I) (Q' := λ _, I); [|by intros σ []|done].
    by apply keeps_modify.
  - apply keeps_bind; [by apply keeps_at_index|intros e0].
    apply keeps_bind; [by apply keeps_at_index|intros e1].
    apply keeps_bind; [by apply keeps_modify|intros _].
    apply keeps_bind; [by apply keeps_modify|intros _].
    apply keeps_bind; [by apply keeps_the_tabulator|intros t].
    apply keeps_bind; [by apply keeps_deref|intros n0].
    apply keeps_bind; [by apply keeps_deref|intros n1].
    eapply triple_bind; [apply keeps_gets|intros h].
    eapply triple_weaken with (P' := I) (Q' := λ _, I); [|by intros σ []|done].
    apply keeps_bind; [by apply keeps_modify|intros _].
    by apply keeps_modify.
Qed.

Lemma keeps_improve_step problem network :
  keeps I E (improve_step problem network).
Proof using All.
  apply keeps_bind; [apply keeps_substitute|intros _].
  apply keeps_evaluate.
Qed.

Lemma keeps_improve_loop fuel problem network : ∀ best_cost,
  keeps I E (improve_loop fuel problem network best_cost).
Proof using All.
  induction fuel as [|fuel IH]; intros best_cost; [by intros σ HI|].
  cbn [improve_loop].
  apply keeps_bind; [apply keeps_improve_step|intros cost].
  apply triple_if; [apply keeps_ret|].
  apply keeps_bind; [apply IH|intros rest]. apply keeps_ret.
Qed.

Lemma keeps_iteratively_improve fuel problem network :
  keeps I E (iteratively_improve fuel problem network).
Proof using All.
  apply keeps_bind; [apply keeps_evaluate|intros best_cost].
  apply keeps_bind; [apply keeps_improve_loop|intros rest]. apply keeps_ret.
Qed.

End Rules.
End Keeping.

Section KeepingAll.
Context `{Header}.
Variable I : State → Prop.

Abbreviation any := (λ _ : Undef, True).

Hypothesis stable_heap : ∀ σ f, I σ → I (with_heap f σ).
Hypothesis stable_draw :
  ∀ σ k, I σ → I (with_rng (mkRng (seed (rng σ)) k) σ).
Hypothesis stable_expandables : ∀ σ f, I σ → I (with_expandables f σ).
Hypothesis stable_shuffle :
  ∀ σ l, I σ → I (with_rng (random_shuffle l (rng σ)).2 σ).
Hypothesis stable_best : ∀ σ b, I σ → I (with_best_network b σ).
Hypothesis stable_ticks : ∀ σ k, I σ → I (with_ticks k σ).
Hypothesis stable_cout : ∀ σ f, I σ → I (with_cout f σ).

Lemma keeps_place node v : keeps I any (place node v).
Proof using stable_heap stable_draw.
  unfold place.
  apply keeps_bind; [by apply keeps_rand|intros r].
  apply keeps_bind; [by apply keeps_deref|intros n].
  apply keeps_bind; [by apply keeps_modulo|intros idx].
  apply keeps_bind.
  { apply triple_decide; [|apply keeps_ret].
    apply keeps_bind; [by apply keeps_N|intros c]. by apply keeps_modify. }
  intros _.
  apply keeps_bind; [by apply keeps_deref|intros n'].
  apply keeps_bind; [by apply keeps_at_index|intros child].
  by apply keeps_modify.
Qed.

Lemma keeps_randomly_expand fuel : ∀ node,
  keeps I any (randomly_expand fuel node).
Proof using stable_heap stable_draw stable_expandables.
  induction fuel as [|fuel IH]; intros node; [by intros σ HI|].
  cbn [randomly_expand].
  apply keeps_bind; [by apply keeps_the_tabulator|intros t].
  apply keeps_bind; [by apply keeps_deref|intros n].
  apply triple_decide.
  - apply keeps_bind; [apply keeps_update; auto|intros _].
    apply keeps_bind; [by apply keeps_modify|intros _].
    apply keeps_bind; [by apply keeps_modify|intros _].
    apply keeps_bind; [by apply keeps_deref|intros n1].
    apply keeps_bind; [by apply keeps_rand|intros r].
    apply keeps_bind; [by apply keeps_modulo|intros idx].
    apply keeps_bind; [by apply keeps_at_index|intros e].
    by apply keeps_modify.
  - apply keeps_bind; [|intros _].
    { apply keeps_for_each. intros v. apply keeps_place. }
    apply keeps_bind; [by apply keeps_modify|intros _].
    apply keeps_bind; [by apply keeps_deref|intros n1].
    apply keeps_for_each. intros c. apply IH.
Qed.

Lemma keeps_construct fuel problem : keeps I any (construct fuel problem).
Proof using stable_heap stable_draw stable_expandables stable_shuffle.
  unfold construct.
  apply keeps_bind; [apply keeps_update; auto|intros _].
  eapply triple_bind; [apply keeps_gets|intros g].
  eapply triple_bind with (Q := λ _, I).
  { intros σ [HI ->]. cbn. by apply stable_shuffle. }
  intros _.
  apply keeps_bind; [by apply keeps_N|intros network].
  apply keeps_bind; [|intros _].
  { apply keeps_for_each. intros v. by apply keeps_modify. }
  apply keeps_bind; [apply keeps_randomly_expand|intros _].
  apply keeps_ret.
Qed.

Lemma keeps_now : keeps I any now.
Proof using stable_ticks.
  unfold now.
  eapply triple_bind; [apply keeps_gets|intros k].
  eapply triple_weaken with (P' := I) (Q' := λ _, I); [|by intros σ []|done].
  apply keeps_bind; [apply keeps_update; auto|intros _]. apply keeps_ret.
Qed.

Lemma keeps_attempt fuel problem : keeps I any (attempt fuel problem).
Proof using stable_heap stable_draw stable_expandables stable_shuffle.
  unfold attempt.
  apply keeps_bind; [apply keeps_construct|intros network].
  apply keeps_bind; [|intros _].
  { apply keeps_iteratively_improve; auto. }
  apply keeps_bind; [apply keeps_evaluate|intros cost].
  apply keeps_ret.
Qed.

Lemma keeps_record_best problem start best_cost network cost :
  keeps I any (record_best problem start best_cost network cost).
Proof using stable_heap stable_best stable_ticks stable_cout.
  unfold record_best.
  eapply triple_bind; [apply keeps_gets|intros best].
  eapply triple_weaken with (P' := I) (Q' := λ _, I); [|by intros σ []|done].
  apply triple_if; [|apply keeps_ret].
  apply keeps_bind; [apply keeps_update; auto|intros _].
  eapply triple_bind; [apply keeps_gets|intros h].
  eapply triple_weaken with (P' := I) (Q' := λ _, I); [|by intros σ []|done].
  apply keeps_bind; [apply keeps_update; auto|intros _].
  apply keeps_bind; [apply keeps_update; auto|intros _].
  apply keeps_bind; [apply keeps_now|intros end_].
  apply keeps_bind; [apply keeps_update; auto|intros _].
  apply keeps_ret.
Qed.

Lemma keeps_restart fuel problem start best_cost :
  keeps I any (restart fuel problem start best_cost).
Proof using All.
  unfold restart.
  apply keeps_bind; [apply keeps_attempt|intros nc].
  apply keeps_record_best.
Qed.

Lemma keeps_solve_loop fuel problem start rounds : ∀ best_cost,
  keeps I any (solve_loop rounds fuel problem start best_cost).
Proof using All.
  induction rounds as [|rounds IH]; intros best_cost; [apply keeps_ret|].
  cbn [solve_loop].
  apply keeps_bind; [apply keeps_restart|intros b]. apply IH.
Qed.

Hypothesis stable_tabulator : ∀ σ t, I σ → I (with_tabulator t σ).

Lemma keeps_solve rounds fuel problem : keeps I any (solve rounds fuel problem).
Proof using All.
  unfold solve.
  apply keeps_bind; [apply keeps_now|intros start].
  apply keeps_bind; [apply keeps_update; auto|intros _].
  eapply triple_bind; [apply keeps_gets|intros tab].
  eapply triple_weaken with (P' := I) (Q' := λ _, I); [|by intros σ []|done].
  apply keeps_bind; [|intros _; apply keeps_solve_loop].
  destruct tab as [t|]; [|apply keeps_ret].
  eapply triple_bind; [apply keeps_gets|intros h].
  eapply triple_weaken with (P' := I) (Q' := λ _, I); [|by intros σ []|done].
  apply keeps_bind; [apply keeps_update; auto|intros _].
  apply keeps_update; auto.
Qed.

End KeepingAll.

(** ** Every call of [randomly_expand] registers an expandable *)

Section Registers.
Context `{Header}.

Lemma place_child node v σ σ' :
  place node v σ = Done ((), σ') →
  expandables σ' = expandables σ ∧
  ∃ n, heap σ' !! node = Some n ∧ children n ≠ [].
Proof.
  unfold place. intros Hrun.
  apply bind_done in Hrun as (r & σ1 & Hr & Hrun). run_step Hr.
  apply bind_done in Hrun as (n & σ2 & Hn & Hrun). run_step Hn.
  apply bind_done in Hrun as (idx & σ2 & Hidx & Hrun). run_step Hidx.
  apply bind_done in Hrun as ([] & σ2 & Hnew & Hrun).
  assert (expandables σ2 = expandables σ) as Hex.
  { case_decide; run_all Hnew; done. }
  apply bind_done in Hrun as (n' & σ3 & Hn' & Hrun). run_step Hn'.
  apply bind_done in Hrun as (child & σ3 & Hc & Hrun). run_step Hc.
  run_step Hrun. split; [done|].
  assert (children n ≠ []) as Hne by (intros Hnil; by rewrite Hnil in Hx).
  destruct (decide (x = node)) as [->|Hneq].
  - exists (push_value v n1). split; [|by simplify_eq].
    apply list_lookup_insert_eq. by eapply lookup_lt_Some.
  - exists n. split; [|done]. by rewrite list_lookup_insert_ne.
Qed.

Lemma deal_child node vs : ∀ σ σ',
  for_each vs (place node) σ = Done ((), σ') →
  expandables σ' = expandables σ ∧
  (vs ≠ [] ∨ (∃ n, heap σ !! node = Some n ∧ children n ≠ []) →
   ∃ n, heap σ' !! node = Some n ∧ children n ≠ []).
Proof.
  induction vs as [|v vs IH]; intros σ σ' Hrun.
  - apply ret_done in Hrun as [= <-]. split; [done|]. by intros [|].
  - cbn [for_each] in Hrun.
    apply bind_done in Hrun as ([] & σ1 & Hp & Hrun).
    apply place_child in Hp as (Hex1 & Hchild).
    apply IH in Hrun as (Hex & Hrest).
    split; [congruence|]. intros _. apply Hrest. by right.
Qed.

(** A loop of calls that each register something, over at least one
    element. *)
Lemma for_each_registers {A} (body : A → M unit) (l : list A) :
  (∀ x σ σ', body x σ = Done ((), σ') →
     ∃ es, es ≠ [] ∧ expandables σ' = expandables σ ++ es) →
  l ≠ [] →
  ∀ σ σ', for_each l body σ = Done ((), σ') →
    ∃ es, es ≠ [] ∧ expandables σ' = expandables σ ++ es.
Proof.
  intros Hbody. induction l as [|x l IH]; intros Hl σ σ' Hrun; [done|].
  cbn [for_each] in Hrun.
  apply bind_done in Hrun as ([] & σ1 & Hx & Hrun).
  apply Hbody in Hx as (es1 & Hne1 & Hex1).
  destruct l as [|y l].
  - apply ret_done in Hrun as [= <-]. eauto.
  - apply IH in Hrun as (es2 & _ & Hex2); [|done].
    exists (es1 ++ es2). split; [by destruct es1|].
    by rewrite Hex2, Hex1, app_assoc.
Qed.

(** Whatever the node holds, a call that returns has registered at least
    one expandable. *)
Lemma randomly_expand_registers fuel : ∀ node σ σ',
  randomly_expand fuel node σ = Done ((), σ') →
  ∃ es, es ≠ [] ∧ expandables σ' = expandables σ ++ es.
Proof.
  induction fuel as [|fuel IH]; intros node σ σ' Hrun; [done|].
  cbn [randomly_expand] in Hrun.
  apply bind_done in Hrun as (t & σ1 & Ht & Hrun). run_step Ht.
  apply bind_done in Hrun as (n & σ1 & Hn & Hrun). run_step Hn.
  case_decide as Hle.
  - run_all Hrun. by exists [node].
  - apply bind_done in Hrun as ([] & σ1 & Hdeal & Hrun).
    apply deal_child in Hdeal as (Hex1 & Hchild).
    destruct Hchild as (n1 & Hn1 & Hc1).
    { left. intros Hnil. rewrite Hnil in Hle. simpl in Hle. lia. }
    apply bind_done in Hrun as ([] & σ2 & Hclear & Hrun). run_step Hclear.
    apply bind_done in Hrun as (n2 & σ3 & Hn2 & Hrun). run_step Hn2.
    match goal with
    | Hl : <[_:=_]> _ !! _ = Some _ |- _ =>
        rewrite list_lookup_insert_eq in Hl by (by eapply lookup_lt_Some);
        injection Hl as <-
    end.
    eapply for_each_registers in Hrun as (es & Hne & Hex); [|exact IH|done].
    exists es. split; [done|]. cbn in Hex. by rewrite Hex, Hex1.
Qed.

End Registers.

(** ** Expandables of a built tree *)

Section Expandables.
Context `{Header}.

Lemma built_expandable_ok t h :
  (∀ node slots es ins, built t h node slots es ins →
     Forall (expandable_ok t h) es) ∧
  (∀ cs slots es ins, built_forest t h cs slots es ins →
     Forall (expandable_ok t h) es).
Proof.
  apply built_mutind.
  - intros node hd c Hn Hhd Hm Hc. repeat constructor. by exists hd, c.
  - done.
  - constructor.
  - intros c cs s1 e1 i1 s2 e2 i2 _ IH1 _ IH2. by apply Forall_app.
Qed.

Lemma construct_expandables `{!ShuffleLaws} fuel problem σ root σ' :
  1 ≤ problem_size problem →
  construct fuel problem σ = Done (root, σ') →
  ∃ t, tabulator σ' = Some t ∧
       Forall (expandable_ok t (heap σ')) (expandables σ') ∧
       NoDup (expandables σ') ∧ expandables σ' ≠ [].
Proof.
  intros HN Hrun.
  destruct (construct_built _ _ _ _ _ HN Hrun)
    as (t & slots & ins & Ht & -> & Hb & Hs & Hnd & Hso).
  exists t. split_and!.
  - by rewrite (proj1 Hso).
  - by eapply (proj1 (built_expandable_ok t (heap σ'))).
  - by apply NoDup_app in Hnd as (? & _).
  - by eapply (proj1 (built_expandables_nonempty t (heap σ'))).
Qed.

(** The state in which [solve] calls [iteratively_improve]: each expandable
    holds a candidate of the table, and no expandable is registered twice. *)
Lemma construct_selected `{!ShuffleLaws} fuel problem σ root σ' :
  1 ≤ problem_size problem →
  construct fuel problem σ = Done (root, σ') →
  ∃ t, tabulator σ' = Some t ∧ NoDup (expandables σ') ∧
       expandables σ' ≠ [] ∧
       Forall (selected t (heap σ')) (expandables σ').
Proof.
  intros HN Hrun.
  destruct (construct_expandables _ _ _ _ _ HN Hrun)
    as (t & Ht & Hok & Hnd & Hne).
  exists t. split_and!; try done.
  eapply Forall_impl; [exact Hok|].
  intros e (hd & c & He & _ & _ & Hc). by exists (mkNode [] hd [c]), c.
Qed.

End Expandables.

(** ** The improvement loop *)

Section Substitution.
Context `{Header}.

Lemma insert_as_alter (h : Heap) p f n :
  h !! p = Some n → <[p := f n]> h = alter f p h.
Proof.
  intros Hn. rewrite list_insert_alter. apply list_alter_ext; [|done].
  intros x Hx. congruence.
Qed.

Lemma modify_alter p f σ :
  is_Some (heap σ !! p) →
  modify p f σ = Done ((), with_heap (alter f p) σ).
Proof.
  intros [n Hn]. rewrite (modify_run _ _ _ _ Hn).
  unfold with_heap. by rewrite (insert_as_alter _ _ _ _ Hn).
Qed.

Lemma lookup_alter_is_Some (h : Heap) f p q :
  is_Some (h !! q) → is_Some (alter f p h !! q).
Proof.
  intros Hq. apply lookup_lt_is_Some. rewrite length_alter.
  by apply lookup_lt_is_Some.
Qed.

(** The substitution on a state whose expandables are in the store. *)
Lemma substitute_run problem network σ t :
  tabulator σ = Some t →
  expandables σ ≠ [] →
  Forall (λ e, is_Some (heap σ !! e)) (expandables σ) →
  let es := expandables σ in
  let i0 := libc_rand (seed (rng σ)) (drawn (rng σ)) mod length es in
  let i1 := libc_rand (seed (rng σ)) (S (drawn (rng σ))) mod length es in
  ∃ e0 e1,
    es !! i0 = Some e0 ∧ es !! i1 = Some e1 ∧
    substitute problem network σ =
      Done ((),
            with_heap (λ h,
              if decide (i0 = i1) then substituted_one t problem network h e0
              else substituted_two t problem network h e0 e1)
              (with_rng (mkRng (seed (rng σ)) (S (S (drawn (rng σ))))) σ)).
Proof.
  intros Ht Hne Hin es i0 i1.
  assert (length es ≠ 0) as Hlen by (by intros Hl%length_zero_iff_nil).
  destruct (lookup_lt_is_Some_2 es i0) as [e0 He0];
    [by apply Nat.mod_upper_bound|].
  destruct (lookup_lt_is_Some_2 es i1) as [e1 He1];
    [by apply Nat.mod_upper_bound|].
  pose proof (Forall_lookup_1 _ _ _ _ Hin He0) as Hs0.
  pose proof (Forall_lookup_1 _ _ _ _ Hin He1) as Hs1.
  exists e0, e1. split_and!; [done..|].
  unfold substitute.
  erewrite bind_run by reflexivity.
  erewrite bind_run by reflexivity.
  erewrite bind_run by (by apply modulo_run).
  erewrite bind_run by reflexivity.
  erewrite bind_run by (by apply modulo_run).
  cbn [rng with_rng seed drawn]. fold es i0 i1.
  destruct (decide (i0 = i1)) as [Heq|Hneq].
  - erewrite bind_run by (by apply at_index_run).
    erewrite bind_run by (by apply modify_alter).
    erewrite bind_run by (by apply the_tabulator_run).
    destruct (lookup_alter_is_Some (heap σ) clear_children e0 e0 Hs0)
      as [n Hn].
    erewrite bind_run by (by apply deref_run).
    erewrite bind_run by reflexivity.
    erewrite modify_alter by (cbn; eauto).
    unfold substituted_one, attach, hidden_at, with_heap, with_rng; cbn.
    by rewrite Hn.
  - erewrite bind_run by (by apply at_index_run).
    erewrite bind_run by (by apply at_index_run).
    erewrite bind_run by (by apply modify_alter).
    erewrite bind_run
      by (apply modify_alter; cbn; by apply lookup_alter_is_Some).
    erewrite bind_run by (by apply the_tabulator_run).
    set (h2 := alter clear_children e1 (alter clear_children e0 (heap σ))).
    destruct (lookup_alter_is_Some _ clear_children e1 e0
                (lookup_alter_is_Some _ clear_children e0 e0 Hs0)) as [n0 Hn0].
    destruct (lookup_alter_is_Some _ clear_children e1 e1
                (lookup_alter_is_Some _ clear_children e0 e1 Hs1)) as [n1 Hn1].
    erewrite bind_run by (by apply deref_run).
    erewrite bind_run by (by apply deref_run).
    erewrite bind_run by reflexivity.
    erewrite bind_run by (apply modify_alter; cbn; eauto).
    erewrite modify_alter
      by (cbn; apply lookup_alter_is_Some; eauto).
    unfold substituted_two, attach, hidden_at, with_heap, with_rng; cbn.
    unfold h2 in *. by rewrite Hn0, Hn1.
Qed.

End Substitution.

(** ** Substitutions keep the tree among finitely many *)

Section Variants.
Context `{Header}.

Lemma hidden_at_alter (h : Heap) f e l :
  (∀ n, hidden (f n) = hidden n) →
  hidden_at (alter f e h) l = hidden_at h l.
Proof.
  intros Hf. unfold hidden_at. destruct (decide (e = l)) as [->|Hne].
  - rewrite list_lookup_alter_eq. destruct (h !! l); cbn; auto.
  - by rewrite list_lookup_alter_ne.
Qed.

Lemma set_child_set_child c c' (h : Heap) e :
  alter (set_child c) e (alter (set_child c') e h) = alter (set_child c) e h.
Proof. rewrite list_alter_alter_eq. by apply list_alter_ext. Qed.

Lemma push_after_clear c (h : Heap) e :
  alter (push_child c) e (alter clear_children e h) = alter (set_child c) e h.
Proof. rewrite list_alter_alter_eq. by apply list_alter_ext. Qed.

Lemma set_child_same (h : Heap) e n c :
  h !! e = Some n → children n = [c] → alter (set_child c) e h = h.
Proof.
  intros Hn Hc. rewrite <-(list_alter_id id h e) at 2 by done.
  apply list_alter_ext; [|done]. intros x Hx.
  assert (x = n) as -> by congruence.
  destruct n as [vs hd cs]; cbn in *. by subst.
Qed.

Lemma substituted_one_alter t problem network (h : Heap) e :
  substituted_one t problem network h e =
  alter (set_child
           (binary_search t problem (alter clear_children e h) network e
                          (hidden_at h e))) e h.
Proof.
  unfold substituted_one, attach.
  by rewrite push_after_clear, hidden_at_alter.
Qed.

Lemma substituted_two_alter t problem network (h : Heap) e0 e1 :
  e0 ≠ e1 →
  substituted_two t problem network h e0 e1 =
  let r := linear_search t problem
             (alter clear_children e1 (alter clear_children e0 h))
             network e0 e1 (hidden_at h e0) (hidden_at h e1) in
  alter (set_child r.2) e1 (alter (set_child r.1) e0 h).
Proof.
  intros Hne. unfold substituted_two, attach. cbn zeta.
  rewrite !hidden_at_alter by done.
  rewrite (list_alter_alter_ne (push_child _) clear_children _ e0 e1) by done.
  by rewrite !push_after_clear.
Qed.

Lemma variants_hidden t es (h : Heap) : ∀ h',
  h' ∈ variants t es h →
  length h' = length h ∧ ∀ l, hidden_at h' l = hidden_at h l.
Proof.
  induction es as [|e es IH]; intros h' Hin; cbn in Hin.
  - apply list_elem_of_singleton in Hin as ->. done.
  - apply list_elem_of_bind in Hin as (h'' & Hin & Hh'').
    apply list_elem_of_bind in Hin as (c & Hin & Hc).
    apply list_elem_of_singleton in Hin as ->.
    destruct (IH _ Hh'') as [Hlen Hhid]. split.
    + by rewrite length_alter.
    + intros l. by rewrite hidden_at_alter.
Qed.

Lemma variants_start t es (h : Heap) :
  Forall (selected t h) es → h ∈ variants t es h.
Proof.
  induction es as [|e es IH]; intros Hsel; cbn.
  - by apply list_elem_of_singleton.
  - apply Forall_cons in Hsel as [(n & c & Hn & Hc & Hin) Hsel].
    apply list_elem_of_bind. exists h. split; [|by apply IH].
    apply list_elem_of_bind. exists c. split.
    + apply list_elem_of_singleton. symmetry. by eapply set_child_same.
    + unfold hidden_at. by rewrite Hn.
Qed.

Lemma variants_step t es (h : Heap) : ∀ h' e c,
  NoDup es → h' ∈ variants t es h → e ∈ es →
  c ∈ candidates t (hidden_at h e) →
  alter (set_child c) e h' ∈ variants t es h.
Proof.
  induction es as [|e0 es IH]; intros h' e c Hnd Hin He Hc; [by inversion He|].
  apply NoDup_cons in Hnd as [Hn0 Hnd]. cbn in Hin |- *.
  apply list_elem_of_bind in Hin as (h'' & Hin & Hh'').
  apply list_elem_of_bind in Hin as (c0 & Hin & Hc0).
  apply list_elem_of_singleton in Hin as ->.
  apply elem_of_cons in He as [->|He].
  - rewrite set_child_set_child.
    apply list_elem_of_bind. exists h''. split; [|done].
    apply list_elem_of_bind. exists c. split; [|done].
    by apply list_elem_of_singleton.
  - assert (e ≠ e0) as Hne by (by intros ->).
    rewrite list_alter_alter_ne by done.
    apply list_elem_of_bind. exists (alter (set_child c) e h''). split.
    + apply list_elem_of_bind. exists c0. split; [|done].
      by apply list_elem_of_singleton.
    + by apply IH.
Qed.

Lemma selected_alter t (h : Heap) e c e' :
  c ∈ candidates t (hidden_at h e) →
  selected t h e' → selected t (alter (set_child c) e h) e'.
Proof.
  intros Hc (n & c' & Hn & Hch & Hin).
  destruct (decide (e = e')) as [->|Hne].
  - exists (set_child c n), c. rewrite list_lookup_alter_eq, Hn. cbn.
    split_and!; [done..|]. unfold hidden_at in Hc. by rewrite Hn in Hc.
  - exists n, c'. by rewrite list_lookup_alter_ne.
Qed.

End Variants.

Section Loop.
Context `{Header}.

Lemma loop_inv_start t σ :
  tabulator σ = Some t →
  Forall (selected t (heap σ)) (expandables σ) →
  loop_inv t (expandables σ) (heap σ) σ.
Proof. intros Ht Hsel. split_and!; try done. by apply variants_start. Qed.

Lemma substitute_inv `{!SearchContract} t es h0 problem network σ :
  NoDup es → es ≠ [] → loop_inv t es h0 σ →
  ∃ σ', substitute problem network σ = Done ((), σ') ∧
        loop_inv t es h0 σ' ∧
        (evaluate_cost problem (heap σ') network
         <= evaluate_cost problem (heap σ) network)%Q.
Proof.
  intros Hnd Hne (Ht & Hes & Hvar & Hsel).
  destruct (substitute_run problem network σ t) as (e0 & e1 & He0 & He1 & Hrun);
    [done|by rewrite Hes| |].
  { rewrite Hes. eapply Forall_impl; [exact Hsel|].
    intros e (n & c & Hn & _). eauto. }
  rewrite Hes in He0, He1, Hrun.
  set (h := heap σ) in *.
  destruct (variants_hidden _ _ _ _ Hvar) as [_ Hhid].
  pose proof (Forall_lookup_1 _ _ _ _ Hsel He0) as (n0 & c0 & Hn0 & Hc0 & Hin0).
  pose proof (Forall_lookup_1 _ _ _ _ Hsel He1) as (n1 & c1 & Hn1 & Hc1 & Hin1).
  assert (hidden_at h e0 = hidden n0) as Hh0
    by (unfold hidden_at; by rewrite Hn0).
  assert (hidden_at h e1 = hidden n1) as Hh1
    by (unfold hidden_at; by rewrite Hn1).
  case_decide as Hi.
  - eexists. split; [exact Hrun|]. unfold loop_inv.
    cbn [heap with_heap with_rng tabulator expandables]. fold h.
    rewrite substituted_one_alter, Hh0.
    set (h1 := alter clear_children e0 h).
    destruct (binary_search_best t problem h1 network e0 (clear_children n0))
      as [Hr Hbest]; [|done| |].
    { unfold h1. by rewrite list_lookup_alter_eq, Hn0. }
    { cbn. intros Hnil. rewrite Hnil in Hin0. by inversion Hin0. }
    cbn [hidden clear_children] in Hr, Hbest.
    set (r := binary_search _ _ _ _ _ _) in *.
    split; [split_and!; try done|].
    + apply variants_step; try done.
      * by eapply list_elem_of_lookup_2.
      * by rewrite <-Hhid, Hh0.
    + eapply Forall_impl; [exact Hsel|]. intros e Hsele.
      apply selected_alter; [by rewrite Hh0|done].
    + specialize (Hbest c0 Hin0). unfold attach, h1 in Hbest.
      rewrite !push_after_clear in Hbest.
      by rewrite (set_child_same h e0 n0 c0) in Hbest.
  - assert (e0 ≠ e1) as Hne01.
    { intros ->. apply Hi. by eapply NoDup_lookup. }
    eexists. split; [exact Hrun|]. unfold loop_inv.
    cbn [heap with_heap with_rng tabulator expandables]. fold h.
    rewrite substituted_two_alter by done. cbn zeta. rewrite Hh0, Hh1.
    set (h2 := alter clear_children e1 (alter clear_children e0 h)).
    destruct (linear_search_best t problem h2 network e0 e1
                (clear_children n0) (clear_children n1))
      as (Hr0 & Hr1 & Hbest); [done| | |done|done| | |].
    { unfold h2. rewrite list_lookup_alter_ne, list_lookup_alter_eq by done.
      by rewrite Hn0. }
    { unfold h2. rewrite list_lookup_alter_eq, list_lookup_alter_ne by done.
      by rewrite Hn1. }
    { cbn. intros Hnil. rewrite Hnil in Hin0. by inversion Hin0. }
    { cbn. intros Hnil. rewrite Hnil in Hin1. by inversion Hin1. }
    cbn [hidden clear_children] in Hr0, Hr1, Hbest.
    set (r := linear_search _ _ _ _ _ _ _ _) in *.
    assert (hidden_at (alter (set_child r.1) e0 h) e1 = hidden n1) as Hh1'
      by (by rewrite hidden_at_alter).
    split; [split_and!; try done|].
    + apply variants_step; try done.
      * apply variants_step; try done.
        -- by eapply list_elem_of_lookup_2.
        -- by rewrite <-Hhid, Hh0.
      * by eapply list_elem_of_lookup_2.
      * by rewrite <-Hhid, Hh1.
    + eapply Forall_impl; [exact Hsel|]. intros e Hsele.
      apply selected_alter; [by rewrite Hh1'|].
      apply selected_alter; [by rewrite Hh0|done].
    + specialize (Hbest c0 c1 Hin0 Hin1). unfold attach, h2 in Hbest.
      rewrite !(list_alter_alter_ne (push_child _) clear_children _ e0 e1)
        in Hbest by done.
      rewrite !push_after_clear in Hbest.
      rewrite (set_child_same h e0 n0 c0) in Hbest by done.
      by rewrite (set_child_same h e1 n1 c1) in Hbest.
Qed.

End Loop.

(** ** The costs [iteratively_improve] evaluates *)

Section Trace.
Context `{Header}.

Lemma improve_step_run problem network σ σ' :
  substitute problem network σ = Done ((), σ') →
  improve_step problem network σ =
    Done (evaluate_cost problem (heap σ') network, σ').
Proof. intros Hs. unfold improve_step. by rewrite (bind_run _ _ _ _ _ Hs). Qed.

Lemma improve_step_done problem network σ cost σ' :
  improve_step problem network σ = Done (cost, σ') →
  substitute problem network σ = Done ((), σ') ∧
  cost = evaluate_cost problem (heap σ') network.
Proof.
  unfold improve_step. intros ([] & σ1 & Hs & He)%bind_done.
  unfold evaluate in He. run_all He. done.
Qed.

(** The loop as a sequence of substitutions, whatever the searches return. *)
Lemma improve_loop_shape problem network fuel : ∀ σ best_cost costs σ',
  improve_loop fuel problem network best_cost σ = Done (costs, σ') →
  ∃ k, length costs = S k ∧
       substitutions (S k) problem network σ = Done ((), σ') ∧
       (∀ i c, costs !! i = Some c →
          ∃ σi, substitutions (S i) problem network σ = Done ((), σi) ∧
                c = evaluate_cost problem (heap σi) network) ∧
       descent best_cost costs.
Proof.
  induction fuel as [|fuel IH]; intros σ best_cost costs σ' Hrun; [done|].
  cbn [improve_loop] in Hrun.
  apply bind_done in Hrun as (cost & σ1 & Hstep & Hrun).
  apply improve_step_done in Hstep as [Hsub ->].
  set (cost := evaluate_cost problem (heap σ1) network) in *.
  assert (substitutions 1 problem network σ = Done ((), σ1)) as Hone.
  { cbn [substitutions]. by rewrite (bind_run _ _ _ _ _ Hsub). }
  destruct (Qle_bool best_cost cost) eqn:Hle.
  - apply ret_done in Hrun as [= -> ->]. exists 0. split_and!; try done.
    + intros [|i] c Hc; [|done]. injection Hc as <-. eauto.
    + constructor. by apply Qle_bool_iff.
  - apply bind_done in Hrun as (rest & σ2 & Hrest & Hrun).
    apply ret_done in Hrun as [= -> ->].
    destruct (IH _ _ _ _ Hrest) as (k & Hlen & Hsubs & Hcosts & Hdesc).
    exists (S k). split_and!.
    + simpl. by rewrite Hlen.
    + change (substitutions (S (S k)) problem network)
        with (substitute problem network ;; substitutions (S k) problem network).
      by rewrite (bind_run _ _ _ _ _ Hsub).
    + intros [|i] c Hc.
      * injection Hc as <-. eauto.
      * destruct (Hcosts i c Hc) as (σi & Hi & ->). exists σi. split; [|done].
        change (substitutions (S (S i)) problem network)
          with (substitute problem network ;;
                substitutions (S i) problem network).
        by rewrite (bind_run _ _ _ _ _ Hsub).
    + constructor; [|done]. apply Qnot_le_lt. intros Hq%Qle_bool_iff.
      congruence.
Qed.

Lemma descent_lookup b costs :
  descent b costs →
  ∀ i x y, (b :: costs) !! i = Some x → (b :: costs) !! S i = Some y →
    (S (S i) < length (b :: costs) → (y < x)%Q) ∧
    (S (S i) = length (b :: costs) → (x <= y)%Q).
Proof.
  induction 1 as [b c Hle|b c rest Hlt Hd IH]; intros i x y Hx Hy.
  - destruct i as [|[|i]]; simplify_eq/=. split; [lia|done].
  - destruct i as [|i].
    + simplify_eq/=. split; [done|].
      inversion Hd; simplify_eq/=; lia.
    + destruct (IH i x y Hx Hy) as [IH1 IH2]. simpl in *.
      split; intros ?; [apply IH1|apply IH2]; lia.
Qed.

Lemma sinks_lookup b costs :
  sinks b costs →
  ∀ i x y, (b :: costs) !! i = Some x → (b :: costs) !! S i = Some y →
    (y <= x)%Q.
Proof.
  induction 1 as [b|b c rest Hle Hs IH]; intros i x y Hx Hy.
  - by destruct i.
  - destruct i as [|i]; [by simplify_eq/=|]. by apply (IH i).
Qed.

(** The cost before the last is the least of those seen before it. *)
Lemma descent_least b costs :
  descent b costs →
  ∃ pre prev last,
    b :: costs = pre ++ [prev; last] ∧ (prev <= last)%Q ∧
    Forall (λ c, (prev < c)%Q) pre ∧ (prev <= b)%Q.
Proof.
  induction 1 as [b c Hle|b c rest Hlt Hd IH].
  - exists [], b, c. split_and!; try done. apply Qle_refl.
  - destruct IH as (pre & prev & last & Heq & Hpl & Hpre & Hpc).
    exists (b :: pre), prev, last. rewrite Heq. split_and!; try done.
    + constructor; [|done]. by eapply Qle_lt_trans.
    + apply Qlt_le_weak. by eapply Qle_lt_trans.
Qed.

End Trace.

Section Termination.
Context `{Header}.

Lemma better_shrinks t es h0 problem network (h1 : Heap) c0 :
  h1 ∈ variants t es h0 →
  (evaluate_cost problem h1 network < c0)%Q →
  length (better t es h0 problem network (evaluate_cost problem h1 network))
  < length (better t es h0 problem network c0).
Proof.
  intros Hin Hlt. unfold better.
  set (c1 := evaluate_cost problem h1 network) in *.
  rewrite <-(list_filter_filter_l
    (λ h, (evaluate_cost problem h network < c1)%Q)
    (λ h, (evaluate_cost problem h network < c0)%Q)).
  - apply length_filter_lt with h1.
    + by apply list_elem_of_filter.
    + apply Qlt_irrefl.
  - intros h Hh. by eapply Qlt_trans.
Qed.

(** With searches that keep their contract the loop ends, and no cost it
    evaluates is above the one before. *)
Lemma improve_loop_total `{!SearchContract} t es h0 problem network fuel :
  NoDup es → es ≠ [] →
  ∀ σ,
    loop_inv t es h0 σ →
    length (better t es h0 problem network
              (evaluate_cost problem (heap σ) network)) < fuel →
    ∃ costs σ',
      improve_loop fuel problem network
        (evaluate_cost problem (heap σ) network) σ = Done (costs, σ') ∧
      sinks (evaluate_cost problem (heap σ) network) costs.
Proof.
  intros Hnd Hne. induction fuel as [|fuel IH]; intros σ Hinv Hfuel; [lia|].
  destruct (substitute_inv t es h0 problem network σ Hnd Hne Hinv)
    as (σ1 & Hsub & Hinv1 & Hle).
  cbn [improve_loop].
  rewrite (bind_run _ _ _ _ _ (improve_step_run _ _ _ _ Hsub)).
  destruct (Qle_bool _ _) eqn:Hstop.
  - eexists _, _. split; [done|]. by repeat constructor.
  - assert (evaluate_cost problem (heap σ1) network
            < evaluate_cost problem (heap σ) network)%Q as Hlt.
    { apply Qnot_le_lt. intros Hq%Qle_bool_iff. congruence. }
    destruct (IH σ1 Hinv1) as (rest & σ' & Hrest & Hsinks).
    { destruct Hinv1 as (_ & _ & Hvar & _).
      pose proof (better_shrinks t es h0 problem network _ _ Hvar Hlt). lia. }
    rewrite (bind_run _ _ _ _ _ Hrest).
    eexists _, _. split; [done|]. by constructor.
Qed.

(** [iteratively_improve] returns only after a second evaluation. *)
Lemma iteratively_improve_length fuel problem network σ costs σ' :
  iteratively_improve fuel problem network σ = Done (costs, σ') →
  2 ≤ length costs.
Proof.
  unfold iteratively_improve. intros (b0 & σ0 & _ & Hrun)%bind_done.
  apply bind_done in Hrun as (rest & σ1 & Hloop & Hret).
  apply ret_done in Hret as [= -> ->].
  destruct (improve_loop_shape _ _ _ _ _ _ _ Hloop) as (k & Hlen & _).
  simpl. lia.
Qed.

End Termination.

(** ** The searches of the small instance keep the contract *)

Section BenchSearch.
Import Bench.

Lemma min_by_spec {A} (f : A → Ratio) (l : list A) (d : A) :
  l ≠ [] →
  min_by f l d ∈ l ∧ ∀ x, x ∈ l → (f (min_by f l d) <= f x)%Q.
Proof.
  induction l as [|x l IH]; intros Hl; [done|].
  destruct l as [|y l].
  - cbn. split; [left|]. intros z ->%list_elem_of_singleton. apply Qle_refl.
  - destruct IH as [Hin Hmin]; [done|].
    change (min_by f (x :: y :: l) d)
      with (if Qle_bool (f x) (f (min_by f (y :: l) d)) then x
            else min_by f (y :: l) d).
    destruct (Qle_bool _ _) eqn:Hle.
    + split; [left|]. intros z [->|Hz]%elem_of_cons; [apply Qle_refl|].
      apply Qle_bool_iff in Hle. eapply Qle_trans; [exact Hle|by apply Hmin].
    + split; [by right|]. intros z [->|Hz]%elem_of_cons; [|by apply Hmin].
      apply Qlt_le_weak, Qnot_le_lt. intros Hq%Qle_bool_iff. congruence.
Qed.

#[export] Instance bench_search : SearchContract.
Proof.
  split.
  - intros t problem h network e n Hn Hc Hne.
    apply (min_by_spec
      (λ c, cost_of problem (attach h e c) network)
      (candidates t (hidden n)) 0 Hne).
  - intros t problem h network e0 e1 n0 n1 Hne Hn0 Hn1 Hc0 Hc1 Hne0 Hne1 r.
    set (pairs := c0 ← candidates t (hidden n0);
                  c1 ← candidates t (hidden n1); [(c0, c1)]).
    assert (∀ c0 c1, (c0, c1) ∈ pairs ↔
              c0 ∈ candidates t (hidden n0) ∧ c1 ∈ candidates t (hidden n1))
      as Hpairs.
    { intros c0 c1. unfold pairs. rewrite list_elem_of_bind. split.
      - intros (x & (y & [= -> ->]%list_elem_of_singleton & Hy)%list_elem_of_bind
                & Hx). done.
      - intros [Hx Hy]. exists c0. split; [|done].
        apply list_elem_of_bind. exists c1. split; [|done].
        by apply list_elem_of_singleton. }
    assert (pairs ≠ []) as Hpne.
    { assert (∃ c0, c0 ∈ candidates t (hidden n0)) as [c0 Hx0].
      { destruct (candidates t (hidden n0)) as [|c0 ?]; [done|].
        exists c0. left. }
      assert (∃ c1, c1 ∈ candidates t (hidden n1)) as [c1 Hx1].
      { destruct (candidates t (hidden n1)) as [|c1 ?]; [done|].
        exists c1. left. }
      intros Hnil. assert ((c0, c1) ∈ pairs) as Hin by (by apply Hpairs).
      rewrite Hnil in Hin. by inversion Hin. }
    destruct (min_by_spec
      (λ c, cost_of problem (attach (attach h e0 c.1) e1 c.2) network)
      pairs (0, 0) Hpne) as [Hin Hmin].
    change (min_by _ pairs (0, 0)) with r in Hin, Hmin.
    destruct r as [r0 r1] eqn:Hr. apply Hpairs in Hin as [Hr0 Hr1].
    split_and!; [done..|].
    intros c0 c1 Hin0 Hin1. apply (Hmin (c0, c1)). by apply Hpairs.
Qed.

End BenchSearch.

(** ** The best record *)

Section BestRecord.
Context `{Header}.

Lemma record_best_run problem start best_cost network cost σ :
  record_best problem start best_cost network cost σ =
  if bool_decide (best_network σ = None) || Qgt_bool best_cost cost then
    Done (cost,
          mkState (clone (heap σ) network).1 (tabulator σ)
                  (Some (clone (heap σ) network).2) (expandables σ) (rng σ)
                  (S (ticks σ))
                  (cout σ ++ [report_of problem start network cost σ]))
  else Done (best_cost, σ).
Proof.
  unfold record_best.
  erewrite bind_run by reflexivity.
  by destruct (bool_decide (best_network σ = None) || Qgt_bool best_cost cost).
Qed.

Lemma Qgt_bool_true a b : Qgt_bool a b = true ↔ (b < a)%Q.
Proof.
  unfold Qgt_bool. rewrite negb_true_iff. split.
  - intros Hle. apply Qnot_le_lt. intros Hq%Qle_bool_iff. congruence.
  - intros Hlt. destruct (Qle_bool a b) eqn:Hle; [|done].
    apply Qle_bool_iff in Hle. by apply Qle_not_lt in Hle.
Qed.

Lemma attempt_best_network fuel problem σ r σ' :
  attempt fuel problem σ = Done (r, σ') → best_network σ' = best_network σ.
Proof.
  intros Hrun.
  pose proof (keeps_attempt (λ σ0, best_network σ0 = best_network σ)) as Hk.
  specialize (Hk (λ _ _ Hb, Hb) (λ _ _ Hb, Hb) (λ _ _ Hb, Hb) (λ _ _ Hb, Hb)).
  specialize (Hk fuel problem σ eq_refl). by rewrite Hrun in Hk.
Qed.

Lemma restart_best fuel problem start best_cost σ b' σ' :
  restart fuel problem start best_cost σ = Done (b', σ') →
  best_network σ' ≠ None ∧ (best_network σ ≠ None → (b' <= best_cost)%Q).
Proof.
  unfold restart. intros ([network cost] & σ1 & Hatt & Hrec)%bind_done.
  apply attempt_best_network in Hatt as Hb.
  rewrite record_best_run in Hrec. cbn [fst snd] in Hrec.
  destruct (bool_decide (best_network σ1 = None)) eqn:Hnone; cbn in Hrec.
  - injection Hrec as <- <-. split; [done|].
    apply bool_decide_eq_true in Hnone. congruence.
  - apply bool_decide_eq_false in Hnone.
    destruct (Qgt_bool best_cost cost) eqn:Hgt; injection Hrec as <- <-.
    + split; [done|]. intros _. by apply Qlt_le_weak, Qgt_bool_true.
    + split; [done|]. intros _. apply Qle_refl.
Qed.

End BestRecord.

(** ** Two runs that differ in the clock *)

Section Blind.
Context `{Header}.


Lemma blind_ret {A} (a : A) : blind (mret a : M A).
Proof. done. Qed.

Lemma blind_bind {A B} (c : M A) (k : A → M B) :
  blind c → (∀ a, blind (k a)) → blind (c ≫= k).
Proof.
  intros Hc Hk o σ. unfold mbind, M_bind, bind. rewrite Hc.
  destruct (c σ) as [[a σ']| | |]; cbn; try done. apply Hk.
Qed.


Lemma blind_update f :
  (∀ o σ, f (with_cout (λ _, o) σ) = with_cout (λ _, o) (f σ)) →
  blind (update f).
Proof. intros Hf o σ. unfold update. cbn. by rewrite Hf. Qed.

Lemma blind_rand : blind rand.
Proof. done. Qed.

Lemma blind_N : blind N_.
Proof. done. Qed.

Lemma blind_deref p : blind (deref p).
Proof. intros o σ. unfold deref. cbn. by destruct (heap σ !! p). Qed.

Lemma blind_modify p f : blind (modify p f).
Proof.
  apply blind_bind; [apply blind_deref|]. intros n. by apply blind_update.
Qed.

Lemma blind_the_tabulator : blind the_tabulator.
Proof. intros o σ. unfold the_tabulator. cbn. by destruct (tabulator σ). Qed.

Lemma blind_modulo x n : blind (modulo x n).
Proof. intros o σ. unfold modulo. by case_decide. Qed.

Lemma blind_at_index {A} (v : list A) i : blind (at_index v i).
Proof. intros o σ. unfold at_index. by destruct (v !! i). Qed.

Lemma blind_out_of_fuel {A} : blind (out_of_fuel : M A).
Proof. done. Qed.




End Blind.

Create HintDb blind.
#[export] Hint Resolve blind_ret blind_rand blind_N blind_deref blind_modify
  blind_the_tabulator blind_modulo blind_at_index blind_out_of_fuel : blind.


Section BlindDriver.
Context `{Header}.




End BlindDriver.

Section Reproducible.
Context `{Header}.
Variables clk1 clk2 : nat → Z.






Lemma main_loop rounds fuel n t :
  main rounds fuel n t =
  solve_loop rounds fuel (mkProblem n) (steady_clock 0) 0%Q (loop_entry n t).
Proof. unfold main, loop_entry. by destruct (decide (t = 0)). Qed.


End Reproducible.

#[export] Instance with_clock_shuffle `{Header} `{!ShuffleLaws} clk :
  @ShuffleLaws (with_clock H clk).
Proof. split; [apply (@shuffle_perm H _)|apply (@shuffle_seed H _)]. Qed.

(** ** The position of the generator *)

Section Draws.
Context `{Header}.

(** One substitution draws twice. *)
Lemma substitute_draws problem network σ σ' :
  substitute problem network σ = Done ((), σ') →
  rng σ' = mkRng (seed (rng σ)) (2 + drawn (rng σ)).
Proof.
  unfold substitute. intros Hrun.
  do 5 (apply bind_done in Hrun as (? & ? & Hr & Hrun); run_step Hr).
  case_decide; run_all Hrun; done.
Qed.

Lemma substitutions_draws problem network k : ∀ σ σ',
  substitutions k problem network σ = Done ((), σ') →
  rng σ' = mkRng (seed (rng σ)) (2 * k + drawn (rng σ)).
Proof.
  induction k as [|k IH]; intros σ σ' Hrun.
  - apply ret_done in Hrun as [= ->]. by destruct (rng σ).
  - cbn [substitutions] in Hrun.
    apply bind_done in Hrun as ([] & σ1 & Hsub & Hrun).
    apply substitute_draws in Hsub. apply IH in Hrun.
    rewrite Hrun, Hsub. cbn. f_equal. lia.
Qed.

End Draws.

Section DrawsOn.
Context `{Header}.

Lemma draws_on_ret {A} (a : A) : draws_on (mret a : M A).
Proof.
  intros σ a' σ' [= _ ->]%ret_done. exists 0.
  rewrite Nat.add_0_r. by destruct (rng σ).
Qed.

Lemma draws_on_bind {A B} (c : M A) (k : A → M B) :
  draws_on c → (∀ a, draws_on (k a)) → draws_on (c ≫= k).
Proof.
  intros Hc Hk σ b σ' (a & σ1 & Hc1 & Hk1)%bind_done.
  destruct (Hc _ _ _ Hc1) as [j1 Hj1]. destruct (Hk _ _ _ _ Hk1) as [j2 Hj2].
  exists (j1 + j2). rewrite Hj2, Hj1. cbn. f_equal; lia.
Qed.

Lemma draws_on_still {A} (c : M A) :
  (∀ σ a σ', c σ = Done (a, σ') → rng σ' = rng σ) → draws_on c.
Proof.
  intros Hc σ a σ' Hrun. exists 0. rewrite (Hc _ _ _ Hrun), Nat.add_0_r.
  by destruct (rng σ).
Qed.

Lemma draws_on_gets {A} (f : State → A) : draws_on (gets f).
Proof. apply draws_on_still. by intros σ a σ' [= _ ->]%gets_done. Qed.

Lemma draws_on_update f : (∀ σ, rng (f σ) = rng σ) → draws_on (update f).
Proof.
  intros Hf. apply draws_on_still. intros σ a σ' [= _ ->]%update_done.
  apply Hf.
Qed.

Lemma draws_on_rand : draws_on rand.
Proof.
  intros σ a σ' [= _ ->]%rand_done. exists 1. cbn. f_equal; lia.
Qed.

Lemma draws_on_N : draws_on N_.
Proof. apply draws_on_still. by intros σ a σ' [= _ ->]%N_done. Qed.

Lemma draws_on_deref p : draws_on (deref p).
Proof.
  apply draws_on_still. intros σ a σ' (n & _ & [= _ ->])%deref_done. done.
Qed.

Lemma draws_on_modify p f : draws_on (modify p f).
Proof.
  apply draws_on_still. intros σ a σ' (n & _ & [= _ ->])%modify_done. done.
Qed.

Lemma draws_on_the_tabulator : draws_on the_tabulator.
Proof.
  apply draws_on_still.
  intros σ a σ' (t & _ & [= _ ->])%the_tabulator_done. done.
Qed.

Lemma draws_on_modulo x n : draws_on (modulo x n).
Proof.
  apply draws_on_still. intros σ a σ' (_ & [= _ ->])%modulo_done. done.
Qed.

Lemma draws_on_at_index {A} (v : list A) i : draws_on (at_index v i).
Proof.
  apply draws_on_still. intros σ a σ' (x & _ & [= _ ->])%at_index_done. done.
Qed.

Lemma draws_on_for_each {A} (l : list A) body :
  (∀ x, draws_on (body x)) → draws_on (for_each l body).
Proof.
  intros Hb. induction l as [|x l IH]; [apply (draws_on_ret ())|].
  cbn [for_each]. apply draws_on_bind; [apply Hb|intros _; apply IH].
Qed.

Lemma draws_on_place node v : draws_on (place node v).
Proof.
  unfold place.
  apply draws_on_bind; [apply draws_on_rand|intros r].
  apply draws_on_bind; [apply draws_on_deref|intros n].
  apply draws_on_bind; [apply draws_on_modulo|intros idx].
  apply draws_on_bind; [|intros _].
  { case_decide; [|apply (draws_on_ret ())].
    apply draws_on_bind; [apply draws_on_N|intros c]. apply draws_on_modify. }
  apply draws_on_bind; [apply draws_on_deref|intros n'].
  apply draws_on_bind; [apply draws_on_at_index|intros child].
  apply draws_on_modify.
Qed.

Lemma draws_on_randomly_expand fuel : ∀ node,
  draws_on (randomly_expand fuel node).
Proof.
  induction fuel as [|fuel IH]; intros node; [by intros σ a σ' ?|].
  cbn [randomly_expand].
  apply draws_on_bind; [apply draws_on_the_tabulator|intros t].
  apply draws_on_bind; [apply draws_on_deref|intros n].
  case_decide.
  - apply draws_on_bind; [by apply draws_on_update|intros _].
    apply draws_on_bind; [apply draws_on_modify|intros _].
    apply draws_on_bind; [apply draws_on_modify|intros _].
    apply draws_on_bind; [apply draws_on_deref|intros n1].
    apply draws_on_bind; [apply draws_on_rand|intros r].
    apply draws_on_bind; [apply draws_on_modulo|intros idx].
    apply draws_on_bind; [apply draws_on_at_index|intros e].
    apply draws_on_modify.
  - apply draws_on_bind;
      [apply draws_on_for_each; intros v; apply draws_on_place|intros _].
    apply draws_on_bind; [apply draws_on_modify|intros _].
    apply draws_on_bind; [apply draws_on_deref|intros n1].
    apply draws_on_for_each. apply IH.
Qed.

(** One restart on the generator: the shuffle is handed the generator the
    restart found, and from what the shuffle leaves the restart draws at
    least twice and never seeds. *)
Lemma attempt_draws fuel problem σ r σ' :
  attempt fuel problem σ = Done (r, σ') →
  ∃ j, 2 ≤ j ∧
    rng σ' =
      mkRng (seed (random_shuffle (seq 0 (problem_size problem)) (rng σ)).2)
            (drawn (random_shuffle (seq 0 (problem_size problem)) (rng σ)).2
             + j).
Proof.
  unfold attempt. intros (root & σ1 & Hcon & Hrun)%bind_done.
  set (g := (random_shuffle (seq 0 (problem_size problem)) (rng σ)).2).
  apply bind_done in Hrun as (costs & σ2 & Himp & Hrun).
  apply bind_done in Hrun as (c & σ3 & Hev & Hret).
  unfold evaluate in Hev. erewrite bind_run in Hev by reflexivity.
  apply ret_done in Hev as [= -> ->].
  apply ret_done in Hret as [= -> ->].
  apply construct_run in Hcon as (σ1' & [= -> <-] & Hexp).
  destruct (draws_on_randomly_expand _ _ _ _ _ Hexp) as [j1 Hj1].
  cbn in Hj1. fold g in Hj1.
  unfold iteratively_improve in Himp.
  apply bind_done in Himp as (b0 & σ0 & Hev & Himp).
  unfold evaluate in Hev. erewrite bind_run in Hev by reflexivity.
  apply ret_done in Hev as [= -> ->].
  apply bind_done in Himp as (rest & σ4 & Hloop & Hret).
  apply ret_done in Hret as [= -> ->].
  destruct (improve_loop_shape _ _ _ _ _ _ _ Hloop) as (k & _ & Hsub & _).
  apply substitutions_draws in Hsub.
  exists (j1 + 2 * S k). split; [lia|].
  rewrite Hsub, Hj1. cbn. f_equal; lia.
Qed.

Lemma restart_draws fuel problem start b σ b' σ' :
  restart fuel problem start b σ = Done (b', σ') →
  ∃ j, 2 ≤ j ∧
    rng σ' =
      mkRng (seed (random_shuffle (seq 0 (problem_size problem)) (rng σ)).2)
            (drawn (random_shuffle (seq 0 (problem_size problem)) (rng σ)).2
             + j).
Proof.
  unfold restart. intros ([network cost] & σ1 & Hatt & Hrec)%bind_done.
  destruct (attempt_draws _ _ _ _ _ Hatt) as (j & Hj & Hrng).
  exists j. split; [done|]. rewrite <-Hrng.
  rewrite record_best_run in Hrec.
  by destruct (_ || _); injection Hrec as <- <-.
Qed.


(** With a shuffle that does not rewind the generator, every pass of the
    loop of [solve] moves the position forward by two or more. *)
Lemma solve_loop_draws fuel problem start rounds :
  (∀ l g, drawn g ≤ drawn (random_shuffle l g).2) →
  ∀ b σ b' σ',
    solve_loop rounds fuel problem start b σ = Done (b', σ') →
    drawn (rng σ) + 2 * rounds ≤ drawn (rng σ').
Proof.
  intros Hsh. induction rounds as [|rounds IH]; intros b σ b' σ' Hrun.
  - apply ret_done in Hrun as [= _ <-]. lia.
  - cbn [solve_loop] in Hrun.
    apply bind_done in Hrun as (b1 & σ1 & Hre & Hrun).
    apply restart_draws in Hre as (j & Hj & Hrng).
    apply IH in Hrun. rewrite Hrng in Hrun. cbn in Hrun.
    pose proof (Hsh (seq 0 (problem_size problem)) (rng σ)). lia.
Qed.

End DrawsOn.

Section BenchDraws.
Import Bench.

(** The shuffle of the small instance draws once per element. *)
Lemma shuffle_into_drawn l : ∀ acc g,
  drawn (shuffle_into acc l g).2 = drawn g + length l.
Proof.
  induction l as [|x l IH]; intros acc g; simpl; [lia|].
  rewrite IH. simpl. lia.
Qed.

Lemma shuffle_advances l g :
  drawn g ≤ drawn (random_shuffle (Header := Bench.header) l g).2.
Proof. cbn. unfold shuffle. rewrite shuffle_into_drawn. lia. Qed.

End BenchDraws.

(** ** One pass of the improvement loop *)

Section Passes.
Context `{Header}.

(** The substitution, from the two expandables it draws. *)
Lemma substitute_run_at problem network σ t e0 e1 :
  tabulator σ = Some t →
  let es := expandables σ in
  let i0 := libc_rand (seed (rng σ)) (drawn (rng σ)) mod length es in
  let i1 := libc_rand (seed (rng σ)) (S (drawn (rng σ))) mod length es in
  es !! i0 = Some e0 → es !! i1 = Some e1 →
  is_Some (heap σ !! e0) → is_Some (heap σ !! e1) →
  substitute problem network σ =
    Done ((),
          with_heap (λ h,
            if decide (i0 = i1) then substituted_one t problem network h e0
            else substituted_two t problem network h e0 e1)
            (with_rng (mkRng (seed (rng σ)) (S (S (drawn (rng σ))))) σ)).
Proof.
  intros Ht es i0 i1 He0 He1 Hs0 Hs1.
  assert (length es ≠ 0) as Hlen.
  { intros Hl%length_zero_iff_nil. by rewrite Hl in He0. }
  unfold substitute.
  erewrite bind_run by reflexivity.
  erewrite bind_run by reflexivity.
  erewrite bind_run by (by apply modulo_run).
  erewrite bind_run by reflexivity.
  erewrite bind_run by (by apply modulo_run).
  cbn [rng with_rng seed drawn]. fold es i0 i1.
  destruct (decide (i0 = i1)) as [Heq|Hneq].
  - erewrite bind_run by (by apply at_index_run).
    erewrite bind_run by (by apply modify_alter).
    erewrite bind_run by (by apply the_tabulator_run).
    destruct (lookup_alter_is_Some (heap σ) clear_children e0 e0 Hs0)
      as [n Hn].
    erewrite bind_run by (by apply deref_run).
    erewrite bind_run by reflexivity.
    erewrite modify_alter by (cbn; eauto).
    unfold substituted_one, attach, hidden_at, with_heap, with_rng; cbn.
    by rewrite Hn.
  - erewrite bind_run by (by apply at_index_run).
    erewrite bind_run by (by apply at_index_run).
    erewrite bind_run by (by apply modify_alter).
    erewrite bind_run
      by (apply modify_alter; cbn; by apply lookup_alter_is_Some).
    erewrite bind_run by (by apply the_tabulator_run).
    set (h2 := alter clear_children e1 (alter clear_children e0 (heap σ))).
    destruct (lookup_alter_is_Some _ clear_children e1 e0
                (lookup_alter_is_Some _ clear_children e0 e0 Hs0)) as [n0 Hn0].
    destruct (lookup_alter_is_Some _ clear_children e1 e1
                (lookup_alter_is_Some _ clear_children e0 e1 Hs1)) as [n1 Hn1].
    erewrite bind_run by (by apply deref_run).
    erewrite bind_run by (by apply deref_run).
    erewrite bind_run by reflexivity.
    erewrite bind_run by (apply modify_alter; cbn; eauto).
    erewrite modify_alter
      by (cbn; apply lookup_alter_is_Some; eauto).
    unfold substituted_two, attach, hidden_at, with_heap, with_rng; cbn.
    unfold h2 in *. by rewrite Hn0, Hn1.
Qed.

(** What a substitution that returns has drawn and found. *)
Lemma substitute_drawn problem network σ σ' :
  substitute problem network σ = Done ((), σ') →
  ∃ t e0 e1,
    tabulator σ = Some t ∧
    expandables σ !! (libc_rand (seed (rng σ)) (drawn (rng σ))
                      mod length (expandables σ)) = Some e0 ∧
    expandables σ !! (libc_rand (seed (rng σ)) (S (drawn (rng σ)))
                      mod length (expandables σ)) = Some e1 ∧
    is_Some (heap σ !! e0) ∧ is_Some (heap σ !! e1).
Proof.
  unfold substitute. intros Hrun.
  do 5 (apply bind_done in Hrun as (? & ? & Hr & Hrun); run_step Hr).
  case_decide as Hd.
  - run_all Hrun.
    match goal with
    | Hx : expandables _ !! _ = Some ?x, Ht : tabulator _ = Some ?t |- _ =>
        exists t, x, x; rewrite <-Hd; split_and!; eauto
    end.
  - do 3 (apply bind_done in Hrun as (? & ? & Hr & Hrun); run_step Hr).
    match goal with
    | Hx : expandables _ !! (libc_rand _ (drawn _) mod _) = Some ?x,
      Hy : expandables _ !! (libc_rand _ (S (drawn _)) mod _) = Some ?y,
      Hn : heap _ !! ?x = Some _ |- _ =>
        apply bind_done in Hrun as (? & ? & Hr & Hrun); run_step Hr;
        apply bind_done in Hrun as (? & ? & Hr & Hrun); run_step Hr;
        match goal with
        | Ht : tabulator _ = Some ?t |- _ =>
            exists t, x, y; split_and!; eauto
        end
    end.
    match goal with
    | Hl : <[_:=_]> _ !! ?y = Some _ |- is_Some (_ !! ?y) =>
        apply lookup_lt_Some in Hl; rewrite length_insert in Hl;
        by apply lookup_lt_is_Some_2
    end.
Qed.

(** One pass of the loop on the store: the children of the drawn
    expandable(s) are cleared and the subnetwork(s) the search returns are
    pushed (lines 95-99 and 101-109). *)
Lemma substitute_done problem network σ σ' :
  substitute problem network σ = Done ((), σ') →
  ∃ t e0 e1,
    tabulator σ = Some t ∧
    expandables σ !! (libc_rand (seed (rng σ)) (drawn (rng σ))
                      mod length (expandables σ)) = Some e0 ∧
    expandables σ !! (libc_rand (seed (rng σ)) (S (drawn (rng σ)))
                      mod length (expandables σ)) = Some e1 ∧
    σ' = with_heap (λ h,
           if decide (libc_rand (seed (rng σ)) (drawn (rng σ))
                        mod length (expandables σ)
                      = libc_rand (seed (rng σ)) (S (drawn (rng σ)))
                        mod length (expandables σ))
           then substituted_one t problem network h e0
           else substituted_two t problem network h e0 e1)
           (with_rng (mkRng (seed (rng σ)) (S (S (drawn (rng σ))))) σ).
Proof.
  intros Hrun.
  destruct (substitute_drawn _ _ _ _ Hrun)
    as (t & e0 & e1 & Ht & He0 & He1 & Hs0 & Hs1).
  rewrite (substitute_run_at problem network σ t e0 e1 Ht He0 He1 Hs0 Hs1)
    in Hrun.
  injection Hrun as <-. by exists t, e0, e1.
Qed.

(** [k + 1] substitutions are [k] substitutions and one more. *)
Lemma substitutions_last problem network k : ∀ σ σ',
  substitutions (S k) problem network σ = Done ((), σ') ↔
  ∃ σk, substitutions k problem network σ = Done ((), σk) ∧
        substitute problem network σk = Done ((), σ').
Proof.
  induction k as [|k IH]; intros σ σ'.
  - cbn [substitutions]. split.
    + intros ([] & σ1 & Hs & [= ->]%ret_done)%bind_done. by exists σ.
    + intros (σk & [= ->]%ret_done & Hs). by rewrite (bind_run _ _ _ _ _ Hs).
  - change (substitutions (S (S k)) problem network σ)
      with ((substitute problem network ≫=
               λ _, substitutions (S k) problem network) σ).
    split.
    + intros ([] & σ1 & Hs & Hrest)%bind_done.
      apply IH in Hrest as (σk & Hk & Hlast).
      exists σk. split; [|done]. cbn [substitutions].
      by rewrite (bind_run _ _ _ _ _ Hs).
    + intros (σk & Hk & Hlast). cbn [substitutions] in Hk.
      apply bind_done in Hk as ([] & σ1 & Hs & Hk).
      rewrite (bind_run _ _ _ _ _ Hs). apply IH. eauto.
Qed.

(** A run of substitutions passes through every shorter one. *)
Lemma substitutions_prefix problem network k : ∀ σ σ' i,
  substitutions k problem network σ = Done ((), σ') → i ≤ k →
  ∃ σi, substitutions i problem network σ = Done ((), σi).
Proof.
  induction k as [|k IH]; intros σ σ' i Hrun Hi.
  - replace i with 0 by lia. eauto.
  - destruct (decide (i = S k)) as [->|Hne]; [eauto|].
    apply substitutions_last in Hrun as (σk & Hk & _).
    eapply IH; [exact Hk|lia].
Qed.

End Passes.

(** ** A generator that always draws 0 *)

Section Stuck.
Context `{Header}.
Hypothesis zero : ∀ s k, libc_rand s k = 0.

Lemma bind_out_of_fuel {A B} (c : M A) (k : A → M B) σ :
  c σ = OutOfFuel → (c ≫= k) σ = OutOfFuel.
Proof. intros Hc. unfold mbind, M_bind, bind. by rewrite Hc. Qed.

(** With every draw 0, each value after the first joins the first child. *)
Lemma deal_stuck h0 node vs0 vs : ∀ g σ,
  node < length h0 →
  heap σ = dealt h0 node vs0 [g] →
  ∃ σ', for_each vs (place node) σ = Done ((), σ') ∧
        heap σ' = dealt h0 node vs0 [g ++ vs] ∧
        tabulator σ' = tabulator σ.
Proof using zero.
  induction vs as [|v vs IH]; intros g σ Hlt Hh.
  - exists σ. by rewrite app_nil_r.
  - cbn [for_each].
    rewrite (bind_run _ _ _ _ _ (place_run _ _ _ _ v _ Hlt Hh)).
    rewrite zero.
    destruct (IH (g ++ [v]) (with_heap (λ _, dealt h0 node vs0
                (place_groups 0 v [g]))
                (with_rng (mkRng (seed (rng σ)) (S (drawn (rng σ)))) σ)))
      as (σ' & Hrun & Hh' & Ht); [done|done|].
    exists σ'. rewrite <-app_assoc in Hh'. done.
Qed.

(** Then a node with more values than the arity is expanded without
    end. *)
Lemma randomly_expand_stuck t fuel : ∀ node σ vs,
  tabulator σ = Some t →
  heap σ !! node = Some (leaf vs) →
  m t < length vs →
  randomly_expand fuel node σ = OutOfFuel.
Proof using zero.
  induction fuel as [|fuel IH]; intros node σ vs Ht Hn Hm; [done|].
  assert (node < length (heap σ)) as Hlt by by eapply lookup_lt_Some.
  destruct vs as [|v vs]; [cbn in Hm; lia|].
  cbn [randomly_expand].
  rewrite (bind_run _ _ _ _ _ (the_tabulator_run _ _ Ht)).
  rewrite (bind_run _ _ _ _ _ (deref_run _ _ _ Hn)).
  rewrite decide_False by (cbn in *; lia).
  cbn [values leaf for_each].
  pose proof (place_run (heap σ) node (v :: vs) [] v σ Hlt) as Hfirst.
  rewrite dealt_nil in Hfirst by done. specialize (Hfirst eq_refl).
  rewrite zero in Hfirst.
  destruct (deal_stuck (heap σ) node (v :: vs) vs [v]
              (with_heap (λ _, dealt (heap σ) node (v :: vs)
                                 (place_groups 0 v []))
                 (with_rng (mkRng (seed (rng σ)) (S (drawn (rng σ)))) σ)))
    as (σ1 & Hrest & Hh1 & Ht1); [done|done|].
  cbn [app] in Hh1.
  assert ((place node v ≫= λ _, for_each vs (place node)) σ = Done ((), σ1))
    as Hdeal by (by rewrite (bind_run _ _ _ _ _ Hfirst)).
  rewrite (bind_run _ _ _ _ _ Hdeal).
  erewrite bind_run
    by (apply modify_run; rewrite Hh1; by apply dealt_node).
  erewrite bind_run
    by (apply deref_run; cbn; apply list_lookup_insert_eq;
        rewrite Hh1, dealt_length; lia).
  cbn [clear_values children seq length for_each].
  apply bind_out_of_fuel.
  apply (IH _ _ (v :: vs)); [cbn; by rewrite Ht1| |done].
  cbn. rewrite list_lookup_insert_ne by lia. rewrite Hh1.
  pose proof (dealt_group (heap σ) node (v :: vs) [v :: vs] 0 (v :: vs) eq_refl)
    as Hg.
  by rewrite Nat.add_0_r in Hg.
Qed.

End Stuck.

(** * The claims *)

Section C1.
Context `{Header}.

(** C1 (monotone improvement and termination).  With [binary_search] and
    [linear_search] keeping their contract, on a tree whose expandables each
    hold a candidate of the table: [iteratively_improve] ends (for every
    fuel from some bound on); of two costs it evaluates in a row the later
    is never above the earlier, it is strictly below at every step but the
    last, and at the last step it is not strictly below, which is where the
    loop stops. *)
Theorem monotone_improvement `{!SearchContract} problem network σ t :
  tabulator σ = Some t →
  NoDup (expandables σ) →
  expandables σ ≠ [] →
  Forall (selected t (heap σ)) (expandables σ) →
  ∃ fuel0, ∀ fuel, fuel0 ≤ fuel →
    ∃ costs σ',
      iteratively_improve fuel problem network σ = Done (costs, σ') ∧
      2 ≤ length costs ∧
      ∀ i a b, costs !! i = Some a → costs !! S i = Some b →
        (b <= a)%Q ∧
        (S (S i) < length costs → (b < a)%Q) ∧
        (S (S i) = length costs → ¬ (b < a)%Q).
Proof.
  intros Ht Hnd Hne Hsel.
  set (es := expandables σ) in *. set (h0 := heap σ).
  exists (S (length (variants t es h0))). intros fuel Hfuel.
  destruct (improve_loop_total t es h0 problem network fuel Hnd Hne σ)
    as (costs & σ' & Hrun & Hsinks).
  { by apply loop_inv_start. }
  { unfold better. pose proof (length_filter
      (λ h, (evaluate_cost problem h network
             < evaluate_cost problem (heap σ) network)%Q)
      (variants t es h0)). lia. }
  destruct (improve_loop_shape _ _ _ _ _ _ _ Hrun) as (k & Hlen & _ & _ & Hd).
  exists (evaluate_cost problem (heap σ) network :: costs), σ'.
  split_and!.
  - unfold iteratively_improve, evaluate.
    erewrite bind_run by (erewrite bind_run by reflexivity; reflexivity).
    by rewrite (bind_run _ _ _ _ _ Hrun).
  - simpl. lia.
  - intros i a b Ha Hb.
    destruct (descent_lookup _ _ Hd i a b Ha Hb) as [Hstrict Hlast].
    split_and!; [by eapply sinks_lookup|done|].
    intros Hi. by apply Qle_not_lt, Hlast.
Qed.

End C1.

Lemma monotone_improvement_witness :
  ∃ fuel0, ∀ fuel, fuel0 ≤ fuel →
    ∃ costs σ',
      iteratively_improve (H := Bench.header) fuel (mkProblem 3)
        built_3_2.1 built_3_2.2 = Done (costs, σ') ∧
      2 ≤ length costs ∧
      ∀ i a b, costs !! i = Some a → costs !! S i = Some b →
        (b <= a)%Q ∧
        (S (S i) < length costs → (b < a)%Q) ∧
        (S (S i) = length costs → ¬ (b < a)%Q).
Proof.
  apply (monotone_improvement (H := Bench.header) (mkProblem 3)
           built_3_2.1 built_3_2.2 (table_of built_3_2.2)).
  - reflexivity.
  - apply (bool_decide_unpack _). vm_compute. exact I.
  - vm_compute. discriminate.
  - repeat constructor;
      (eexists _, _; split_and!;
       [vm_compute; reflexivity | reflexivity
       | apply (bool_decide_unpack _); vm_compute; exact I]).
Defined.

Section C2.
Context `{Header}.

(** C2.  The block of lines 41-50 replaces the best record exactly when
    there is none yet or the cost of the finished restart is strictly below
    the stored one; otherwise (the stored best is at most the new cost,
    equal included) it changes nothing.  Hence, once a best exists, the
    stored best cost never goes up over any number of restarts. *)
Theorem best_record_monotone :
  (∀ problem start best_cost network cost σ,
     ∃ b' σ',
       record_best problem start best_cost network cost σ = Done (b', σ') ∧
       (best_network σ = None ∨ (cost < best_cost)%Q →
        b' = cost ∧
        best_network σ' = Some (clone (heap σ) network).2 ∧
        cout σ' = cout σ ++ [report_of problem start network cost σ]) ∧
       (best_network σ ≠ None → (best_cost <= cost)%Q →
        b' = best_cost ∧ σ' = σ)) ∧
  (∀ rounds fuel problem start best_cost σ b' σ',
     best_network σ ≠ None →
     solve_loop rounds fuel problem start best_cost σ = Done (b', σ') →
     (b' <= best_cost)%Q ∧ best_network σ' ≠ None).
Proof.
  split.
  - intros problem start best_cost network cost σ.
    rewrite record_best_run.
    destruct (bool_decide (best_network σ = None)) eqn:Hnone; cbn.
    + apply bool_decide_eq_true in Hnone. eexists _, _. split; [done|].
      cbn. split; [done|]. by intros Hsome.
    + apply bool_decide_eq_false in Hnone.
      destruct (Qgt_bool best_cost cost) eqn:Hgt.
      * apply Qgt_bool_true in Hgt. eexists _, _. split; [done|]. cbn.
        split; [done|]. intros _ Hle. by apply Qle_not_lt in Hle.
      * eexists _, _. split; [done|]. split; [|done].
        intros [Hn|Hlt]; [done|]. apply Qgt_bool_true in Hlt. congruence.
  - intros rounds. induction rounds as [|rounds IH];
      intros fuel problem start best_cost σ b' σ' Hbest Hrun.
    + apply ret_done in Hrun as [= -> ->]. split; [apply Qle_refl|done].
    + cbn [solve_loop] in Hrun.
      apply bind_done in Hrun as (b1 & σ1 & Hres & Hrun).
      apply restart_best in Hres as [Hb1 Hle].
      destruct (IH _ _ _ _ _ _ _ Hb1 Hrun) as [Hle' Hb'].
      split; [|done]. eapply Qle_trans; [exact Hle'|by apply Hle].
Qed.

End C2.

Lemma best_record_monotone_witness :
  (later_3_1.1 <= first_3_1.1)%Q ∧ best_network later_3_1.2 ≠ None.
Proof.
  apply (proj2 (best_record_monotone (H := Bench.header))
           2 10 (mkProblem 3) 0%Z first_3_1.1 first_3_1.2).
  - vm_compute. discriminate.
  - vm_compute. reflexivity.
Defined.

Section C3.
Context `{Header}.

(** C3, as the code has it.  When the values of a node fit the arity of the
    table and the table has no candidates for their key, the call computes
    [rand() % entry.size()] with a zero divisor, which is undefined; no
    error of the kind [TabulatorMiss] is raised. *)
Theorem randomly_expand_table_miss fuel node σ t n :
  tabulator σ = Some t →
  heap σ !! node = Some n →
  length (values n) ≤ m t →
  lookup_table t !! encode (values n) = None →
  randomly_expand (S fuel) node σ = Undefined ModByZero.
Proof.
  intros Ht Hn Hle Hmiss. eapply base_case_miss; try done.
  unfold entry_of. by rewrite Hmiss.
Qed.

End C3.

Lemma randomly_expand_table_miss_witness :
  randomly_expand (H := Bench.header) 1 0 unfilled = Undefined ModByZero.
Proof.
  apply (randomly_expand_table_miss (H := Bench.header) 0 0 unfilled
           (mkTabulator 1 ∅) (leaf [0])).
  - reflexivity.
  - reflexivity.
  - simpl. lia.
  - reflexivity.
Defined.

(** C3 as stated fails: the values fit the arity, the key has no entry, and
    the call does not end in [TabulatorMiss]. *)
Lemma table_miss_is_not_reported :
  length (values (leaf [0])) ≤ m (mkTabulator 1 ∅) ∧
  lookup_table (mkTabulator 1 ∅) !! encode (Header := Bench.header) [0] = None ∧
  randomly_expand (H := Bench.header) 1 0 unfilled ≠ Fatal TabulatorMiss.
Proof.
  split_and!.
  - simpl. lia.
  - reflexivity.
  - vm_compute. discriminate.
Qed.

Section C4.
Context `{Header}.

(** C4 (slot conservation).  For at least one slot, in the tree that the
    construction of [solve] leaves (the root filled with a permutation of
    the slots, then [randomly_expand]), the [hidden] of the expandables
    together with the [values] of the other nodes hold every slot of
    [0..N) exactly once. *)
Theorem slot_conservation `{!ShuffleLaws} fuel problem σ root σ' :
  1 ≤ problem_size problem →
  construct fuel problem σ = Done (root, σ') →
  ∃ d, ∀ k, d ≤ k →
    slots_of k (heap σ') (expandables σ') root
      ≡ₚ seq 0 (problem_size problem) ∧
    NoDup (slots_of k (heap σ') (expandables σ') root).
Proof.
  intros HN Hrun.
  destruct (construct_built _ _ _ _ _ HN Hrun)
    as (t & slots & ins & Ht & -> & Hb & Hs & Hnd & _).
  destruct (proj1 (slots_of_built t (heap σ') (expandables σ')) _ _ _ _ Hb)
    as [d Hd]; [done| |].
  - intros x Hx Hx'. apply NoDup_app in Hnd as (_ & Hdisj & _).
    by apply (Hdisj x).
  - exists d. intros k Hk. rewrite (Hd k Hk). split; [done|].
    rewrite Hs. apply NoDup_seq.
Qed.

End C4.

Lemma slot_conservation_witness :
  ∃ d, ∀ k, d ≤ k →
    slots_of k (heap built_3_1.2) (expandables built_3_1.2) built_3_1.1
      ≡ₚ seq 0 3 ∧
    NoDup (slots_of k (heap built_3_1.2) (expandables built_3_1.2)
                    built_3_1.1).
Proof.
  apply (slot_conservation (H := Bench.header) 10 (mkProblem 3) started_3_1).
  - simpl. lia.
  - vm_compute. reflexivity.
Defined.

Section C5.
Context `{Header}.

(** C5 (base case of [randomly_expand]).  For a node as [N()] made it (no
    children yet) whose values fit the arity of the table, when the table
    has candidates for their key: the call returns, the node is the last
    registered expandable, its [hidden] is the former [values], its [values]
    is empty and its only child is one of the candidates the table lists
    for the key of [hidden]; nothing else in the store changes. *)
Theorem randomly_expand_base_case fuel node σ t n :
  tabulator σ = Some t →
  heap σ !! node = Some n →
  children n = [] →
  length (values n) ≤ m t →
  entry_of t (encode (values n)) ≠ [] →
  ∃ c σ',
    randomly_expand (S fuel) node σ = Done ((), σ') ∧
    expandables σ' = expandables σ ++ [node] ∧
    heap σ' !! node = Some (mkNode [] (values n) [c]) ∧
    c ∈ candidates t (values n) ∧
    (∀ l, l ≠ node → heap σ' !! l = heap σ !! l).
Proof.
  intros Ht Hn Hc Hle Hent.
  destruct (base_case_run fuel node σ t n Ht Hn Hle Hent) as (e & He & Hrun).
  rewrite Hc in Hrun. eexists e.2, _. split; [exact Hrun|]. cbn.
  split_and!.
  - done.
  - apply list_lookup_insert_eq. by eapply lookup_lt_Some.
  - apply list_elem_of_fmap. exists e. split; [done|].
    by eapply list_elem_of_lookup_2.
  - intros l Hl. by apply list_lookup_insert_ne.
Qed.

End C5.

Lemma randomly_expand_base_case_witness :
  ∃ c σ',
    randomly_expand (H := Bench.header) 1 9 pending_2_2 = Done ((), σ') ∧
    expandables σ' = expandables pending_2_2 ++ [9] ∧
    heap σ' !! 9 = Some (mkNode [] [1; 0] [c]) ∧
    c ∈ candidates (H := Bench.header) (table_of started_2_2) [1; 0] ∧
    (∀ l, l ≠ 9 → heap σ' !! l = heap pending_2_2 !! l).
Proof.
  apply (randomly_expand_base_case (H := Bench.header) 0 9 pending_2_2
           (table_of started_2_2) (leaf [1; 0])).
  - reflexivity.
  - reflexivity.
  - reflexivity.
  - simpl. lia.
  - vm_compute. discriminate.
Defined.

Section C6.
Context `{Header}.

(** C6, as the code has it.  For one slot, with a table of arity at least 1
    that has candidates for the key of slot 0: the tree [solve] constructs
    is the root alone, registered as the one expandable, with [hidden]
    holding slot 0, no [values], and a candidate of the table as its only
    child; [iteratively_improve] then draws index 0 twice, replaces that
    child by the answer of [binary_search], and evaluates a cost again: it
    returns only after at least one substitution. *)
Theorem single_slot_tree `{!ShuffleLaws} fuel σ t :
  tabulator σ = Some t →
  1 ≤ m t →
  entry_of t (encode [0]) ≠ [] →
  let problem := mkProblem 1 in
  let root := length (heap σ) in
  ∃ c σ',
    construct (S fuel) problem σ = Done (root, σ') ∧
    expandables σ' = [root] ∧
    heap σ' !! root = Some (mkNode [] [0] [c]) ∧
    c ∈ candidates t [0] ∧
    (∃ σ1, substitute problem root σ' = Done ((), σ1) ∧
           heap σ1 = substituted_one t problem root (heap σ') root) ∧
    (∀ fuel' costs σ'',
       iteratively_improve fuel' problem root σ' = Done (costs, σ'') →
       2 ≤ length costs).
Proof.
  intros Ht Hm Hent problem root.
  set (g := random_shuffle (seq 0 1) (rng σ)).
  assert (g.1 = [0]) as Hg.
  { apply Permutation_singleton_r. apply (shuffle_perm [0]). }
  set (σ0 := mkState (heap σ ++ [leaf g.1]) (tabulator σ) (best_network σ) []
                     g.2 (ticks σ) (cout σ)).
  destruct (base_case_run fuel root σ0 t (leaf [0])) as (e & He & Hrun);
    try done.
  { cbn. rewrite Hg. by rewrite lookup_app_r, Nat.sub_diag by done. }
  cbn [values children leaf app] in Hrun.
  set (σ' := with_heap _ _) in Hrun.
  assert (expandables σ' = [root]) as Hex by done.
  assert (heap σ' !! root = Some (mkNode [] [0] [e.2])) as Hroot.
  { cbn. apply list_lookup_insert_eq. rewrite length_app. simpl.
    unfold root. lia. }
  assert (e.2 ∈ candidates t [0]) as Hc.
  { apply list_elem_of_fmap. exists e. split; [done|].
    by eapply list_elem_of_lookup_2. }
  assert (construct (S fuel) problem σ = Done (root, σ')) as Hcon.
  { unfold construct. do 4 (erewrite bind_run by reflexivity). cbn.
    match goal with
    | |- (for_each _ _ ≫= _) ?s = _ =>
        destruct (fill_run (length (heap σ)) g.1 s []) as (σ1 & Hfill & Hσ1)
    end.
    { cbn. by rewrite lookup_app_r, Nat.sub_diag by done. }
    fold g. rewrite (bind_run _ _ _ _ _ Hfill).
    assert (σ1 = σ0) as ->.
    { rewrite Hσ1. unfold with_heap, σ0; cbn. f_equal.
      rewrite insert_app_r_alt, Nat.sub_diag by done. done. }
    by rewrite (bind_run _ _ _ _ _ Hrun). }
  assert (tabulator σ' = Some t) as Ht'.
  { destruct (construct_built (S fuel) problem σ root σ') as
      (t' & _ & _ & Ht0 & _ & _ & _ & _ & Hso); [done|done|].
    by rewrite (proj1 Hso). }
  exists e.2, σ'. split_and!; try done.
  - destruct (substitute_run problem root σ' t) as (e0 & e1 & He0 & He1 & Hsub);
      [done|by rewrite Hex| |].
    { rewrite Hex. repeat constructor. by rewrite Hroot. }
    rewrite Hex in He0, He1, Hsub. cbn [length] in He0, He1, Hsub.
    rewrite !Nat.mod_1_r in He0, He1, Hsub.
    injection He0 as <-. eexists. split; [exact Hsub|]. cbn.
    by rewrite decide_True.
  - intros fuel' costs σ'' Himp.
    by eapply iteratively_improve_length.
Qed.

End C6.

Lemma single_slot_tree_witness :
  ∃ c σ',
    construct (H := Bench.header) 1 (mkProblem 1) started_1_1
      = Done (length (heap started_1_1), σ') ∧
    expandables σ' = [length (heap started_1_1)] ∧
    heap σ' !! length (heap started_1_1) = Some (mkNode [] [0] [c]) ∧
    c ∈ candidates (H := Bench.header) (table_of started_1_1) [0] ∧
    (∃ σ1, substitute (H := Bench.header) (mkProblem 1)
             (length (heap started_1_1)) σ' = Done ((), σ1) ∧
           heap σ1 = substituted_one (H := Bench.header)
                       (table_of started_1_1) (mkProblem 1)
                       (length (heap started_1_1)) (heap σ')
                       (length (heap started_1_1))) ∧
    (∀ fuel' costs σ'',
       iteratively_improve (H := Bench.header) fuel' (mkProblem 1)
         (length (heap started_1_1)) σ' = Done (costs, σ'') →
       2 ≤ length costs).
Proof.
  apply (single_slot_tree (H := Bench.header) 0 started_1_1
           (table_of started_1_1)).
  - reflexivity.
  - simpl. lia.
  - vm_compute. discriminate.
Defined.

(** C6 as stated fails: for one slot the construction leaves one expandable
    (the root), and [iteratively_improve] evaluates a second cost, after a
    substitution, before it returns. *)
Lemma single_slot_has_an_expandable :
  ∃ root σ' costs σ'',
    construct (H := Bench.header) 10 (mkProblem 1) started_1_1
      = Done (root, σ') ∧
    expandables σ' = [root] ∧ expandables σ' ≠ [] ∧
    iteratively_improve (H := Bench.header) 10 (mkProblem 1) root σ'
      = Done (costs, σ'') ∧
    length costs = 2 ∧
    substitutions (H := Bench.header) 1 (mkProblem 1) root σ'
      = Done ((), σ'').
Proof.
  eexists _, _, _, _. split_and!.
  - vm_compute. reflexivity.
  - reflexivity.
  - discriminate.
  - vm_compute. reflexivity.
  - reflexivity.
  - vm_compute. reflexivity.
Qed.

Section C7.
Context `{Header}.

(** C7, as the code has it.  [main] checks neither the slot count nor the
    arity: for every [n] and [t] the start-up up to the loop of [solve]
    completes, and no later pass ends in an error kind ([InvalidProblem] or
    any other). *)
Theorem startup_makes_no_check fuel n t :
  (∃ σ, main 0 fuel n t = Done (0%Q, σ) ∧
        tabulator σ =
          if decide (t = 0) then None
          else Some (tabulate (mkProblem n) (mkTabulator t ∅) []).1) ∧
  (∀ rounds e, main rounds fuel n t ≠ Fatal e).
Proof.
  split.
  - unfold main. destruct (decide (t = 0)) as [->|Hne]; eexists; by split.
  - intros rounds e Hmain.
    assert (keeps (λ _, True) (λ _, True)
              (srand 2022 ;;
               update (with_tabulator
                 (if decide (t = 0) then None else Some (mkTabulator t ∅))) ;;
               solve rounds fuel (mkProblem n))) as Hk.
    { apply keeps_bind; [by apply keeps_update|intros _].
      apply keeps_bind; [by apply keeps_update|intros _].
      by apply keeps_solve. }
    specialize (Hk boot Logic.I). unfold main in Hmain.
    by rewrite Hmain in Hk.
Qed.

End C7.

(** C7 as stated fails: with no slots, or with arity 0, the first pass of
    the search is entered and ends in an undefined construct, not in
    [InvalidProblem]. *)
Lemma invalid_problem_is_not_reported :
  main (H := Bench.header) 1 10 0 1 = Undefined ModByZero ∧
  main (H := Bench.header) 1 10 1 0 = Undefined NullDeref ∧
  main (H := Bench.header) 1 10 0 1 ≠ Fatal InvalidProblem ∧
  main (H := Bench.header) 1 10 1 0 ≠ Fatal InvalidProblem.
Proof. by vm_compute. Qed.



Section C9.
Context `{Header}.

(** C9.  Whatever the searches return: when [iteratively_improve] returns
    after evaluating [k + 2] costs, it has made [k + 1] passes, the last
    one included; each pass starts from the state the pass before left,
    draws two indices, clears the children of the expandable(s) drawn and
    pushes the subnetwork(s) the search returns, and only then is the cost
    evaluated again; the state left is the one after the last pass, none
    taken back; the cost at position [i] is the cost of the tree after [i]
    passes, so the last one is the cost of the tree that is left; and the
    cost before the last is the least that was seen, at most the last. *)
Theorem last_substitution_stays fuel problem network σ costs σ' :
  iteratively_improve fuel problem network σ = Done (costs, σ') →
  ∃ k pre prev last,
    length costs = S (S k) ∧
    substitutions (S k) problem network σ = Done ((), σ') ∧
    (∀ i, i ≤ k →
       ∃ σi σj,
         substitutions i problem network σ = Done ((), σi) ∧
         substitutions (S i) problem network σ = Done ((), σj) ∧
         passed problem network σi σj ∧
         costs !! S i = Some (evaluate_cost problem (heap σj) network)) ∧
    (∀ i c, costs !! i = Some c →
       ∃ σi, substitutions i problem network σ = Done ((), σi) ∧
             c = evaluate_cost problem (heap σi) network) ∧
    costs = pre ++ [prev; last] ∧
    last = evaluate_cost problem (heap σ') network ∧
    (prev <= last)%Q ∧
    Forall (λ c, (prev < c)%Q) pre.
Proof.
  unfold iteratively_improve, evaluate. intros Hrun.
  erewrite bind_run in Hrun
    by (erewrite bind_run by reflexivity; reflexivity).
  apply bind_done in Hrun as (rest & σ1 & Hloop & Hret).
  apply ret_done in Hret as [= -> ->].
  destruct (improve_loop_shape _ _ _ _ _ _ _ Hloop)
    as (k & Hlen & Hsubs & Hcosts & Hd).
  destruct (descent_least _ _ Hd) as (pre & prev & last & Heq & Hpl & Hpre & _).
  exists k, pre, prev, last. split_and!; try done.
  - simpl. by rewrite Hlen.
  - intros i Hi.
    destruct (substitutions_prefix _ _ _ _ _ (S i) Hsubs) as [σj Hj]; [lia|].
    pose proof Hj as Hj'.
    apply substitutions_last in Hj' as (σi & Hsi & Hpass).
    exists σi, σj. split_and!; try done.
    + destruct (substitute_done _ _ _ _ Hpass)
        as (t & e0 & e1 & Ht & He0 & He1 & Hσj).
      by exists t, e0, e1.
    + destruct (lookup_lt_is_Some_2 rest i) as [c Hc]; [lia|].
      destruct (Hcosts i c Hc) as (σj' & Hj'' & ->).
      change ((evaluate_cost problem (heap σ) network :: rest) !! S i)
        with (rest !! i). rewrite Hc. congruence.
  - intros [|i] c Hc.
    + injection Hc as <-. by exists σ.
    + by apply Hcosts.
  - destruct (Hcosts k last) as (σk & Hk & ->).
    { assert ((evaluate_cost problem (heap σ) network :: rest) !! S k
              = Some last) as Hl; [|done].
      rewrite Heq. rewrite lookup_app_r.
      - apply (f_equal length) in Heq. rewrite length_app in Heq.
        simpl in Heq. by replace (S k - length pre) with 1 by lia.
      - apply (f_equal length) in Heq. rewrite length_app in Heq.
        simpl in Heq. lia. }
    congruence.
Qed.

End C9.

Lemma last_substitution_stays_witness :
  ∃ k pre prev last,
    length improved_3_2.1 = S (S k) ∧
    substitutions (H := Bench.header) (S k) (mkProblem 3) built_3_2.1
      built_3_2.2 = Done ((), improved_3_2.2) ∧
    (∀ i, i ≤ k →
       ∃ σi σj,
         substitutions (H := Bench.header) i (mkProblem 3) built_3_2.1
           built_3_2.2 = Done ((), σi) ∧
         substitutions (H := Bench.header) (S i) (mkProblem 3) built_3_2.1
           built_3_2.2 = Done ((), σj) ∧
         passed (H := Bench.header) (mkProblem 3) built_3_2.1 σi σj ∧
         improved_3_2.1 !! S i
           = Some (evaluate_cost (Header := Bench.header) (mkProblem 3)
                     (heap σj) built_3_2.1)) ∧
    (∀ i c, improved_3_2.1 !! i = Some c →
       ∃ σi, substitutions (H := Bench.header) i (mkProblem 3) built_3_2.1
               built_3_2.2 = Done ((), σi) ∧
             c = evaluate_cost (Header := Bench.header) (mkProblem 3)
                   (heap σi) built_3_2.1) ∧
    improved_3_2.1 = pre ++ [prev; last] ∧
    last = evaluate_cost (Header := Bench.header) (mkProblem 3)
             (heap improved_3_2.2) built_3_2.1 ∧
    (prev <= last)%Q ∧
    Forall (λ c, (prev < c)%Q) pre.
Proof.
  apply (last_substitution_stays (H := Bench.header) 10 (mkProblem 3)
           built_3_2.1 built_3_2.2 improved_3_2.1 improved_3_2.2).
  vm_compute. reflexivity.
Defined.

Section C10.
Context `{Header}.

(** C10, as the code has it.  Every call of [randomly_expand] that returns
    has added at least one node to the expandables, whatever the node held.
    In the tree [solve] constructs for at least one slot each expandable
    holds a non-empty [hidden], the set is not empty, and
    [iteratively_improve] never takes a modulus by zero.  But not every
    path of the recursion reaches the base case: where the draws are, it
    depends on them; with a generator that draws 0 every time, a node with
    more values than the arity of the table is never expanded to the end,
    and nothing is registered. *)
Theorem expandables_never_empty `{!ShuffleLaws} :
  (∀ fuel node σ σ',
     randomly_expand fuel node σ = Done ((), σ') →
     length (expandables σ) < length (expandables σ')) ∧
  (∀ fuel problem σ root σ',
     1 ≤ problem_size problem →
     construct fuel problem σ = Done (root, σ') →
     0 < length (expandables σ') ∧
     Forall (λ e, ∃ n, heap σ' !! e = Some n ∧ hidden n ≠ [])
            (expandables σ') ∧
     ∀ fuel', iteratively_improve fuel' problem root σ'
              ≠ Undefined ModByZero) ∧
  ((∀ s k, libc_rand s k = 0) →
   ∀ fuel node σ t vs,
     tabulator σ = Some t →
     heap σ !! node = Some (leaf vs) →
     m t < length vs →
     randomly_expand fuel node σ = OutOfFuel).
Proof.
  split_and!.
  - intros fuel node σ σ' Hrun.
    apply randomly_expand_registers in Hrun as (es & Hne & ->).
    rewrite length_app. destruct es; [done|]. simpl. lia.
  - intros fuel problem σ root σ' HN Hrun.
    destruct (construct_expandables _ _ _ _ _ HN Hrun)
      as (t & Ht & Hok & Hnd & Hne).
    split_and!.
    + destruct (expandables σ'); [done|]. simpl. lia.
    + eapply Forall_impl; [exact Hok|].
      intros e (hd & c & He & Hhd & _). eauto.
    + intros fuel' Hmod.
      pose proof (keeps_iteratively_improve
        (λ σ0, expandables σ0 ≠ []) (λ u, u ≠ ModByZero)) as Hkeep.
      specialize (Hkeep (λ σ0 f Hσ0, Hσ0) (λ σ0 k Hσ0, Hσ0)).
      specialize (Hkeep ltac:(done) ltac:(done) ltac:(done)).
      specialize (Hkeep (or_intror (λ σ0 Hσ0, Hσ0)) fuel' problem root σ' Hne).
      by rewrite Hmod in Hkeep.
  - intros Hzero fuel node σ t vs. by apply randomly_expand_stuck.
Qed.

End C10.

Lemma expandables_never_empty_witness :
  0 < length (expandables built_3_1.2) ∧
  Forall (λ e, ∃ n, heap built_3_1.2 !! e = Some n ∧ hidden n ≠ [])
         (expandables built_3_1.2) ∧
  ∀ fuel', iteratively_improve (H := Bench.header) fuel' (mkProblem 3)
             built_3_1.1 built_3_1.2
           ≠ Undefined ModByZero.
Proof.
  apply (proj1 (proj2 (expandables_never_empty (H := Bench.header)))
           10 (mkProblem 3) started_3_1).
  - simpl. lia.
  - vm_compute. reflexivity.
Defined.

(** C10 as stated fails: two slots, a table of arity 1 in place, a node
    holding both slots, and a generator that draws 0 every time; the
    recursion never reaches the base case, so no call returns, however deep
    it may go, and no expandable is added. *)
Lemma recursion_need_not_reach_the_base_case :
  tabulator pending_2_1 = Some (table_of pending_2_1) ∧
  heap pending_2_1 !! Nat.pred (length (heap pending_2_1))
    = Some (leaf [1; 0]) ∧
  expandables pending_2_1 = [] ∧
  ¬ ∃ fuel σ',
      randomly_expand (H := stuck_header) fuel
        (Nat.pred (length (heap pending_2_1))) pending_2_1 = Done ((), σ').
Proof.
  split_and!; [reflexivity..|].
  intros (fuel & σ' & Hrun).
  rewrite (randomly_expand_stuck (H := stuck_header) (λ _ _, eq_refl)
             (table_of pending_2_1) fuel _ _ [1; 0]) in Hrun.
  - discriminate.
  - reflexivity.
  - reflexivity.
  - vm_compute. lia.
Qed.

(** * Further properties of the driver *)

(** ** Lemmas *)

Section NewNodes.
Context `{Header}.

(** The working tree is made of new nodes only. *)
Lemma construct_new_nodes fuel problem σ root σ' :
  construct fuel problem σ = Done (root, σ') →
  root = length (heap σ) ∧
  length (heap σ) < length (heap σ') ∧
  (∀ l, l < length (heap σ) → heap σ' !! l = heap σ !! l) ∧
  expandables σ' ≠ [] ∧
  Forall (λ e, length (heap σ) ≤ e < length (heap σ')) (expandables σ') ∧
  is_Some (tabulator σ) ∧
  tabulator σ' = tabulator σ ∧ best_network σ' = best_network σ ∧
  ticks σ' = ticks σ ∧ cout σ' = cout σ.
Proof.
  intros Hrun.
  apply construct_run in Hrun as (σ1 & [= -> <-] & Hrun).
  set (g := random_shuffle _ _) in Hrun.
  set (σ0 := mkState _ _ _ _ _ _ _) in Hrun.
  destruct (randomly_expand_tabulator _ _ _ _ Hrun) as [t Ht].
  assert (heap σ0 !! length (heap σ) = Some (leaf g.1)) as Hroot.
  { cbn. by rewrite lookup_app_r, Nat.sub_diag by done. }
  destruct (decide (g.1 = [])) as [Hnil|Hne].
  - destruct fuel as [|fuel]; [done|].
    rewrite Hnil in Hroot.
    destruct (decide (entry_of t (encode []) = [])) as [Hmiss|Hent].
    { rewrite (base_case_miss fuel _ σ0 t (leaf [])) in Hrun; try done.
      cbn; lia. }
    destruct (base_case_run fuel _ σ0 t (leaf []) Ht Hroot) as (e & _ & Hb);
      [cbn; lia|done|].
    rewrite Hb in Hrun. injection Hrun as <-. cbn.
    rewrite length_insert, length_app. cbn.
    split_and!; try done; try lia.
    + intros l Hl. rewrite list_lookup_insert_ne by lia.
      by rewrite lookup_app_l.
    + apply Forall_singleton. lia.
  - destruct (randomly_expand_expanded fuel (length (heap σ)) σ0 σ' t g.1)
      as (slots & es & ins & [Hb Hs He Hw Hn Hgr Hf Hso]); try done.
    cbn in He, Hw, Hgr, Hf. rewrite length_app in Hw, Hgr, Hf. cbn in Hw, Hgr, Hf.
    destruct Hso as (? & ? & _ & ? & ?).
    split_and!; try done; try lia.
    + intros l Hl. rewrite Hf by lia. by rewrite lookup_app_l.
    + rewrite He. by eapply (proj1 (built_expandables_nonempty t (heap σ'))).
    + rewrite He. apply Forall_app in Hw as [Hw _].
      eapply Forall_impl; [exact Hw|]. cbn. intros l [->|?]; lia.
Qed.

End NewNodes.

Section Touched.
Context `{Header}.

Lemma touched_only_refl es h : touched_only es h h.
Proof. by split. Qed.

Lemma touched_only_insert es (h0 h : Heap) e n n' :
  touched_only es h0 h → e ∈ es → h !! e = Some n →
  values n' = values n → hidden n' = hidden n →
  touched_only es h0 (<[e := n']> h).
Proof.
  intros [Hlen Hat] He Hn Hv Hh. split; [by rewrite length_insert|].
  intros l. destruct (Hat l) as (Ho & Hvs & Hhs).
  destruct (decide (l = e)) as [->|Hne].
  - rewrite list_lookup_insert_eq by by eapply lookup_lt_Some.
    rewrite Hn in Hvs, Hhs. rewrite <-Hvs, <-Hhs. cbn.
    split_and!; [done|by rewrite Hv|by rewrite Hh].
  - by rewrite list_lookup_insert_ne.
Qed.

Variable es : list loc.
Variable h0 : Heap.

Abbreviation I := (touched_inv es h0).
Abbreviation any := (λ _ : Undef, True).

Lemma touched_modify e f :
  e ∈ es → (∀ n, values (f n) = values n ∧ hidden (f n) = hidden n) →
  keeps I any (modify e f).
Proof.
  intros He Hf σ [Hes Ht]. unfold modify, mbind, M_bind, bind, deref.
  destruct (heap σ !! e) as [n|] eqn:Hn; [|done]. cbn. split; [done|].
  eapply touched_only_insert; try done; apply Hf.
Qed.

Lemma touched_at_index i :
  triple I (at_index es i) (λ e σ, I σ ∧ e ∈ es) any.
Proof.
  intros σ HI. unfold at_index. destruct (es !! i) as [e|] eqn:He; [|done].
  split; [done|]. by eapply list_elem_of_lookup_2.
Qed.

Lemma touched_draw σ k : I σ → I (with_rng (mkRng (seed (rng σ)) k) σ).
Proof. done. Qed.

Lemma touched_substitute problem network :
  keeps I any (substitute problem network).
Proof.
  unfold substitute. eapply triple_bind; [apply keeps_gets|].
  intros es'. cbn beta.
  apply (triple_pure _ (es' = es)). { by intros σ [[-> _] ->]. }
  intros ->.
  eapply triple_weaken with (P' := I) (Q' := λ _, I); [|by intros σ []|done].
  apply keeps_bind; [apply keeps_rand, touched_draw|intros r0].
  apply keeps_bind; [by apply keeps_modulo|intros idx_0].
  apply keeps_bind; [apply keeps_rand, touched_draw|intros r1].
  apply keeps_bind; [by apply keeps_modulo|intros idx_1].
  apply triple_decide.
  - eapply triple_bind; [apply touched_at_index|intros e].
    apply (triple_pure _ (e ∈ es)); [by intros σ []|intros He].
    eapply triple_weaken with (P' := I) (Q' := λ _, I); [|by intros σ []|done].
    apply keeps_bind; [by apply touched_modify|intros _].
    apply keeps_bind; [by apply keeps_the_tabulator|intros t].
    apply keeps_bind; [by apply keeps_deref|intros n].
    eapply triple_bind; [apply keeps_gets|intros h].
    eapply triple_weaken with (P' := I) (Q' := λ _, I); [|by intros σ []|done].
    by apply touched_modify.
  - eapply triple_bind; [apply touched_at_index|intros e0].
    apply (triple_pure _ (e0 ∈ es)); [by intros σ []|intros He0].
    eapply triple_weaken with (P' := I) (Q' := λ _, I); [|by intros σ []|done].
    eapply triple_bind; [apply touched_at_index|intros e1].
    apply (triple_pure _ (e1 ∈ es)); [by intros σ []|intros He1].
    eapply triple_weaken with (P' := I) (Q' := λ _, I); [|by intros σ []|done].
    apply keeps_bind; [by apply touched_modify|intros _].
    apply keeps_bind; [by apply touched_modify|intros _].
    apply keeps_bind; [by apply keeps_the_tabulator|intros t].
    apply keeps_bind; [by apply keeps_deref|intros n0].
    apply keeps_bind; [by apply keeps_deref|intros n1].
    eapply triple_bind; [apply keeps_gets|intros h].
    eapply triple_weaken with (P' := I) (Q' := λ _, I); [|by intros σ []|done].
    apply keeps_bind; [by apply touched_modify|intros _].
    by apply touched_modify.
Qed.

Lemma touched_improve fuel problem network :
  keeps I any (iteratively_improve fuel problem network).
Proof.
  apply keeps_bind; [apply keeps_evaluate|intros best_cost].
  apply keeps_bind; [|intros rest; apply keeps_ret].
  revert best_cost.
  induction fuel as [|fuel IH]; intros best_cost; [by intros σ HI|].
  cbn [improve_loop].
  apply keeps_bind.
  { apply keeps_bind; [apply touched_substitute|intros _].
    apply keeps_evaluate. }
  intros cost. apply triple_if; [apply keeps_ret|].
  apply keeps_bind; [apply IH|intros rest]. apply keeps_ret.
Qed.

End Touched.

Section Untouched.
Context `{Header}.

(** The improvement loop changes nothing but what the expandables hold. *)
Lemma improve_touches fuel problem network σ costs σ' :
  iteratively_improve fuel problem network σ = Done (costs, σ') →
  expandables σ' = expandables σ ∧
  touched_only (expandables σ) (heap σ) (heap σ') ∧
  tabulator σ' = tabulator σ ∧ best_network σ' = best_network σ ∧
  ticks σ' = ticks σ ∧ cout σ' = cout σ ∧ seed (rng σ') = seed (rng σ).
Proof.
  intros Hrun.
  pose proof (touched_improve (expandables σ) (heap σ) fuel problem network σ)
    as Ht.
  rewrite Hrun in Ht. destruct Ht as [He Ht]; [split; [done|apply touched_only_refl]|].
  pose proof (keeps_iteratively_improve
    (λ s, tabulator s = tabulator σ ∧ best_network s = best_network σ ∧
          ticks s = ticks σ ∧ cout s = cout σ ∧ seed (rng s) = seed (rng σ))
    (λ _, True)) as Hk.
  specialize (Hk ltac:(done) ltac:(done) I I I (or_introl I)
                 fuel problem network σ).
  rewrite Hrun in Hk. destruct Hk as (? & ? & ? & ? & ?); [done|].
  done.
Qed.

End Untouched.

Section Safe.
Context `{Header}.

Lemma substituted_length t problem network (h : Heap) e0 e1 (i0 i1 : nat) :
  length (if decide (i0 = i1) then substituted_one t problem network h e0
          else substituted_two t problem network h e0 e1) = length h.
Proof.
  unfold substituted_one, substituted_two, attach.
  case_decide; by rewrite !length_alter.
Qed.

(** The loop on a state whose expandables are in the store: every pointer it
    follows is good and no modulus is zero. *)
Lemma improve_loop_harmless t problem network fuel : ∀ σ best_cost,
  tabulator σ = Some t → expandables σ ≠ [] →
  Forall (λ e, e < length (heap σ)) (expandables σ) →
  harmless (improve_loop fuel problem network best_cost σ).
Proof.
  induction fuel as [|fuel IH]; intros σ best_cost Ht Hne Hin; [done|].
  destruct (substitute_run problem network σ t Ht Hne)
    as (e0 & e1 & _ & _ & Hsub).
  { eapply Forall_impl; [exact Hin|]. intros e. apply lookup_lt_is_Some_2. }
  cbn [improve_loop].
  rewrite (bind_run _ _ _ _ _ (improve_step_run _ _ _ _ Hsub)).
  destruct (Qle_bool _ _); [done|].
  match goal with
  | |- harmless ((improve_loop _ _ _ ?b ≫= _) ?s) =>
      specialize (IH s b); destruct (improve_loop fuel problem network b s)
        as [[rest σ']| | |] eqn:Hrest
  end; try done; cbn in IH; unfold mbind, M_bind, bind; rewrite Hrest;
    try done; apply IH; try done;
    cbn; by rewrite substituted_length.
Qed.

End Safe.

Section Reports.
Context `{Header}.

Lemma falling_snoc l b c :
  falling l → (l ≠ [] → last l = Some b ∧ (c < b)%Q) → falling (l ++ [c]).
Proof.
  intros Hf Hl i x y Hx Hy.
  destruct (decide (S i < length l)) as [Hlt|Hge].
  - rewrite lookup_app_l in Hx, Hy by lia. by eapply Hf.
  - assert (S i = length l) as Hi.
    { apply lookup_lt_Some in Hy. rewrite length_app in Hy. cbn in Hy. lia. }
    rewrite lookup_app_l in Hx by lia.
    rewrite lookup_app_r, Hi, Nat.sub_diag in Hy by lia.
    injection Hy as <-.
    destruct Hl as [Hlast Hlt]; [by intros ->|].
    rewrite last_lookup, <-Hi in Hlast. cbn in Hlast. congruence.
Qed.

Lemma attempt_output fuel problem σ r σ' :
  attempt fuel problem σ = Done (r, σ') →
  cout σ' = cout σ ∧ best_network σ' = best_network σ ∧ ticks σ' = ticks σ.
Proof.
  intros Hrun.
  pose proof (keeps_attempt
    (λ s, cout s = cout σ ∧ best_network s = best_network σ ∧
          ticks s = ticks σ)) as Hk.
  specialize (Hk (λ _ _ Hb, Hb) (λ _ _ Hb, Hb) (λ _ _ Hb, Hb) (λ _ _ Hb, Hb)).
  specialize (Hk fuel problem σ). rewrite Hrun in Hk. by apply Hk.
Qed.

(** One pass of the loop of [solve] on the output. *)
Lemma restart_reported fuel problem start b σ b' σ' :
  reported b σ →
  restart fuel problem start b σ = Done (b', σ') →
  reported b' σ' ∧ best_network σ' ≠ None ∧
  ∃ more, cout σ' = cout σ ++ more ∧ length more ≤ 1.
Proof.
  intros (Hticks & Hfall & Hnone & Hsome).
  unfold restart. intros ([network cost] & σ1 & Hatt & Hrec)%bind_done.
  destruct (attempt_output _ _ _ _ _ Hatt) as (Ho & Hb & Hk).
  rewrite record_best_run in Hrec. cbn [fst snd] in Hrec.
  destruct (bool_decide (best_network σ1 = None)) eqn:Hbn; cbn in Hrec.
  - injection Hrec as <- <-. apply bool_decide_eq_true in Hbn.
    rewrite Hb in Hbn. specialize (Hnone Hbn).
    unfold reported. cbn. rewrite Ho, Hk, Hnone in *. cbn.
    split_and!; try done.
    + by rewrite Hticks.
    + by exists [report_of problem start network cost σ1].
  - apply bool_decide_eq_false in Hbn. rewrite Hb in Hbn.
    specialize (Hsome Hbn).
    destruct (Qgt_bool b cost) eqn:Hgt; injection Hrec as <- <-.
    + apply Qgt_bool_true in Hgt. unfold reported. cbn. rewrite Ho, Hk.
      split_and!; try done.
      * rewrite length_app. cbn. lia.
      * rewrite fmap_app. cbn. by apply (falling_snoc _ b).
      * intros _. rewrite fmap_app. cbn. by rewrite last_snoc.
      * by exists [report_of problem start network cost σ1].
    + unfold reported. rewrite Ho, Hb, Hk. split_and!; try done.
      exists []. rewrite app_nil_r. split; [done|cbn; lia].
Qed.

Lemma solve_loop_reported fuel problem start rounds : ∀ b σ b' σ',
  reported b σ →
  solve_loop rounds fuel problem start b σ = Done (b', σ') →
  reported b' σ' ∧ (1 ≤ rounds → best_network σ' ≠ None) ∧
  ∃ more, cout σ' = cout σ ++ more ∧ length more ≤ rounds.
Proof.
  induction rounds as [|rounds IH]; intros b σ b' σ' Hrep Hrun.
  - apply ret_done in Hrun as [= <- <-]. split_and!; [done|lia|].
    exists []. rewrite app_nil_r. split; [done|cbn; lia].
  - cbn [solve_loop] in Hrun.
    apply bind_done in Hrun as (b1 & σ1 & Hre & Hrun).
    destruct (restart_reported _ _ _ _ _ _ _ Hrep Hre)
      as (Hrep1 & Hbn1 & more1 & Ho1 & Hlen1).
    destruct (IH _ _ _ _ Hrep1 Hrun) as (Hrep' & Hbn' & more & Ho & Hlen).
    split_and!; [done| |].
    + intros _. destruct rounds as [|rounds]; [|apply Hbn'; lia].
      apply ret_done in Hrun as [= <- <-]. done.
    + exists (more1 ++ more). rewrite Ho, Ho1, <-app_assoc.
      split; [done|]. rewrite length_app. lia.
Qed.

End Reports.

Section Edges.
Context `{Header}.

Lemma bind_undefined {A B} (c : M A) (k : A → M B) σ u :
  c σ = Undefined u → (c ≫= k) σ = Undefined u.
Proof. intros Hc. unfold mbind, M_bind, bind. by rewrite Hc. Qed.

(** [construct] up to the call of [randomly_expand]. *)
Lemma construct_enter fuel problem σ :
  let g := random_shuffle (seq 0 (problem_size problem)) (rng σ) in
  let root := length (heap σ) in
  let σ0 := mkState (heap σ ++ [leaf g.1]) (tabulator σ) (best_network σ) []
                    g.2 (ticks σ) (cout σ) in
  construct fuel problem σ =
    (randomly_expand fuel root ≫= λ _, mret root) σ0.
Proof.
  intros g root σ0. unfold construct.
  do 4 (erewrite bind_run by reflexivity).
  cbn.
  match goal with
  | |- (for_each _ _ ≫= _) ?s = _ =>
      destruct (fill_run (length (heap σ)) g.1 s []) as (σ1 & Hfill & Hσ1)
  end.
  { cbn. by rewrite lookup_app_r, Nat.sub_diag by done. }
  fold g. rewrite (bind_run _ _ _ _ _ Hfill).
  assert (σ1 = σ0) as ->; [|done].
  rewrite Hσ1. unfold with_heap, σ0; cbn. f_equal.
  rewrite insert_app_r_alt, Nat.sub_diag by done. done.
Qed.

Lemma randomly_expand_null fuel node σ :
  tabulator σ = None → randomly_expand (S fuel) node σ = Undefined NullDeref.
Proof.
  intros Ht. cbn [randomly_expand]. apply bind_undefined.
  unfold the_tabulator. by rewrite Ht.
Qed.

Lemma restart_null fuel problem start best_cost σ :
  tabulator σ = None →
  restart (S fuel) problem start best_cost σ = Undefined NullDeref.
Proof.
  intros Ht. unfold restart, attempt.
  do 2 apply bind_undefined. rewrite construct_enter.
  apply bind_undefined. by apply randomly_expand_null.
Qed.

End Edges.

Section Dealing.
Context `{Header}.

Lemma place_groups_length r v groups :
  length groups ≤ length (place_groups r v groups) ≤ S (length groups).
Proof.
  unfold place_groups. rewrite length_alter.
  case_decide; [rewrite length_app; cbn|]; lia.
Qed.

(** The loop over the values on a fresh node, with what it draws and how
    many children it makes. *)
Lemma deal_count h0 node vs0 vs : ∀ groups σ,
  node < length h0 →
  heap σ = dealt h0 node vs0 groups →
  Forall (λ g, g ≠ []) groups →
  ∃ groups' σ',
    for_each vs (place node) σ = Done ((), σ') ∧
    heap σ' = dealt h0 node vs0 groups' ∧
    Forall (λ g, g ≠ []) groups' ∧
    concat groups' ≡ₚ concat groups ++ vs ∧
    length groups ≤ length groups' ≤ length groups + length vs ∧
    (vs ≠ [] → 1 ≤ length groups') ∧
    rng σ' = mkRng (seed (rng σ)) (length vs + drawn (rng σ)) ∧
    expandables σ' = expandables σ ∧ tabulator σ' = tabulator σ.
Proof.
  induction vs as [|v vs IH]; intros groups σ Hlt Hh Hne.
  - exists groups, σ. rewrite app_nil_r.
    split_and!; try done; try lia. by destruct (rng σ).
  - cbn [for_each].
    rewrite (bind_run _ _ _ _ _ (place_run _ _ _ _ v _ Hlt Hh)).
    set (groups1 := place_groups _ v groups).
    set (σ1 := with_heap _ _).
    destruct (IH groups1 σ1)
      as (groups' & σ' & Hrun & Hh' & Hne' & Hp & Hlen & _ & Hrng & He & Ht);
      [done|done|by apply place_groups_nonempty|].
    pose proof (place_groups_length
      (libc_rand (seed (rng σ)) (drawn (rng σ))) v groups) as Hl.
    fold groups1 in Hl.
    assert (1 ≤ length groups1) as Hpos.
    { pose proof (place_groups_concat
        (libc_rand (seed (rng σ)) (drawn (rng σ))) v groups) as Hc.
      fold groups1 in Hc. destruct groups1; [|cbn; lia].
      by apply Permutation_nil_cons in Hc. }
    exists groups', σ'. split_and!; try done.
    + rewrite Hp. unfold groups1. rewrite place_groups_concat.
      by rewrite <-Permutation_middle.
    + lia.
    + cbn [length]. lia.
    + lia.
    + rewrite Hrng. cbn. f_equal. lia.
Qed.

End Dealing.

Section Counting.
Context `{Header}.

(** Every expandable hides at least one slot and at most [m]. *)
Lemma built_count t h :
  (∀ node slots es ins, built t h node slots es ins →
     length es ≤ length slots ≤ m t * length es) ∧
  (∀ cs slots es ins, built_forest t h cs slots es ins →
     length es ≤ length slots ≤ m t * length es).
Proof.
  apply built_mutind.
  - intros node hd c _ Hhd Hm _. destruct hd; [done|]. cbn in *. lia.
  - done.
  - cbn. lia.
  - intros c cs s1 e1 i1 s2 e2 i2 _ IH1 _ IH2.
    rewrite !length_app. nia.
Qed.

(** The slots of a tree are what its expandables hide, in their order. *)
Lemma built_hidden t h :
  (∀ node slots es ins, built t h node slots es ins →
     concat (hidden_at h <$> es) = slots) ∧
  (∀ cs slots es ins, built_forest t h cs slots es ins →
     concat (hidden_at h <$> es) = slots).
Proof.
  apply built_mutind.
  - intros node hd c Hn _ _ _. cbn. unfold hidden_at. rewrite Hn. cbn.
    by rewrite app_nil_r.
  - done.
  - done.
  - intros c cs s1 e1 i1 s2 e2 i2 _ IH1 _ IH2.
    by rewrite fmap_app, concat_app, IH1, IH2.
Qed.

(** The loop keeps one candidate of the table in each expandable. *)
Lemma improve_loop_inv `{!SearchContract} t es h0 problem network fuel :
  NoDup es → es ≠ [] →
  ∀ σ best_cost costs σ',
    loop_inv t es h0 σ →
    improve_loop fuel problem network best_cost σ = Done (costs, σ') →
    loop_inv t es h0 σ'.
Proof.
  intros Hnd Hne.
  induction fuel as [|fuel IH]; intros σ best_cost costs σ' Hinv Hrun; [done|].
  destruct (substitute_inv t es h0 problem network σ Hnd Hne Hinv)
    as (σ1 & Hsub & Hinv1 & _).
  cbn [improve_loop] in Hrun.
  rewrite (bind_run _ _ _ _ _ (improve_step_run _ _ _ _ Hsub)) in Hrun.
  destruct (Qle_bool _ _).
  - apply ret_done in Hrun as [= _ <-]. done.
  - apply bind_done in Hrun as (rest & σ2 & Hrest & Hret).
    apply ret_done in Hret as [= _ <-]. by eapply IH.
Qed.

End Counting.

(** ** The properties *)

Section X1.
Context `{Header}.

(** X1 (a restart builds apart).  One restart of [solve] up to its
    evaluation (lines 32-40) returns the node line 36 allocated, with the
    cost of the final tree; every node that was in the store before, the
    subnetworks of the table among them, is left as it was; the
    expandables registered are not empty and are all nodes allocated by
    this restart; the tabulator, the best record and the output are
    unchanged. *)
Theorem attempt_builds_apart fuel problem σ network cost σ' :
  attempt fuel problem σ = Done ((network, cost), σ') →
  network = length (heap σ) ∧
  cost = evaluate_cost problem (heap σ') network ∧
  (∀ l, l < length (heap σ) → heap σ' !! l = heap σ !! l) ∧
  expandables σ' ≠ [] ∧
  Forall (λ e, length (heap σ) ≤ e < length (heap σ')) (expandables σ') ∧
  tabulator σ' = tabulator σ ∧ best_network σ' = best_network σ ∧
  cout σ' = cout σ.
Proof.
  unfold attempt. intros (root & σ1 & Hcon & Hrun)%bind_done.
  apply bind_done in Hrun as (costs & σ2 & Himp & Hrun).
  apply bind_done in Hrun as (c & σ3 & Hev & Hret).
  unfold evaluate in Hev. erewrite bind_run in Hev by reflexivity.
  apply ret_done in Hev as [= -> ->].
  apply ret_done in Hret as [= -> -> ->].
  destruct (construct_new_nodes _ _ _ _ _ Hcon)
    as (-> & Hlt & Hold & Hne & Hnew & _ & Ht & Hb & _ & Ho).
  destruct (improve_touches _ _ _ _ _ _ Himp)
    as (He & [Hlen Hat] & Ht' & Hb' & _ & Ho' & _).
  rewrite He, Hlen. split_and!; try done; try congruence.
  intros l Hl. rewrite <-(Hold l Hl). apply Hat.
  intros Hin. pose proof (proj1 (Forall_forall _ _) Hnew l Hin). cbn in *. lia.
Qed.

End X1.

Lemma attempt_builds_apart_witness :
  attempted_3_1.1.1 = length (heap started_3_1) ∧
  attempted_3_1.1.2
    = evaluate_cost (Header := Bench.header) (mkProblem 3)
        (heap attempted_3_1.2) attempted_3_1.1.1 ∧
  (∀ l, l < length (heap started_3_1) →
     heap attempted_3_1.2 !! l = heap started_3_1 !! l) ∧
  expandables attempted_3_1.2 ≠ [] ∧
  Forall (λ e, length (heap started_3_1) ≤ e < length (heap attempted_3_1.2))
         (expandables attempted_3_1.2) ∧
  tabulator attempted_3_1.2 = tabulator started_3_1 ∧
  best_network attempted_3_1.2 = best_network started_3_1 ∧
  cout attempted_3_1.2 = cout started_3_1.
Proof.
  apply (attempt_builds_apart (H := Bench.header) 10 (mkProblem 3)
           started_3_1).
  vm_compute. reflexivity.
Defined.

Section X2.
Context `{Header}.

(** X2 (what the improvement touches).  A call of [iteratively_improve]
    that returns has written nothing but the [children] of registered
    expandables: the store has the same length, every node that is not an
    expandable is as it was, [values] and [hidden] of every node are as
    they were, and the list of expandables, the tabulator, the best record,
    the output and the seed of the generator are unchanged. *)
Theorem improvement_touches_children_only fuel problem network σ costs σ' :
  iteratively_improve fuel problem network σ = Done (costs, σ') →
  length (heap σ') = length (heap σ) ∧
  (∀ l, l ∉ expandables σ → heap σ' !! l = heap σ !! l) ∧
  (∀ l, values <$> heap σ' !! l = values <$> heap σ !! l ∧
        hidden <$> heap σ' !! l = hidden <$> heap σ !! l) ∧
  expandables σ' = expandables σ ∧
  tabulator σ' = tabulator σ ∧ best_network σ' = best_network σ ∧
  cout σ' = cout σ ∧ seed (rng σ') = seed (rng σ).
Proof.
  intros Hrun.
  destruct (improve_touches _ _ _ _ _ _ Hrun)
    as (He & [Hlen Hat] & Ht & Hb & _ & Ho & Hs).
  split_and!; try done.
  - intros l. apply Hat.
  - intros l. split; apply Hat.
Qed.

End X2.

Lemma improvement_touches_children_only_witness :
  length (heap improved_3_2.2) = length (heap built_3_2.2) ∧
  (∀ l, l ∉ expandables built_3_2.2 →
     heap improved_3_2.2 !! l = heap built_3_2.2 !! l) ∧
  (∀ l, values <$> heap improved_3_2.2 !! l = values <$> heap built_3_2.2 !! l ∧
        hidden <$> heap improved_3_2.2 !! l
          = hidden <$> heap built_3_2.2 !! l) ∧
  expandables improved_3_2.2 = expandables built_3_2.2 ∧
  tabulator improved_3_2.2 = tabulator built_3_2.2 ∧
  best_network improved_3_2.2 = best_network built_3_2.2 ∧
  cout improved_3_2.2 = cout built_3_2.2 ∧
  seed (rng improved_3_2.2) = seed (rng built_3_2.2).
Proof.
  apply (improvement_touches_children_only (H := Bench.header) 10
           (mkProblem 3) built_3_2.1 built_3_2.2 improved_3_2.1).
  vm_compute. reflexivity.
Defined.

Section X3.
Context `{Header}.

(** X3 (the improvement follows good pointers).  On the tree a construction
    that returned has left, [iteratively_improve] performs no undefined
    operation and raises nothing, whatever the searches return: the
    tabulator is there, the moduli of lines 92-93 are not zero, the indices
    of lines 95 and 101-102 are in range and the expandables are in the
    store.  It returns or, in the model, runs out of fuel. *)
Theorem improvement_follows_good_pointers fuel fuel' problem σ root σ' :
  construct fuel problem σ = Done (root, σ') →
  harmless (iteratively_improve fuel' problem root σ').
Proof.
  intros Hcon.
  destruct (construct_new_nodes _ _ _ _ _ Hcon)
    as (_ & _ & _ & Hne & Hnew & [t Ht] & Ht' & _).
  unfold iteratively_improve, evaluate.
  erewrite bind_run by (erewrite bind_run by reflexivity; reflexivity).
  pose proof (improve_loop_harmless t problem root fuel' σ'
                (evaluate_cost problem (heap σ') root)) as Hh.
  unfold mbind, M_bind, bind.
  destruct (improve_loop _ _ _ _ _) as [[rest σ'']| | |]; try done;
    apply Hh; try congruence;
    (eapply Forall_impl; [exact Hnew|]; cbn; intros; lia).
Qed.

End X3.

Lemma improvement_follows_good_pointers_witness :
  harmless (iteratively_improve (H := Bench.header) 10
              (mkProblem 3) built_3_1.1 built_3_1.2).
Proof.
  apply (improvement_follows_good_pointers (H := Bench.header) 10 10
           (mkProblem 3) started_3_1).
  vm_compute. reflexivity.
Defined.

Section X4.
Context `{Header}.

(** X4 (two draws per pass).  A call of [iteratively_improve] that
    evaluated the tree [k + 1] times has drawn exactly [2 k] numbers from
    the generator (lines 92-93, once per pass), and has not seeded it
    again. *)
Theorem improvement_draws_twice_per_pass fuel problem network σ costs σ' :
  iteratively_improve fuel problem network σ = Done (costs, σ') →
  rng σ' = mkRng (seed (rng σ)) (2 * (length costs - 1) + drawn (rng σ)).
Proof.
  unfold iteratively_improve. intros (b0 & σ0 & Hev & Hrun)%bind_done.
  unfold evaluate in Hev. erewrite bind_run in Hev by reflexivity.
  apply ret_done in Hev as [= -> ->].
  apply bind_done in Hrun as (rest & σ1 & Hloop & Hret).
  apply ret_done in Hret as [= -> ->].
  destruct (improve_loop_shape _ _ _ _ _ _ _ Hloop) as (k & Hlen & Hsub & _).
  apply substitutions_draws in Hsub. rewrite Hsub. cbn [length].
  rewrite Hlen. f_equal; lia.
Qed.

End X4.

Lemma improvement_draws_twice_per_pass_witness :
  rng improved_3_2.2
  = mkRng (seed (rng built_3_2.2))
          (2 * (length improved_3_2.1 - 1) + drawn (rng built_3_2.2)).
Proof.
  apply (improvement_draws_twice_per_pass (H := Bench.header) 10
           (mkProblem 3) built_3_2.1).
  vm_compute. reflexivity.
Defined.

Section X5.
Context `{Header}.

(** X5 (a solver without tabulator).  [LocalSolver] accepts a null
    tabulator, which is what [main] passes for [t = 0]; line 30 then skips
    the tabulation, and the first restart dereferences the null pointer at
    line 68, for every problem. *)
Theorem solve_null_tabulator rounds fuel problem σ :
  tabulator σ = None →
  solve (S rounds) (S fuel) problem σ = Undefined NullDeref.
Proof.
  intros Ht. unfold solve.
  erewrite bind_run by reflexivity.
  erewrite bind_run by reflexivity.
  erewrite bind_run by reflexivity.
  cbn [tabulator with_best_network with_ticks]. rewrite Ht.
  erewrite bind_run by reflexivity.
  cbn [solve_loop]. apply bind_undefined. by apply restart_null.
Qed.

End X5.

Lemma solve_null_tabulator_witness :
  solve (H := Bench.header) 1 1 (mkProblem 3) boot = Undefined NullDeref.
Proof.
  apply (solve_null_tabulator (H := Bench.header) 0 0 (mkProblem 3) boot).
  reflexivity.
Defined.

Section X6.
Context `{Header}.

(** X6 (a problem without slots).  For [N = 0] the root has no values, so
    the base case of [randomly_expand] applies whatever the arity: the
    construction either returns the root as the only expandable, holding no
    slot and one candidate of the table for the empty key, or, when the
    table has no candidate for the empty key, divides by zero at line 74.
    It never recurses and never reports an invalid problem. *)
Theorem no_slots `{!ShuffleLaws} fuel problem σ t :
  problem_size problem = 0 →
  tabulator σ = Some t →
  match construct (S fuel) problem σ with
  | Done (root, σ') =>
      entry_of t (encode []) ≠ [] ∧ root = length (heap σ) ∧
      expandables σ' = [root] ∧
      ∃ c, heap σ' !! root = Some (mkNode [] [] [c]) ∧ c ∈ candidates t []
  | Undefined u => u = ModByZero ∧ entry_of t (encode []) = []
  | Fatal _ | OutOfFuel => False
  end.
Proof.
  intros HN Ht. rewrite construct_enter, HN. cbn [seq].
  pose proof (shuffle_perm [] (rng σ)) as Hp. apply Permutation_nil_r in Hp.
  rewrite Hp.
  set (σ0 := mkState _ _ _ _ _ _ _).
  assert (heap σ0 !! length (heap σ) = Some (leaf [])) as Hroot.
  { cbn. by rewrite lookup_app_r, Nat.sub_diag by done. }
  destruct (decide (entry_of t (encode []) = [])) as [Hmiss|Hent].
  - rewrite (bind_undefined _ _ _ ModByZero); [done|].
    apply (base_case_miss fuel _ σ0 t (leaf [])); try done. cbn; lia.
  - destruct (base_case_run fuel _ σ0 t (leaf []) Ht Hroot) as (e & He & Hb);
      [cbn; lia|done|].
    rewrite (bind_run _ _ _ _ _ Hb). cbn.
    split_and!; try done. exists e.2. split.
    + apply list_lookup_insert_eq. rewrite length_app. cbn. lia.
    + unfold candidates. apply list_elem_of_fmap. exists e.
      split; [done|]. by eapply list_elem_of_lookup_2.
Qed.

End X6.

Lemma no_slots_witness :
  match construct (H := Bench.header) 1 (mkProblem 0) unfilled with
  | Done (root, σ') =>
      entry_of (mkTabulator 1 ∅) (encode (Header := Bench.header) []) ≠ [] ∧
      root = length (heap unfilled) ∧
      expandables σ' = [root] ∧
      ∃ c, heap σ' !! root = Some (mkNode [] [] [c]) ∧
           c ∈ candidates (H := Bench.header) (mkTabulator 1 ∅) []
  | Undefined u =>
      u = ModByZero ∧
      entry_of (mkTabulator 1 ∅) (encode (Header := Bench.header) []) = []
  | Fatal _ | OutOfFuel => False
  end.
Proof.
  apply (no_slots (H := Bench.header) 0 (mkProblem 0) unfilled
           (mkTabulator 1 ∅)).
  - reflexivity.
  - reflexivity.
Defined.

Section X7.
Context `{Header}.

(** X7 (the output of a run).  After any number of restarts of [main]: the
    costs of the blocks written are strictly falling, there is at most one
    block per restart, the clock was read once at the start and once per
    block; and after at least one restart there is a best network, and the
    cost of the last block is the recorded best cost. *)
Theorem reported_costs_fall rounds fuel n t b σ :
  main rounds fuel n t = Done (b, σ) →
  falling (found_cost <$> cout σ) ∧
  length (cout σ) ≤ rounds ∧
  ticks σ = S (length (cout σ)) ∧
  (1 ≤ rounds →
     best_network σ ≠ None ∧ last (found_cost <$> cout σ) = Some b).
Proof.
  rewrite main_loop. intros Hrun.
  assert (reported 0%Q (loop_entry n t)) as Hrep.
  { unfold loop_entry, reported. case_decide; cbn; split_and!; try done;
      by intros [|i] ???. }
  destruct (solve_loop_reported _ _ _ _ _ _ _ _ Hrep Hrun)
    as ((Hticks & Hfall & _ & Hlast) & Hbn & more & Ho & Hlen).
  assert (cout (loop_entry n t) = []) as Hnil
    by (unfold loop_entry; by case_decide).
  rewrite Hnil in Ho. cbn in Ho. subst more.
  split_and!; try done. intros Hr. split; auto.
Qed.

End X7.

Lemma reported_costs_fall_witness :
  falling (found_cost <$> cout ran_3_1.2) ∧
  length (cout ran_3_1.2) ≤ 3 ∧
  ticks ran_3_1.2 = S (length (cout ran_3_1.2)) ∧
  (1 ≤ 3 →
     best_network ran_3_1.2 ≠ None ∧
     last (found_cost <$> cout ran_3_1.2) = Some ran_3_1.1).
Proof.
  apply (reported_costs_fall (H := Bench.header) 3 10 3 1).
  vm_compute. reflexivity.
Defined.

Section X8.
Context `{Header}.

(** X8 (the distribution loop).  On a node that holds the values [vs], not
    none, and has no children yet, the loop of lines 78-84 never fails: it
    makes between one and [length vs] children, all new nodes at the end
    of the store and none of them empty, hands every value of [vs] to
    exactly one of them, draws one number per value, and leaves the rest of
    the store, the expandables and the tabulator as they were.  The values
    of the node itself are still there (line 85 clears them). *)
Theorem distribution_loop node vs σ :
  heap σ !! node = Some (leaf vs) → vs ≠ [] →
  ∃ groups σ',
    for_each vs (place node) σ = Done ((), σ') ∧
    heap σ' = dealt (heap σ) node vs groups ∧
    1 ≤ length groups ≤ length vs ∧
    Forall (λ g, g ≠ []) groups ∧
    concat groups ≡ₚ vs ∧
    rng σ' = mkRng (seed (rng σ)) (length vs + drawn (rng σ)) ∧
    expandables σ' = expandables σ ∧ tabulator σ' = tabulator σ.
Proof.
  intros Hn Hvs.
  assert (node < length (heap σ)) as Hlt by by eapply lookup_lt_Some.
  destruct (deal_count (heap σ) node vs vs [] σ Hlt)
    as (groups & σ' & Hrun & Hh & Hne & Hp & Hlen & Hpos & Hrng & He & Ht).
  { by rewrite dealt_nil. }
  { constructor. }
  exists groups, σ'. cbn in Hlen, Hp. split_and!; try done; try lia.
  by apply Hpos.
Qed.

End X8.

Lemma distribution_loop_witness :
  ∃ groups σ',
    for_each [1; 0]
      (place (H := Bench.header) (Nat.pred (length (heap pending_2_2))))
      pending_2_2 = Done ((), σ') ∧
    heap σ' = dealt (heap pending_2_2) (Nat.pred (length (heap pending_2_2)))
                    [1; 0] groups ∧
    1 ≤ length groups ≤ length [1; 0] ∧
    Forall (λ g, g ≠ []) groups ∧
    concat groups ≡ₚ [1; 0] ∧
    rng σ' = mkRng (seed (rng pending_2_2))
                   (length [1; 0] + drawn (rng pending_2_2)) ∧
    expandables σ' = expandables pending_2_2 ∧
    tabulator σ' = tabulator pending_2_2.
Proof.
  apply (distribution_loop (H := Bench.header)
           (Nat.pred (length (heap pending_2_2))) [1; 0] pending_2_2).
  - vm_compute. reflexivity.
  - discriminate.
Defined.

Section X9.
Context `{Header}.

(** X9 (a recursion that need not end).  [randomly_expand] ends only by
    the luck of the draws: with a generator that draws 0 every time, line
    79 sends every value of a node to its first child, so a node with more
    values than the arity of the table recurses on a child with the same
    values, and no depth of recursion is enough. *)
Theorem randomly_expand_may_not_end fuel node σ t vs :
  (∀ s k, libc_rand s k = 0) →
  tabulator σ = Some t →
  heap σ !! node = Some (leaf vs) →
  m t < length vs →
  randomly_expand fuel node σ = OutOfFuel.
Proof.
  intros zero. revert node σ vs.
  induction fuel as [|fuel IH]; intros node σ vs Ht Hn Hm; [done|].
  assert (node < length (heap σ)) as Hlt by by eapply lookup_lt_Some.
  destruct vs as [|v vs]; [cbn in Hm; lia|].
  cbn [randomly_expand].
  rewrite (bind_run _ _ _ _ _ (the_tabulator_run _ _ Ht)).
  rewrite (bind_run _ _ _ _ _ (deref_run _ _ _ Hn)).
  rewrite decide_False by (cbn in *; lia).
  cbn [values leaf for_each].
  pose proof (place_run (heap σ) node (v :: vs) [] v σ Hlt) as Hfirst.
  rewrite dealt_nil in Hfirst by done. specialize (Hfirst eq_refl).
  rewrite zero in Hfirst.
  destruct (deal_stuck zero (heap σ) node (v :: vs) vs [v]
              (with_heap (λ _, dealt (heap σ) node (v :: vs)
                                 (place_groups 0 v []))
                 (with_rng (mkRng (seed (rng σ)) (S (drawn (rng σ)))) σ)))
    as (σ1 & Hrest & Hh1 & Ht1); [done|done|].
  cbn [app] in Hh1.
  assert ((place node v ≫= λ _, for_each vs (place node)) σ = Done ((), σ1))
    as Hdeal by (by rewrite (bind_run _ _ _ _ _ Hfirst)).
  rewrite (bind_run _ _ _ _ _ Hdeal).
  erewrite bind_run
    by (apply modify_run; rewrite Hh1; by apply dealt_node).
  erewrite bind_run
    by (apply deref_run; cbn; apply list_lookup_insert_eq;
        rewrite Hh1, dealt_length; lia).
  cbn [clear_values children seq length for_each].
  apply bind_out_of_fuel.
  apply (IH _ _ (v :: vs)); [cbn; by rewrite Ht1| |done].
  cbn. rewrite list_lookup_insert_ne by lia. rewrite Hh1.
  pose proof (dealt_group (heap σ) node (v :: vs) [v :: vs] 0 (v :: vs) eq_refl)
    as Hg.
  by rewrite Nat.add_0_r in Hg.
Qed.

End X9.

Lemma randomly_expand_may_not_end_witness :
  randomly_expand (H := stuck_header) 7 (Nat.pred (length (heap pending_2_1)))
    pending_2_1 = OutOfFuel.
Proof.
  apply (randomly_expand_may_not_end (H := stuck_header) 7
           (Nat.pred (length (heap pending_2_1))) pending_2_1
           (table_of pending_2_1) [1; 0]).
  - intros s k. reflexivity.
  - reflexivity.
  - vm_compute. reflexivity.
  - vm_compute. lia.
Defined.

Section X10.
Context `{Header}.

(** X10 (how many expandables).  For at least one slot, the construction
    registers no node twice, every expandable it registers has no values
    left, hides between one and [m] slots and holds one candidate of the
    table for them; so the number of expandables is at most [N] and at
    least [N / m]. *)
Theorem expandables_hide_up_to_m `{!ShuffleLaws} fuel problem σ root σ' :
  1 ≤ problem_size problem →
  construct fuel problem σ = Done (root, σ') →
  ∃ t, tabulator σ' = Some t ∧
       NoDup (expandables σ') ∧
       Forall (λ e, ∃ hd c, heap σ' !! e = Some (mkNode [] hd [c]) ∧
                            1 ≤ length hd ≤ m t ∧ c ∈ candidates t hd)
              (expandables σ') ∧
       length (expandables σ') ≤ problem_size problem ∧
       problem_size problem ≤ m t * length (expandables σ').
Proof.
  intros HN Hrun.
  destruct (construct_built _ _ _ _ _ HN Hrun)
    as (t & slots & ins & Ht & -> & Hb & Hs & Hnd & Hso).
  exists t. split_and!.
  - by rewrite (proj1 Hso).
  - by apply NoDup_app in Hnd as (? & _).
  - eapply Forall_impl;
      [by eapply (proj1 (built_expandable_ok t (heap σ')))|].
    intros e (hd & c & He & Hne & Hm & Hc). exists hd, c.
    split_and!; try done. destruct hd; [done|cbn; lia].
  - pose proof (proj1 (built_count t (heap σ')) _ _ _ _ Hb) as Hc.
    apply Permutation_length in Hs. rewrite length_seq in Hs. lia.
  - pose proof (proj1 (built_count t (heap σ')) _ _ _ _ Hb) as Hc.
    apply Permutation_length in Hs. rewrite length_seq in Hs. lia.
Qed.

End X10.

Lemma expandables_hide_up_to_m_witness :
  ∃ t, tabulator built_3_2.2 = Some t ∧
       NoDup (expandables built_3_2.2) ∧
       Forall (λ e, ∃ hd c, heap built_3_2.2 !! e = Some (mkNode [] hd [c]) ∧
                            1 ≤ length hd ≤ m t ∧
                            c ∈ candidates (H := Bench.header) t hd)
              (expandables built_3_2.2) ∧
       length (expandables built_3_2.2) ≤ problem_size (mkProblem 3) ∧
       problem_size (mkProblem 3) ≤ m t * length (expandables built_3_2.2).
Proof.
  apply (expandables_hide_up_to_m (H := Bench.header) 10 (mkProblem 3)
           (started 3 2) built_3_2.1).
  - simpl. lia.
  - vm_compute. reflexivity.
Defined.

Section X11.
Context `{Header}.

(** X11 (the improvement keeps the tree well formed).  With the searches
    keeping their contract, on a tree whose expandables each hold a
    candidate of the table, a call of [iteratively_improve] that returns
    leaves each expandable with exactly one child again, a candidate of the
    table for the slots it hides; the final tree differs from the initial
    one only in which candidates the expandables hold. *)
Theorem improvement_keeps_selection `{!SearchContract}
    fuel problem network σ t costs σ' :
  tabulator σ = Some t →
  NoDup (expandables σ) →
  expandables σ ≠ [] →
  Forall (selected t (heap σ)) (expandables σ) →
  iteratively_improve fuel problem network σ = Done (costs, σ') →
  expandables σ' = expandables σ ∧
  Forall (selected t (heap σ')) (expandables σ') ∧
  heap σ' ∈ variants t (expandables σ) (heap σ) ∧
  ∀ e, hidden_at (heap σ') e = hidden_at (heap σ) e.
Proof.
  intros Ht Hnd Hne Hsel Hrun.
  destruct (improve_touches _ _ _ _ _ _ Hrun) as (He & [_ Hat] & _).
  unfold iteratively_improve in Hrun.
  apply bind_done in Hrun as (b0 & σ0 & Hev & Hrun).
  unfold evaluate in Hev. erewrite bind_run in Hev by reflexivity.
  apply ret_done in Hev as [= -> ->].
  apply bind_done in Hrun as (rest & σ1 & Hloop & Hret).
  apply ret_done in Hret as [= -> ->].
  destruct (improve_loop_inv t (expandables σ) (heap σ) problem network fuel
              Hnd Hne _ _ _ _ (loop_inv_start t σ Ht Hsel) Hloop)
    as (_ & _ & Hvar & Hsel').
  split_and!; try done.
  - by rewrite He.
  - intros e. unfold hidden_at. destruct (Hat e) as (_ & _ & Hh).
    destruct (heap σ1 !! e), (heap σ !! e); simplify_eq/=; done.
Qed.

End X11.

Lemma improvement_keeps_selection_witness :
  expandables improved_3_2.2 = expandables built_3_2.2 ∧
  Forall (selected (H := Bench.header) (table_of built_3_2.2)
            (heap improved_3_2.2)) (expandables improved_3_2.2) ∧
  heap improved_3_2.2
    ∈ variants (H := Bench.header) (table_of built_3_2.2)
        (expandables built_3_2.2) (heap built_3_2.2) ∧
  ∀ e, hidden_at (heap improved_3_2.2) e = hidden_at (heap built_3_2.2) e.
Proof.
  apply (improvement_keeps_selection (H := Bench.header) 10 (mkProblem 3)
           built_3_2.1 built_3_2.2 (table_of built_3_2.2) improved_3_2.1).
  - reflexivity.
  - apply (bool_decide_unpack _). vm_compute. exact I.
  - vm_compute. discriminate.
  - repeat constructor;
      (eexists _, _; split_and!;
       [vm_compute; reflexivity | reflexivity
       | apply (bool_decide_unpack _); vm_compute; exact I]).
  - vm_compute. reflexivity.
Defined.

Section X12.
Context `{Header}.

(** X12 (the table and the generator of a run).  [main] seeds the generator
    once and, for [t] other than 0, tabulates once: after any number of
    restarts the tabulator is still the one [tabulate] returned before the
    loop, the seed is still 2022, and no restart has started the stream
    over: with a shuffle that does not rewind the generator, its position
    has moved forward by two or more in every restart. *)
Theorem main_tabulates_once `{!ShuffleLaws} rounds fuel n t b σ :
  t ≠ 0 →
  main rounds fuel n t = Done (b, σ) →
  tabulator σ = Some (tabulate (mkProblem n) (mkTabulator t ∅) []).1 ∧
  seed (rng σ) = 2022 ∧
  ((∀ l g, drawn g ≤ drawn (random_shuffle l g).2) →
   2 * rounds ≤ drawn (rng σ)).
Proof.
  intros Ht. rewrite main_loop. intros Hrun.
  pose proof (keeps_solve_loop
    (λ σ0, tabulator σ0 = tabulator (loop_entry n t) ∧ seed (rng σ0) = 2022))
    as Hk.
  specialize (Hk (λ _ _ Hs, Hs) (λ _ _ Hs, Hs) (λ _ _ Hs, Hs)).
  specialize (Hk (λ σ0 l Hs,
    conj (proj1 Hs) (eq_trans (shuffle_seed l (rng σ0)) (proj2 Hs)))).
  specialize (Hk (λ _ _ Hs, Hs) (λ _ _ Hs, Hs) (λ _ _ Hs, Hs)).
  specialize (Hk fuel (mkProblem n) (steady_clock 0) rounds 0%Q
                 (loop_entry n t)).
  rewrite Hrun in Hk. destruct Hk as [Htab Hseed].
  { unfold loop_entry. by case_decide. }
  split_and!; [|done|].
  - rewrite Htab. unfold loop_entry. by rewrite decide_False.
  - intros Hsh. apply (solve_loop_draws _ _ _ _ Hsh) in Hrun.
    unfold loop_entry in Hrun. rewrite decide_False in Hrun by done.
    cbn in Hrun. lia.
Qed.

End X12.

Lemma main_tabulates_once_witness :
  tabulator ran_3_1.2
    = Some (tabulate (Header := Bench.header) (mkProblem 3)
              (mkTabulator 1 ∅) []).1 ∧
  seed (rng ran_3_1.2) = 2022 ∧
  2 * 3 ≤ drawn (rng ran_3_1.2).
Proof.
  destruct (main_tabulates_once (H := Bench.header) 3 10 3 1
              ran_3_1.1 ran_3_1.2) as (Htab & Hseed & Hdrawn).
  - discriminate.
  - vm_compute. reflexivity.
  - split_and!; [exact Htab|exact Hseed|].
    apply Hdrawn. intros l g. apply shuffle_advances.
Defined.

Section X13.
Context `{Header}.

(** X13 (when the root is an expandable).  The construction makes the root
    the one expandable, hiding all the slots, exactly when the slots fit
    the arity of the table ([N ≤ m]); with more slots the root is not an
    expandable: it keeps neither values nor hidden slots and has at least
    one child. *)
Theorem root_is_expandable_iff_fits `{!ShuffleLaws} fuel problem σ t root σ' :
  tabulator σ = Some t →
  construct fuel problem σ = Done (root, σ') →
  if decide (problem_size problem ≤ m t) then
    expandables σ' = [root] ∧
    ∃ hd c, heap σ' !! root = Some (mkNode [] hd [c]) ∧
            hd ≡ₚ seq 0 (problem_size problem)
  else
    (root ∉ expandables σ') ∧
    ∃ cs, cs ≠ [] ∧ heap σ' !! root = Some (mkNode [] [] cs).
Proof.
  intros Ht Hcon. case_decide as Hfit.
  -
    apply construct_run in Hcon as (σ1 & [= -> <-] & Hrun).
    set (g := random_shuffle _ _) in Hrun.
    set (σ0 := mkState _ _ _ _ _ _ _) in Hrun.
    pose proof (shuffle_perm (seq 0 (problem_size problem)) (rng σ)) as Hp.
    fold g in Hp.
    assert (heap σ0 !! length (heap σ) = Some (leaf g.1)) as Hroot.
    { cbn. by rewrite lookup_app_r, Nat.sub_diag by done. }
    assert (length (values (leaf g.1)) ≤ m t) as Hle.
    { cbn. apply Permutation_length in Hp. rewrite length_seq in Hp. lia. }
    destruct fuel as [|fuel]; [done|].
    destruct (decide (entry_of t (encode g.1) = [])) as [Hmiss|Hent].
    { by rewrite (base_case_miss fuel _ σ0 t (leaf g.1)) in Hrun. }
    destruct (base_case_run fuel _ σ0 t (leaf g.1) Ht Hroot Hle Hent)
      as (e & _ & Hb).
    rewrite Hb in Hrun. injection Hrun as <-. cbn.
    split; [done|]. exists g.1, e.2. split; [|done].
    apply list_lookup_insert_eq. rewrite length_app. cbn. lia.
  - assert (1 ≤ problem_size problem) as HN by lia.
    destruct (construct_built _ _ _ _ _ HN Hcon)
      as (t' & slots & ins & Ht' & -> & Hb & Hs & Hnd & _).
    assert (t' = t) as -> by congruence.
    inversion Hb as [node hd c Hn Hhd Hm Hc|node cs sl es ins' Hn Hcs Hf];
      subst.
    + apply Permutation_length in Hs. rewrite length_seq in Hs. lia.
    + split; [|by exists cs].
      apply NoDup_app in Hnd as (_ & Hdisj & _).
      intros Hin. apply (Hdisj _ Hin). left.
Qed.

End X13.

Lemma root_is_expandable_iff_fits_witness :
  if decide (problem_size (mkProblem 3) ≤ m (table_of started_3_1)) then
    expandables built_3_1.2 = [built_3_1.1] ∧
    ∃ hd c, heap built_3_1.2 !! built_3_1.1 = Some (mkNode [] hd [c]) ∧
            hd ≡ₚ seq 0 (problem_size (mkProblem 3))
  else
    (built_3_1.1 ∉ expandables built_3_1.2) ∧
    ∃ cs, cs ≠ [] ∧ heap built_3_1.2 !! built_3_1.1 = Some (mkNode [] [] cs).
Proof.
  apply (root_is_expandable_iff_fits (H := Bench.header) 10 (mkProblem 3)
           started_3_1 (table_of started_3_1)).
  - reflexivity.
  - vm_compute. reflexivity.
Defined.

Section X14.
Context `{Header}.

(** X14 (the expandables hide every slot).  For at least one slot, after
    the construction and the improvement of one restart (lines 32-39) the
    slots hidden in the registered expandables, taken in the order of
    registration, are every slot of [0..N) exactly once: no slot is lost,
    duplicated or left in the [values] of a node where the improvement
    could not reach it. *)
Theorem expandables_hide_every_slot `{!ShuffleLaws}
    fuel problem σ network cost σ' :
  1 ≤ problem_size problem →
  attempt fuel problem σ = Done ((network, cost), σ') →
  concat (hidden_at (heap σ') <$> expandables σ')
    ≡ₚ seq 0 (problem_size problem).
Proof.
  intros HN. unfold attempt. intros (root & σ1 & Hcon & Hrun)%bind_done.
  apply bind_done in Hrun as (costs & σ2 & Himp & Hrun).
  apply bind_done in Hrun as (c & σ3 & Hev & Hret).
  unfold evaluate in Hev. erewrite bind_run in Hev by reflexivity.
  apply ret_done in Hev as [= -> ->].
  apply ret_done in Hret as [= -> -> ->].
  destruct (construct_built _ _ _ _ _ HN Hcon)
    as (t & slots & ins & _ & _ & Hb & Hs & _).
  destruct (improve_touches _ _ _ _ _ _ Himp) as (He & [_ Hat] & _).
  rewrite He.
  assert (hidden_at (heap σ2) <$> expandables σ1
          = hidden_at (heap σ1) <$> expandables σ1) as ->.
  { apply list_fmap_ext. intros i e _.
    unfold hidden_at. destruct (Hat e) as (_ & _ & Hh).
    destruct (heap σ2 !! e), (heap σ1 !! e); simplify_eq/=; done. }
  by rewrite (proj1 (built_hidden t (heap σ1)) _ _ _ _ Hb).
Qed.

End X14.

Lemma expandables_hide_every_slot_witness :
  concat (hidden_at (heap attempted_3_1.2) <$> expandables attempted_3_1.2)
    ≡ₚ seq 0 (problem_size (mkProblem 3)).
Proof.
  apply (expandables_hide_every_slot (H := Bench.header) 10 (mkProblem 3)
           started_3_1 attempted_3_1.1.1 attempted_3_1.1.2).
  - simpl. lia.
  - vm_compute. reflexivity.
Defined.
